(** * go-gitconfig: the value reader and the struct loader

    A shallow embedding of [gitconfig.go] (package [gitconfig]) and of the
    parts of the Go runtime and standard library it leans on ([os/exec],
    [strings], [strconv], [reflect], [syscall]), followed by the
    properties of the accessors and of [Config.Load].

    Go strings are byte sequences and are modelled by [string]; Go maps
    by [gmap]; a Go function that can panic returns a [Res]; a method
    that runs the external [git] process or writes through a pointer lives
    in the monad [M], which threads the list of commands issued so far and
    the heap. *)

From Stdlib Require Import ZArith Ascii String List.
From stdpp Require Import base option list gmap strings.

Set Warnings "-register-all".

Open Scope string_scope.
Open Scope Z_scope.
Open Scope list_scope.

(** ** Outcomes of a Go call

    A call either returns or panics. *)
Inductive Res (A : Type) : Type :=
| Ret (a : A)
| Panic (msg : string).
Arguments Ret {A} a.
Arguments Panic {A} msg.

(** ** [package syscall], [package os/exec]

    The status word of a terminated child as on linux:
    [Exited] is [w&0x7F == 0] and [ExitStatus] is [(w>>8)&0xFF], or [-1]
    for a child that did not exit. *)
Definition WaitStatus := Z.

Definition Exited (w : WaitStatus) : bool := Z.land w 127 =? 0.

Definition ExitStatus (w : WaitStatus) : Z :=
  if Exited w then Z.land (Z.shiftr w 8) 255 else -1.

(** What [ProcessState.Sys()] hands back: a [syscall.WaitStatus] on unix
    and windows, something else on other systems. *)
Inductive SysInfo : Type :=
| SysWaitStatus (w : WaitStatus)
| SysOther.

(** [*exec.ExitError]: the child ran and did not exit with status 0. *)
Record ExitError : Type := mkExitError { Sys : SysInfo }.

(** ** [package reflect]: kinds, types and values *)
Inductive Kind : Type :=
| Invalid | Bool
| Int | Int8 | Int16 | Int32 | Int64
| Uint | Uint8 | Uint16 | Uint32 | Uint64 | Uintptr
| Float32 | Float64 | Complex64 | Complex128
| Array | Chan | Func | Interface | Map | Ptr | Slice | String_ | Struct
| UnsafePointer.

(** A struct tag, already cut into its [key:"value"] pairs. *)
Definition StructTag := list (string * string).

Inductive rtype : Type :=
| TBool
| TInt | TInt8 | TInt16 | TInt32 | TInt64
| TUint | TUint8 | TUint16 | TUint32 | TUint64 | TUintptr
| TFloat32 | TFloat64 | TComplex64 | TComplex128
| TString | TUnsafePointer
| TArray (len : nat) (elem : rtype)
| TChan (elem : rtype)
| TFunc
| TInterface
| TMap (key elem : rtype)
| TPtr (elem : rtype)
| TSlice (elem : rtype)
| TStruct (fields : list StructField)
| TNamed (name : string) (underlying : rtype)
with StructField : Type :=
| mkStructField (Name : string) (PkgPath : string) (Type_ : rtype)
    (Tag : StructTag).

Definition Name (f : StructField) : string :=
  let 'mkStructField n _ _ _ := f in n.
Definition PkgPath (f : StructField) : string :=
  let 'mkStructField _ p _ _ := f in p.
Definition Type_ (f : StructField) : rtype :=
  let 'mkStructField _ _ t _ := f in t.
Definition Tag (f : StructField) : StructTag :=
  let 'mkStructField _ _ _ t := f in t.

(** The underlying type of a defined type. *)
Fixpoint underlying (t : rtype) : rtype :=
  match t with
  | TNamed _ u => underlying u
  | _ => t
  end.

(** [Type.Kind()]. *)
Fixpoint kindOf (t : rtype) : Kind :=
  match t with
  | TBool => Bool
  | TInt => Int | TInt8 => Int8 | TInt16 => Int16 | TInt32 => Int32
  | TInt64 => Int64
  | TUint => Uint | TUint8 => Uint8 | TUint16 => Uint16 | TUint32 => Uint32
  | TUint64 => Uint64 | TUintptr => Uintptr
  | TFloat32 => Float32 | TFloat64 => Float64
  | TComplex64 => Complex64 | TComplex128 => Complex128
  | TString => String_
  | TUnsafePointer => UnsafePointer
  | TArray _ _ => Array
  | TChan _ => Chan
  | TFunc => Func
  | TInterface => Interface
  | TMap _ _ => Map
  | TPtr _ => Ptr
  | TSlice _ => Slice
  | TStruct _ => Struct
  | TNamed _ u => kindOf u
  end.

(** Heap addresses. *)
Definition loc := nat.

(** Go values. Every integer kind is a [VInt]; a nil slice and an empty one
    are both [VSlice []]; [VPtr None] is the nil pointer; [VOpaque] stands
    for the values [Load] never looks into (floats, maps, channels, ...). *)
Inductive value : Type :=
| VBool (b : bool)
| VInt (n : Z)
| VString (s : string)
| VArray (elems : list value)
| VSlice (elems : list value)
| VStruct (fields : list value)
| VPtr (p : option loc)
| VOpaque.

(** An [interface{}] value: nil, or a dynamic type with a value. *)
Inductive iface : Type :=
| nil_iface
| Iface (t : rtype) (v : value).

(** ** Errors

    The arguments handed to [fmt.Errorf], kept unrendered. *)
Inductive fmtArg : Type :=
| ArgString (s : string)
| ArgTypeString (t : rtype)
| ArgValue (v : iface).

(** The two sentinel errors of [strconv]. *)
Inductive NumErr : Type := ErrSyntax | ErrRange.

(** A value of the interface type [error]: nil, or one of the dynamic
    types that occur in this package. [LoadError] is [map[string]error];
    [NilMap] is its nil value. *)
Inductive error : Type :=
| nil_error
| RunError (Msg : string) (Err : option ExitError)
| NumError (Func_ : string) (Num : string) (Err : NumErr)
| fmtError (format : string) (args : list fmtArg)
| execError (descr : string)
| LoadError_ (m : LoadError)
with LoadError : Type :=
| NilMap
| MkMap (m : gmap string error).

(** [err == nil]. An interface value is nil only when it holds no dynamic
    type at all: a nil map of type [LoadError] stored in an [error] is
    [LoadError_ NilMap], which is not [nil_error]. *)
Definition is_nil (e : error) : bool :=
  match e with
  | nil_error => true
  | _ => false
  end.

(** [len(m)] of a [LoadError]; a nil map has length 0. *)
Definition LoadError_len (m : LoadError) : nat :=
  match m with
  | NilMap => 0%nat
  | MkMap m => size m
  end.

(** ** [package strings] *)

(** [strings.Split(s, sep)] for a separator of one byte, which is what both
    call sites pass (a NUL byte and a comma): the pieces of [s] between
    the occurrences of [sep], one more than there are occurrences. *)
Fixpoint Split (s : string) (sep : ascii) : list string :=
  match s with
  | EmptyString => [EmptyString]
  | String c rest =>
      if Ascii.eqb c sep then EmptyString :: Split rest sep
      else match Split rest sep with
           | piece :: pieces => String c piece :: pieces
           | [] => [String c EmptyString]
           end
  end.

Fixpoint inCutset (c : ascii) (cutset : string) : bool :=
  match cutset with
  | EmptyString => false
  | String d rest => Ascii.eqb c d || inCutset c rest
  end.

(** [strings.TrimRight(s, cutset)]: [s] without its trailing bytes that
    belong to [cutset]. *)
Fixpoint TrimRight (s : string) (cutset : string) : string :=
  match s with
  | EmptyString => EmptyString
  | String c rest =>
      match TrimRight rest cutset with
      | EmptyString => if inCutset c cutset then EmptyString
                       else String c EmptyString
      | kept => String c kept
      end
  end.

Definition NUL : ascii := Ascii.zero.
Definition comma : ascii := ",".
Definition newline : string := String (ascii_of_nat 10) EmptyString.

(** ** [package strconv] *)

Definition maxUint64 : Z := 2 ^ 64 - 1.

(** [int64(x)]: the two's complement reading of the low 64 bits. *)
Definition wrapInt (bits : Z) (x : Z) : Z :=
  (x + 2 ^ (bits - 1)) mod 2 ^ bits - 2 ^ (bits - 1).

Definition byteOf (c : ascii) : Z := Z.of_nat (nat_of_ascii c).

(** [lower(c)] of strconv: [c | ('x' - 'X')]. *)
Definition lower (c : ascii) : Z := Z.lor (byteOf c) 32.

(** The loop of [ParseUint(s, 10, 64)]: [n] is the number read so far. *)
Fixpoint ParseUint_loop (s : string) (n : Z) : Z * option NumErr :=
  match s with
  | EmptyString => (n, None)
  | String c rest =>
      let d :=
        if (48 <=? byteOf c) && (byteOf c <=? 57) then Some (byteOf c - 48)
        else if (97 <=? lower c) && (lower c <=? 122)
             then Some (lower c - 97 + 10)
             else None in
      match d with
      | None => (0, Some ErrSyntax)
      | Some d =>
          if 10 <=? d then (0, Some ErrSyntax)
          else if maxUint64 / 10 + 1 <=? n then (maxUint64, Some ErrRange)
          else
            let n10 := (n * 10) mod 2 ^ 64 in
            let n1 := (n10 + d) mod 2 ^ 64 in
            if (n1 <? n10) || (maxUint64 <? n1)
            then (maxUint64, Some ErrRange)
            else ParseUint_loop rest n1
      end
  end.

(** [strconv.ParseUint(s, 10, 64)]. *)
Definition ParseUint (s : string) : Z * option NumErr :=
  match s with
  | EmptyString => (0, Some ErrSyntax)
  | _ => ParseUint_loop s 0
  end.

(** [strconv.ParseInt(s, 10, 64)]. A syntax error comes with 0, a range
    error with the bound of [int64] on the side of the sign. *)
Definition ParseInt (s0 : string) : Z * error :=
  match s0 with
  | EmptyString => (0, NumError "ParseInt" s0 ErrSyntax)
  | String c rest =>
      let '(neg, s) :=
        if Ascii.eqb c "+" then (false, rest)
        else if Ascii.eqb c "-" then (true, rest)
        else (false, s0) in
      match ParseUint s with
      | (_, Some ErrSyntax) => (0, NumError "ParseInt" s0 ErrSyntax)
      | (un, _) =>
          let cutoff := 2 ^ 63 in
          if negb neg && (cutoff <=? un)
          then (cutoff - 1, NumError "ParseInt" s0 ErrRange)
          else if neg && (cutoff <? un)
          then (- cutoff, NumError "ParseInt" s0 ErrRange)
          else
            let n := wrapInt 64 un in
            (if neg then wrapInt 64 (- n) else n, nil_error)
      end
  end.

(** ** The world: the external process and the heap *)

(** What [cmd.Output()] reports with [cmd.Stderr] set to a buffer. *)
Inductive CmdResult : Type :=
| Exit0 (stdout : string)
    (* err == nil *)
| ExitNonZero (e : ExitError) (stdout stderr : string)
    (* err is an *exec.ExitError *)
| NotRun (descr : string).
    (* any other error: the executable was not found, a pipe failed, ... *)

(** The [git] executable as the program sees it: its answer to an argument
    list, which may depend on the commands issued before. *)
Definition Git : Type := list (list string) -> list string -> CmdResult.

Record World : Type := mkWorld {
  trace : list (list string);   (* the argument lists of the runs so far *)
  heap : gmap loc value         (* what pointers point to *)
}.

(** Computations that run commands and write to the heap; a panic keeps
    the world it happened in. *)
Definition M (A : Type) : Type := World -> Res A * World.

#[global] Instance M_ret : MRet M := fun A a w => (Ret a, w).

#[global] Instance M_bind : MBind M := fun A B f m w =>
  match m w with
  | (Ret a, w') => f a w'
  | (Panic msg, w') => (Panic msg, w')
  end.

Definition panic {A : Type} (msg : string) : M A := fun w => (Panic msg, w).

(** ** [package gitconfig] *)

(** [Source] is a [[]string]. *)
Definition Source : Type := list string.

Definition SourceDefault : Source := [].
Definition SourceGlobal : Source := ["--global"].
Definition SourceLocal : Source := ["--local"].
Definition SourceFile (file : string) : Source := ["--file"; file].
Definition SourceBlob (blob : string) : Source := ["--blob"; blob].

Record Config : Type := mkConfig { Source_ : Source }.

Definition Default : Config := {| Source_ := SourceDefault |}.
Definition Global : Config := {| Source_ := SourceGlobal |}.
Definition Local : Config := {| Source_ := SourceLocal |}.
Definition File (file : string) : Config := {| Source_ := SourceFile file |}.
Definition Blob (blob : string) : Config := {| Source_ := SourceBlob blob |}.

(** [IsInvalidKeyError]. A [RunError] whose [Err] is the nil pointer makes
    [err.Err.Sys()] panic. *)
Definition IsInvalidKeyError (err : error) : Res bool :=
  match err with
  | RunError _ (Some e) =>
      match Sys e with
      | SysWaitStatus waitStatus => Ret (ExitStatus waitStatus =? 1)
      | SysOther => Ret false
      end
  | RunError _ None => Panic "invalid memory address or nil pointer dereference"
  | _ => Ret false
  end.

(** [LoadError.OfField]. *)
Definition OfField (m : LoadError) (name : string) : error :=
  match m with
  | NilMap => nil_error
  | MkMap m => default nil_error (m !! name)
  end.

(** [LoadError.Any]. *)
Definition Any (m : LoadError) : LoadError :=
  if (LoadError_len m =? 0)%nat then NilMap else m.

(** The argument list [get] builds. *)
Definition getArgs (c : Config) (key : string) (extraArgs : list string)
  : list string :=
  ((["config"; "--get-all"; "--null"] ++ Source_ c) ++ extraArgs) ++ [key].

Section WithGit.

Variable git : Git.

(** [exec.Command("git", args...)] followed by [cmd.Output()]. *)
Definition Output (args : list string) : M CmdResult := fun w =>
  (Ret (git (trace w) args),
   {| trace := trace w ++ [args]; heap := heap w |}).

(** [Config.get]. *)
Definition get (c : Config) (key : string) (extraArgs : list string)
  : M (list string * error) :=
  r ← Output (getArgs c key extraArgs);
  match r with
  | ExitNonZero exitError _ stderr =>
      mret ([], RunError (TrimRight stderr newline) (Some exitError))
  | NotRun descr => mret ([], execError descr)
  | Exit0 out =>
      let ss := Split out NUL in
      mret (take (length ss - 1) ss, nil_error)
  end.

(** [Config.GetString]. Indexing an empty slice panics. *)
Definition GetString (c : Config) (key : string) : M (string * error) :=
  '(values, err) ← get c key [];
  if negb (is_nil err) then mret ("", err)
  else match last values with
       | Some s => mret (s, nil_error)
       | None => panic "index out of range [-1]"
       end.

(** [Config.GetStrings]. *)
Definition GetStrings (c : Config) (key : string)
  : M (list string * error) :=
  get c key [].

(** [Config.GetPath]. *)
Definition GetPath (c : Config) (key : string) : M (string * error) :=
  '(values, err) ← get c key ["--path"];
  if negb (is_nil err) then mret ("", err)
  else match last values with
       | Some s => mret (s, nil_error)
       | None => panic "index out of range [-1]"
       end.

(** [Config.GetPaths]. *)
Definition GetPaths (c : Config) (key : string)
  : M (list string * error) :=
  get c key ["--path"].

(** [Config.GetBool]. *)
Definition GetBool (c : Config) (key : string) : M (bool * error) :=
  '(values, err) ← get c key ["--bool"];
  if negb (is_nil err) then mret (false, err)
  else match values !! 0%nat with
       | Some s => mret (String.eqb s "true", nil_error)
       | None => panic "index out of range [0] with length 0"
       end.

(** [Config.GetInt64]. *)
Definition GetInt64 (c : Config) (key : string) : M (Z * error) :=
  '(values, err) ← get c key ["--int"];
  if negb (is_nil err) then mret (0, err)
  else match values !! 0%nat with
       | Some s => mret (ParseInt s)
       | None => panic "index out of range [0] with length 0"
       end.

(** [StructTag.Get]: the value of the first pair under [key], or the empty
    string. *)
Fixpoint Tag_Get (tag : StructTag) (key : string) : string :=
  match tag with
  | [] => ""
  | (k, v) :: rest => if String.eqb k key then v else Tag_Get rest key
  end.

(** [Value.CanSet] of a field of an addressable struct: the field is
    exported, that is, its [PkgPath] is empty. *)
Definition CanSet (ft : StructField) : bool := String.eqb (PkgPath ft) "".

(** [Type.NumField] and [Type.Field] of a struct type. *)
Definition fieldsOf (t : rtype) : list StructField :=
  match underlying t with
  | TStruct fields => fields
  | _ => []
  end.

(** [Value.Len] of an array and [Type.Elem]. *)
Definition Len (t : rtype) : nat :=
  match underlying t with
  | TArray n _ => n
  | _ => 0%nat
  end.

Definition Elem (t : rtype) : rtype :=
  match underlying t with
  | TArray _ e | TSlice e | TPtr e | TChan e | TMap _ e => e
  | _ => t
  end.

(** Writing field [i] of a struct and slot [j] of an array. *)
Definition setField (i : nat) (f : value -> value) (obj : value) : value :=
  match obj with
  | VStruct vs => VStruct (alter f i vs)
  | _ => obj
  end.

Definition setElem (j : nat) (v : value) (arr : value) : value :=
  match arr with
  | VArray es => VArray (<[j := v]> es)
  | _ => arr
  end.

Definition store (l : loc) (f : value -> value) : M unit := fun w =>
  (Ret tt, {| trace := trace w; heap := alter f l (heap w) |}).

(** The setters of [reflect.Value], for the value [fv] that is field [i]
    (of type [t]) of the struct at [l]. Each panics on a value of the wrong
    kind. *)
Definition SetString (l : loc) (i : nat) (t : rtype) (s : string) : M unit :=
  match kindOf t with
  | String_ => store l (setField i (fun _ => VString s))
  | _ => panic "reflect: call of reflect.Value.SetString on non-string Value"
  end.

Definition SetBool (l : loc) (i : nat) (t : rtype) (b : bool) : M unit :=
  match kindOf t with
  | Bool => store l (setField i (fun _ => VBool b))
  | _ => panic "reflect: call of reflect.Value.SetBool on non-bool Value"
  end.

(** [SetInt] narrows to the width of the field; [int] has 64 bits. *)
Definition SetInt (l : loc) (i : nat) (t : rtype) (x : Z) : M unit :=
  match kindOf t with
  | Int => store l (setField i (fun _ => VInt (wrapInt 64 x)))
  | Int8 => store l (setField i (fun _ => VInt (wrapInt 8 x)))
  | Int16 => store l (setField i (fun _ => VInt (wrapInt 16 x)))
  | Int32 => store l (setField i (fun _ => VInt (wrapInt 32 x)))
  | Int64 => store l (setField i (fun _ => VInt (wrapInt 64 x)))
  | _ => panic "reflect: call of reflect.Value.SetInt on non-int Value"
  end.

(** [fv.Set(ssr)] for a [ssr] of type [[]string]: the field's type has to
    be [[]string] or a defined type with that underlying type. *)
Definition SetStrings (l : loc) (i : nat) (t : rtype) (ssr : list value)
  : M unit :=
  match underlying t with
  | TSlice TString => store l (setField i (fun _ => VSlice ssr))
  | _ => panic "reflect.Set: value of type []string is not assignable"
  end.

(** [fv.Index(j).SetString(s)] on an array [fv]. *)
Definition Index_SetString (l : loc) (i : nat) (t : rtype) (j : nat)
    (s : string) : M unit :=
  match kindOf (Elem t) with
  | String_ => store l (setField i (setElem j (VString s)))
  | _ => panic "reflect: call of reflect.Value.SetString on non-string Value"
  end.

(** [for i := 0; i < fv.Len() && i < len(ss); i++ {
       fv.Index(i).SetString(ss[i]) }], from index [j] on, [ss] being
    what is left of the result. *)
Fixpoint fillArray (l : loc) (i : nat) (t : rtype) (j : nat)
    (ss : list string) : M unit :=
  match ss with
  | [] => mret tt
  | s :: rest =>
      if (j <? Len t)%nat
      then Index_SetString l i t j s;; fillArray l i t (S j) rest
      else mret tt
  end.

(** The body of the loop of [Config.Load] for field [i]; [errs] is the
    map that [errs[ft.Name] = err] writes to. *)
Definition loadField (c : Config) (l : loc) (i : nat) (ft : StructField)
    (errs : gmap string error) : M (gmap string error) :=
  if negb (CanSet ft) then mret errs
  else
    let tag := Tag_Get (Tag ft) "gitconfig" in
    if String.eqb tag "" then mret errs
    else
      match Split tag comma !! 0%nat with
      | None => panic "index out of range [0] with length 0"
      | Some key =>
          match kindOf (Type_ ft) with
          | String_ =>
              '(s, err) ← GetString c key;
              if negb (is_nil err) then mret (<[Name ft := err]> errs)
              else SetString l i (Type_ ft) s;; mret errs
          | Int | Int8 | Int16 | Int32 | Int64 =>
              '(n, err) ← GetInt64 c key;
              if negb (is_nil err) then mret (<[Name ft := err]> errs)
              else SetInt l i (Type_ ft) n;; mret errs
          | Slice =>
              '(ss, err) ← GetStrings c key;
              if negb (is_nil err) then mret (<[Name ft := err]> errs)
              else SetStrings l i (Type_ ft) (VString <$> ss);; mret errs
          | Array =>
              '(ss, err) ← GetStrings c key;
              if negb (is_nil err) then mret (<[Name ft := err]> errs)
              else fillArray l i (Type_ ft) 0 ss;; mret errs
          | Bool =>
              '(b, err) ← GetBool c key;
              if negb (is_nil err) then mret (<[Name ft := err]> errs)
              else SetBool l i (Type_ ft) b;; mret errs
          | _ =>
              mret (<[Name ft :=
                        fmtError "cannot populate field %q of type %s"
                          [ArgString (Name ft); ArgTypeString (Type_ ft)]]>
                      errs)
          end
      end.

(** [for i := 0; i < t.NumField(); i++ { ... }], from field [i] on,
    [fts] being the fields from [i] on. *)
Fixpoint loadFields (c : Config) (l : loc) (i : nat)
    (fts : list StructField) (errs : gmap string error)
  : M (gmap string error) :=
  match fts with
  | [] => mret errs
  | ft :: rest =>
      errs' ← loadField c l i ft errs;
      loadFields c l (S i) rest errs'
  end.

(** [Config.Load]. [rv.Elem()] of a nil pointer is the zero [Value], of
    kind [Invalid]. The value returned is of the interface type [error]:
    what [errs.Any()] gives, a [LoadError], is wrapped into it. *)
Definition Load (c : Config) (v : iface) : M error :=
  match v with
  | nil_iface => mret (fmtError "not a pointer: %v" [ArgValue v])
  | Iface t x =>
      match kindOf t with
      | Ptr =>
          match x, kindOf (Elem t) with
          | VPtr (Some l), Struct =>
              errs ← loadFields c l 0 (fieldsOf (Elem t)) ∅;
              mret (LoadError_ (Any (MkMap errs)))
          | _, _ =>
              mret (fmtError "not a pointer to a struct: %v" [ArgValue v])
          end
      | _ => mret (fmtError "not a pointer: %v" [ArgValue v])
      end
  end.

End WithGit.

(** ** Vocabulary of the statements *)

(** A field [Load] manages: it can be set and carries a [gitconfig] tag. *)
Definition managed (ft : StructField) : bool :=
  CanSet ft && negb (String.eqb (Tag_Get (Tag ft) "gitconfig") "").

(** The lookup key of a field: what precedes the first comma of its tag. *)
Definition keyOf (ft : StructField) : string :=
  default "" (Split (Tag_Get (Tag ft) "gitconfig") comma !! 0%nat).

(** The accessor the switch of [Load] calls for a field of kind [k], with
    only its error kept; [None] for the kinds of the [default] branch. *)
Definition accessorErr (git : Git) (c : Config) (k : Kind) (key : string)
  : option (M error) :=
  match k with
  | String_ => Some ('(_, err) ← GetString git c key; mret err)
  | Int | Int8 | Int16 | Int32 | Int64 =>
      Some ('(_, err) ← GetInt64 git c key; mret err)
  | Slice | Array => Some ('(_, err) ← GetStrings git c key; mret err)
  | Bool => Some ('(_, err) ← GetBool git c key; mret err)
  | _ => None
  end.

(** The command that accessor runs. *)
Definition queryOf (c : Config) (k : Kind) (key : string)
  : option (list string) :=
  match k with
  | String_ | Slice | Array => Some (getArgs c key [])
  | Int | Int8 | Int16 | Int32 | Int64 => Some (getArgs c key ["--int"])
  | Bool => Some (getArgs c key ["--bool"])
  | _ => None
  end.

(** The command [Load] runs for a field, if it runs one. *)
Definition fieldQuery (c : Config) (ft : StructField)
  : option (list string) :=
  if managed ft then queryOf c (kindOf (Type_ ft)) (keyOf ft) else None.

(** In the world [w], the managed field [ft] fails with [err], leaving the
    world [w1]: its accessor returns the non-nil [err], or its kind is one
    the switch does not know. *)
Definition fieldFails (git : Git) (c : Config) (ft : StructField)
    (w : World) (err : error) (w1 : World) : Prop :=
  managed ft = true /\
  match accessorErr git c (kindOf (Type_ ft)) (keyOf ft) with
  | Some m => m w = (Ret err, w1) /\ is_nil err = false
  | None =>
      err = fmtError "cannot populate field %q of type %s"
              [ArgString (Name ft); ArgTypeString (Type_ ft)] /\
      w1 = w
  end.

(** In the world [w], the accessor of the managed field [ft] returns
    without an error. *)
Definition fieldSucceeds (git : Git) (c : Config) (ft : StructField)
    (w : World) : Prop :=
  managed ft = true /\
  exists m w1,
    accessorErr git c (kindOf (Type_ ft)) (keyOf ft) = Some m /\
    m w = (Ret nil_error, w1).

(** Field [j] of the struct at [l]. *)
Definition fieldAt (h : gmap loc value) (l : loc) (j : nat) : option value :=
  match h !! l with
  | Some (VStruct vs) => vs !! j
  | _ => None
  end.

(** What [git config --get-all --null] prints for the values [vs] of a
    key: each value followed by a NUL byte. *)
Fixpoint gitOutput (vs : list string) : string :=
  match vs with
  | [] => ""
  | v :: rest => v ++ String NUL (gitOutput rest)
  end.

(** The number of bytes [c] in [s]. *)
Fixpoint countByte (c : ascii) (s : string) : nat :=
  match s with
  | EmptyString => 0%nat
  | String d rest => ((if Ascii.eqb d c then 1 else 0) + countByte c rest)%nat
  end.

(** The world after one more run, of the command [args]. *)
Definition ran (w : World) (args : list string) : World :=
  {| trace := trace w ++ [args]; heap := heap w |}.

(** ** Sample worlds *)

(** Exit statuses 1 and 128 as status words. *)
Definition exit1 : ExitError := mkExitError (SysWaitStatus 256).
Definition exit128 : ExitError := mkExitError (SysWaitStatus 32768).

(** The repository that [TestMain] of [gitconfig_test.go] sets up, as the
    default source sees it. *)
Definition testStore (key : string) : list string :=
  if String.eqb key "user.email"
  then ["global@example.com"; "local@example.com"]
  else if String.eqb key "merge.ff" then ["false"]
  else if String.eqb key "pull.rebase" then ["true"]
  else if String.eqb key "gc.auto" then ["6700"]
  else if String.eqb key "ghq.root" then ["~/dev"; "~/go/src"]
  else if String.eqb key "remote.origin.url" then ["git@example.com:repo.git"]
  else [].

Definition gitTest : Git := fun _ args =>
  match last args with
  | None => NotRun "no arguments"
  | Some key =>
      match testStore key with
      | [] => ExitNonZero exit1 "" ""
      | vs => Exit0 (gitOutput vs)
      end
  end.

(** A [git] that exits with status 0 and prints nothing. *)
Definition gitSilent : Git := fun _ _ => Exit0 "".

(** A [git] that prints one value, a number just above the largest
    [int64]. *)
Definition gitHuge : Git := fun _ _ =>
  Exit0 (gitOutput ["9223372036854775808"]).

(** A [git] that prints one value, twenty digits and a letter. *)
Definition gitTrailing : Git := fun _ _ =>
  Exit0 (gitOutput ["99999999999999999999z"]).

(** A [git] that cannot be started. *)
Definition gitMissing : Git := fun _ _ =>
  NotRun "exec: git: executable file not found in $PATH".

Definition gitconfigTag (key : string) : StructTag := [("gitconfig", key)].

(** The struct of [TestLoad]. *)
Definition testStruct : rtype :=
  TNamed "s"
    (TStruct
       [mkStructField "UserEmail" "" TString (gitconfigTag "user.email");
        mkStructField "GCAuto" "" TInt (gitconfigTag "gc.auto");
        mkStructField "PullRebase" "" TBool (gitconfigTag "pull.rebase");
        mkStructField "GhqRoots" "" (TSlice TString)
          (gitconfigTag "ghq.root")]).

Definition testZero : value :=
  VStruct [VString ""; VInt 0; VBool false; VSlice []].

(** A world in which nothing has run yet and address 0 holds [obj]. *)
Definition worldWith (obj : value) : World :=
  {| trace := []; heap := {[ 0%nat := obj ]} |}.

Definition pointerTo (t : rtype) : iface := Iface (TPtr t) (VPtr (Some 0%nat)).

(** A struct whose first field is a slice of integers:
    [struct { Counts []int `gitconfig:"ghq.root"`;
              UserEmail string `gitconfig:"user.email"` }]. *)
Definition intsStruct : rtype :=
  TStruct
    [mkStructField "Counts" "" (TSlice TInt) (gitconfigTag "ghq.root");
     mkStructField "UserEmail" "" TString (gitconfigTag "user.email")].

Definition intsZero : value := VStruct [VSlice []; VString ""].

(** The arguments that are not a pointer to a struct: the nil interface,
    a value that is not a pointer, a pointer to something that is not a
    struct, and the nil pointer. *)
Definition notStructPointer (v : iface) : Prop :=
  match v with
  | nil_iface => True
  | Iface t x =>
      kindOf t <> Ptr \/ kindOf (Elem t) <> Struct \/ x = VPtr None
  end.

(** The heap [h'] differs from [h] at most in field [i] of the struct at
    [l]. *)
Definition onlyField (l : loc) (i : nat) (h h' : gmap loc value) : Prop :=
  (forall l', l' <> l -> h' !! l' = h !! l') /\
  (forall j, j <> i -> fieldAt h' l j = fieldAt h l j).

(** The slots of an array after the loop that fills it from index [j] on
    with the strings [ss]. *)
Definition filled (es : list value) (j : nat) (ss : list string)
  : list value :=
  take j es ++ (VString <$> take (length es - j) ss) ++
  drop (j + length ss) es.

(** A struct with one field, an array of three strings:
    [struct { Roots [3]string `gitconfig:"ghq.root"` }]. *)
Definition arrayField : StructField :=
  mkStructField "Roots" "" (TArray 3 TString) (gitconfigTag "ghq.root").

Definition arrayStruct : rtype := TStruct [arrayField].

Definition arrayZero : value :=
  VStruct [VArray [VString ""; VString ""; VString ""]].

(** The struct of [TestLoad] with two more fields in front: one tagged
    with a key that is absent, one of a kind [Load] does not populate.
    [struct { Missing string `gitconfig:"no.such"`;
              Ratio float64 `gitconfig:"gc.auto"`;
              hidden string `gitconfig:"user.email"`;
              Plain string;
              UserEmail string `gitconfig:"user.email"` }]. *)
Definition missingField : StructField :=
  mkStructField "Missing" "" TString (gitconfigTag "no.such").

Definition ratioField : StructField :=
  mkStructField "Ratio" "" TFloat64 (gitconfigTag "gc.auto").

Definition mixedRest : list StructField :=
  [mkStructField "hidden" "gitconfig" TString (gitconfigTag "user.email");
   mkStructField "Plain" "" TString [];
   mkStructField "UserEmail" "" TString (gitconfigTag "user.email")].

Definition mixedStruct : rtype :=
  TStruct (missingField :: ratioField :: mixedRest).

Definition mixedValue : value :=
  VStruct [VString "m"; VOpaque; VString "h"; VString "p"; VString "u"].

(** A struct in which a field tagged with an absent key comes before a
    slice of integers and a string:
    [struct { Missing string `gitconfig:"no.such"`;
              Counts []int `gitconfig:"ghq.root"`;
              UserEmail string `gitconfig:"user.email"` }]. *)
Definition countsField : StructField :=
  mkStructField "Counts" "" (TSlice TInt) (gitconfigTag "ghq.root").

Definition emailField : StructField :=
  mkStructField "UserEmail" "" TString (gitconfigTag "user.email").

Definition blockedStruct : rtype :=
  TStruct [missingField; countsField; emailField].

Definition blockedValue : value :=
  VStruct [VString "m"; VSlice []; VString "u"].

(** A [git] that exits with status 1 for the key [no.such] and, for any
    other key, exits with status 0 and prints nothing. *)
Definition gitSilentButOne : Git := fun _ args =>
  match last args with
  | Some key =>
      if String.eqb key "no.such" then ExitNonZero exit1 "" "" else Exit0 ""
  | None => NotRun "no arguments"
  end.

(** [struct { Missing string `gitconfig:"no.such"`;
              UserEmail string `gitconfig:"user.email"` }]. *)
Definition twoStrings : rtype := TStruct [missingField; emailField].

Definition twoStringsValue : value := VStruct [VString "m"; VString "u"].

(** ** Vocabulary of the further properties *)

(** Every byte of [s] belongs to [cutset]. *)
Fixpoint allIn (cutset : string) (s : string) : bool :=
  match s with
  | EmptyString => true
  | String c rest => inCutset c cutset && allIn cutset rest
  end.

(** The last byte of [s]. *)
Fixpoint lastByte (s : string) : option ascii :=
  match s with
  | EmptyString => None
  | String c EmptyString => Some c
  | String _ rest => lastByte rest
  end.

(** [s] is made of decimal digits. *)
Fixpoint isDigits (s : string) : bool :=
  match s with
  | EmptyString => true
  | String c rest =>
      (48 <=? byteOf c) && (byteOf c <=? 57) && isDigits rest
  end.

(** The number that the digits [s] write after the number [n]. *)
Fixpoint decimalFrom (s : string) (n : Z) : Z :=
  match s with
  | EmptyString => n
  | String c rest => decimalFrom rest (n * 10 + (byteOf c - 48))
  end.

Definition decimalValue (s : string) : Z := decimalFrom s 0.

(** The decimal digits [s] starts with. *)
Fixpoint leadingDigits (s : string) : string :=
  match s with
  | EmptyString => EmptyString
  | String c rest =>
      if (48 <=? byteOf c) && (byteOf c <=? 57)
      then String c (leadingDigits rest)
      else EmptyString
  end.

(** [s] starts with a minus sign. *)
Definition negative (s : string) : bool :=
  match s with
  | String c _ => Ascii.eqb c "-"
  | EmptyString => false
  end.

(** [s] without its sign, if it starts with one. *)
Definition unsigned (s : string) : string :=
  match s with
  | String c rest => if Ascii.eqb c "+" || Ascii.eqb c "-" then rest else s
  | EmptyString => s
  end.

(** The strings out of range for an [int64]: after the sign, the leading
    digits write a number above [2^64-1], or there are only digits and
    the number, with its sign, is not an [int64]. *)
Definition outOfRange (s : string) : bool :=
  let ds := unsigned s in
  let v := decimalValue (leadingDigits ds) in
  (maxUint64 <? v) ||
  (String.eqb (leadingDigits ds) ds &&
   (if negative s then 2 ^ 63 <? v else 2 ^ 63 <=? v)).

(** The bound of [int64] on the side of the sign of [s]. *)
Definition int64Bound (s : string) : Z :=
  if negative s then - 2 ^ 63 else 2 ^ 63 - 1.

(** The width of the signed integer kinds; [int] has 64 bits. *)
Definition intBits (k : Kind) : option Z :=
  match k with
  | Int | Int64 => Some 64
  | Int8 => Some 8
  | Int16 => Some 16
  | Int32 => Some 32
  | _ => None
  end.

(** The hints [Load] passes to [git config]. *)
Definition loadHints : list (list string) := [[]; ["--int"]; ["--bool"]].

(** A [git] that prints at least one entry whenever it exits with
    status 0, as [git config --get-all] does. *)
Definition printsAnEntry (git : Git) : Prop :=
  forall (history : list (list string)) (args : list string) (out : string),
    git history args = Exit0 out -> (0 < countByte NUL out)%nat.

(** A field whose type, if it is a slice or an array, is one of strings:
    [[]string], a defined type over it, or an array whose elements are
    of kind string. *)
Definition stringTyped (ft : StructField) : Prop :=
  match kindOf (Type_ ft) with
  | Slice => underlying (Type_ ft) = TSlice TString
  | Array => kindOf (Elem (Type_ ft)) = String_
  | _ => True
  end.

(** The value that [Load] is to leave in the field [ft], which held
    [old], when the accessor of the field returns without an error in
    the world [w]: the last value for a string, the first value narrowed
    to the width of the field for an integer, whether the first value is
    [true] for a boolean, all the values for a slice, and for an array
    the values in its first slots and what it held in the others.
    [None] when the accessor returns an error or faults, and for the
    kinds that have no accessor. *)
Definition loadedValue (git : Git) (c : Config) (ft : StructField)
    (w : World) (old : value) : option value :=
  match kindOf (Type_ ft) with
  | String_ =>
      match GetString git c (keyOf ft) w with
      | (Ret (s, nil_error), _) => Some (VString s)
      | _ => None
      end
  | Int | Int8 | Int16 | Int32 | Int64 =>
      match GetInt64 git c (keyOf ft) w, intBits (kindOf (Type_ ft)) with
      | (Ret (n, nil_error), _), Some bits => Some (VInt (wrapInt bits n))
      | _, _ => None
      end
  | Bool =>
      match GetBool git c (keyOf ft) w with
      | (Ret (b, nil_error), _) => Some (VBool b)
      | _ => None
      end
  | Slice =>
      match GetStrings git c (keyOf ft) w with
      | (Ret (ss, nil_error), _) => Some (VSlice (VString <$> ss))
      | _ => None
      end
  | Array =>
      match GetStrings git c (keyOf ft) w, old with
      | (Ret (ss, nil_error), _), VArray es => Some (VArray (filled es 0 ss))
      | _, _ => None
      end
  | _ => None
  end.

(** The value [v] is one the field [ft] can hold, as far as [Load]
    depends on it: the value of an array field is an array with as many
    slots as the type of the field says. *)
Definition fitsField (ft : StructField) (v : value) : Prop :=
  kindOf (Type_ ft) = Array ->
  exists es, v = VArray es /\ length es = Len (Type_ ft).

(** The parts of a [*strconv.NumError], if [e] is one. *)
Definition numErrorOf (e : error) : option (string * string * NumErr) :=
  match e with
  | NumError f num k => Some (f, num, k)
  | _ => None
  end.

(** ** [package loadgitconfig]

    The package of [loadgitconfig.go]: the same reader and loader with
    another treatment of failures. [get] discards the standard error of
    [git], turns exit status 1 into an [ErrInvalidKey] and returns any
    other exit error as it is; [Load] returns the first error it meets. *)
Module loadgitconfig.

(** What [cmd.Output()] reports with [cmd.Stderr] set to
    [ioutil.Discard]; whatever the outcome, [out] is what the process
    wrote to its standard output. *)
Inductive CmdResult : Type :=
| Exit0 (out : string)
| ExitNonZero (e : ExitError) (out : string)
| Failed (out : string) (descr : string).
    (* an error that is no *exec.ExitError *)

Definition Git : Type := list (list string) -> list string -> CmdResult.

(** The values of the interface type [error] that occur in this
    package. *)
Inductive error : Type :=
| nil_error
| ErrInvalidKey (key : string)
| exitError (e : ExitError)
| NumError (Func_ : string) (Num : string) (Err : NumErr)
| errorString (s : string).

Definition is_nil (e : error) : bool :=
  match e with
  | nil_error => true
  | _ => false
  end.

Record Config : Type := mkConfig {
  Source_ : Source;
  CmdArgs : list string   (* extra arguments to "git config" *)
}.

Definition getArgs (c : Config) (key : string) (extraArgs : list string)
  : list string :=
  ((["config"; "--get-all"; "--null"] ++ Source_ c) ++ extraArgs) ++ [key].

Section WithGit.

Variable git : Git.

Definition Output (args : list string) : M CmdResult := fun w =>
  (Ret (git (trace w) args),
   {| trace := trace w ++ [args]; heap := heap w |}).

(** [Config.get]. An error that is not an exit error is not looked at:
    the output is split as after a success. *)
Definition get (c : Config) (key : string) (extraArgs : list string)
  : M (list string * error) :=
  r ← Output (getArgs c key extraArgs);
  match r with
  | ExitNonZero exitErr _ =>
      match Sys exitErr with
      | SysWaitStatus waitStatus =>
          if ExitStatus waitStatus =? 1 then mret ([], ErrInvalidKey key)
          else mret ([], exitError exitErr)
      | SysOther => mret ([], exitError exitErr)
      end
  | Exit0 out | Failed out _ =>
      let ss := Split out NUL in
      mret (take (length ss - 1) ss, nil_error)
  end.

(** [Config.GetString]. *)
Definition GetString (c : Config) (key : string) : M (string * error) :=
  '(values, err) ← get c key [];
  if negb (is_nil err) then mret ("", err)
  else match last values with
       | Some s => mret (s, nil_error)
       | None => panic "index out of range [-1]"
       end.

(** [Config.GetStrings]. *)
Definition GetStrings (c : Config) (key : string)
  : M (list string * error) :=
  get c key [].

(** [Config.GetBool]. *)
Definition GetBool (c : Config) (key : string) : M (bool * error) :=
  '(values, err) ← get c key ["--bool"];
  if negb (is_nil err) then mret (false, err)
  else match values !! 0%nat with
       | Some s => mret (String.eqb s "true", nil_error)
       | None => panic "index out of range [0] with length 0"
       end.

(** [Config.GetInt64]; the error of [strconv.ParseInt] is nil or a
    [*strconv.NumError]. *)
Definition GetInt64 (c : Config) (key : string) : M (Z * error) :=
  '(values, err) ← get c key ["--int"];
  if negb (is_nil err) then mret (0, err)
  else match values !! 0%nat with
       | Some s =>
           mret (fst (ParseInt s),
                 match numErrorOf (snd (ParseInt s)) with
                 | Some (f, num, k) => NumError f num k
                 | None => nil_error
                 end)
       | None => panic "index out of range [0] with length 0"
       end.

(** The body of the loop of [Config.Load] for field [i]. It gives the
    error that [Load] returns at once, or nil when the loop goes on. The
    switch has no default case. The loop over an array,
    [for i := 0; i < fv.Len(); i++ { if i >= len(ss) { break }; ... }],
    is [fillArray]. *)
Definition loadField (c : Config) (l : loc) (i : nat) (ft : StructField)
  : M error :=
  if negb (CanSet ft) then mret nil_error
  else
    let tag := Tag_Get (Tag ft) "gitconfig" in
    if String.eqb tag "" then mret nil_error
    else
      match Split tag comma !! 0%nat with
      | None => panic "index out of range [0] with length 0"
      | Some key =>
          match kindOf (Type_ ft) with
          | String_ =>
              '(s, err) ← GetString c key;
              if negb (is_nil err) then mret err
              else SetString l i (Type_ ft) s;; mret nil_error
          | Int | Int8 | Int16 | Int32 | Int64 =>
              '(n, err) ← GetInt64 c key;
              if negb (is_nil err) then mret err
              else SetInt l i (Type_ ft) n;; mret nil_error
          | Slice =>
              '(ss, err) ← GetStrings c key;
              if negb (is_nil err) then mret err
              else SetStrings l i (Type_ ft) (VString <$> ss);;
                   mret nil_error
          | Array =>
              '(ss, err) ← GetStrings c key;
              if negb (is_nil err) then mret err
              else fillArray l i (Type_ ft) 0 ss;; mret nil_error
          | Bool =>
              '(b, err) ← GetBool c key;
              if negb (is_nil err) then mret err
              else SetBool l i (Type_ ft) b;; mret nil_error
          | _ => mret nil_error
          end
      end.

(** The loop, from field [i] on: it returns the first error. *)
Fixpoint loadFields (c : Config) (l : loc) (i : nat)
    (fts : list StructField) : M error :=
  match fts with
  | [] => mret nil_error
  | ft :: rest =>
      err ← loadField c l i ft;
      if negb (is_nil err) then mret err
      else loadFields c l (S i) rest
  end.

(** [Config.Load]. *)
Definition Load (c : Config) (v : iface) : M error :=
  match v with
  | nil_iface => mret (errorString "not a pointer")
  | Iface t x =>
      match kindOf t with
      | Ptr =>
          match x, kindOf (Elem t) with
          | VPtr (Some l), Struct => loadFields c l 0 (fieldsOf (Elem t))
          | _, _ => mret (errorString "not a pointer to a struct")
          end
      | _ => mret (errorString "not a pointer")
      end
  end.

End WithGit.

(** The command [Load] runs for a field, if it runs one. *)
Definition fieldQuery (c : Config) (ft : StructField)
  : option (list string) :=
  if managed ft then
    match kindOf (Type_ ft) with
    | String_ | Slice | Array => Some (getArgs c (keyOf ft) [])
    | Int | Int8 | Int16 | Int32 | Int64 =>
        Some (getArgs c (keyOf ft) ["--int"])
    | Bool => Some (getArgs c (keyOf ft) ["--bool"])
    | _ => None
    end
  else None.

(** The repository of the tests, seen through this package. *)
Definition gitTest : Git := fun _ args =>
  match last args with
  | None => Failed "" "no arguments"
  | Some key =>
      match testStore key with
      | [] => ExitNonZero exit1 ""
      | vs => Exit0 (gitOutput vs)
      end
  end.

(** A [git] that cannot be started. *)
Definition gitMissing : Git := fun _ _ =>
  Failed "" "exec: git: executable file not found in $PATH".

Definition Default : Config := {| Source_ := []; CmdArgs := [] |}.

End loadgitconfig.

(** * Properties *)

(** ** The monad *)

Lemma bind_Ret {A B : Type} (m : M A) (f : A -> M B) (w w' : World) (a : A) :
  m w = (Ret a, w') -> (m ≫= f) w = f a w'.
Proof. intros H. unfold mbind, M_bind. now rewrite H. Qed.

Lemma bind_Panic {A B : Type} (m : M A) (f : A -> M B) (w w' : World)
    (msg : string) :
  m w = (Panic msg, w') -> (m ≫= f) w = (Panic msg, w').
Proof. intros H. unfold mbind, M_bind. now rewrite H. Qed.

Lemma bind_inv {A B : Type} (m : M A) (f : A -> M B) (w w' : World)
    (r : Res B) :
  (m ≫= f) w = (r, w') ->
  (exists a w1, m w = (Ret a, w1) /\ f a w1 = (r, w')) \/
  (exists msg, m w = (Panic msg, w') /\ r = Panic msg).
Proof.
  unfold mbind, M_bind. destruct (m w) as [[a|msg] w1]; intros H.
  - left. eauto.
  - right. inversion H; subst. eauto.
Qed.

(** ** [strings.Split] *)

Lemma Split_length (s : string) (sep : ascii) :
  length (Split s sep) = S (countByte sep s).
Proof.
  induction s as [|c s IH]; simpl; [reflexivity|].
  destruct (Ascii.eqb c sep); simpl.
  - now rewrite IH.
  - destruct (Split s sep); simpl in *; lia.
Qed.

Lemma Split_cons (s : string) (sep : ascii) :
  exists piece pieces, Split s sep = piece :: pieces.
Proof.
  pose proof (Split_length s sep) as H.
  destruct (Split s sep); simpl in H; [lia | eauto].
Qed.

Lemma Split_app_sep (v rest : string) (sep : ascii) :
  countByte sep v = 0%nat ->
  Split (v ++ String sep rest) sep = v :: Split rest sep.
Proof.
  induction v as [|c v IH]; simpl; intros H.
  - now rewrite Ascii.eqb_refl.
  - destruct (Ascii.eqb c sep); [discriminate|].
    now rewrite IH.
Qed.

Lemma Split_gitOutput (vs : list string) :
  Forall (fun v => countByte NUL v = 0%nat) vs ->
  Split (gitOutput vs) NUL = vs ++ [""].
Proof.
  induction 1 as [|v vs Hv _ IH]; simpl; [reflexivity|].
  now rewrite Split_app_sep, IH.
Qed.

(** ** [Config.get] *)

Lemma get_eq (git : Git) (c : Config) (key : string) (extra : list string)
    (w : World) :
  get git c key extra w =
    (Ret match git (trace w) (getArgs c key extra) with
         | Exit0 out =>
             (take (length (Split out NUL) - 1) (Split out NUL), nil_error)
         | ExitNonZero e _ stderr =>
             ([], RunError (TrimRight stderr newline) (Some e))
         | NotRun descr => ([], execError descr)
         end,
     ran w (getArgs c key extra)).
Proof.
  unfold get, Output, mbind, M_bind, ran.
  destruct (git (trace w) (getArgs c key extra)); reflexivity.
Qed.

Lemma get_gitOutput (git : Git) (c : Config) (key : string)
    (extra : list string) (w : World) (vs : list string) :
  Forall (fun v => countByte NUL v = 0%nat) vs ->
  git (trace w) (getArgs c key extra) = Exit0 (gitOutput vs) ->
  get git c key extra w = (Ret (vs, nil_error), ran w (getArgs c key extra)).
Proof.
  intros Hvs Hgit. rewrite get_eq, Hgit, Split_gitOutput by assumption.
  rewrite length_app. simpl.
  replace (length vs + 1 - 1)%nat with (length vs) by lia.
  now rewrite take_app_length.
Qed.

Lemma get_failure_empty (git : Git) (c : Config) (key : string)
    (extra : list string) (w w' : World) (vs : list string) (err : error) :
  get git c key extra w = (Ret (vs, err), w') ->
  is_nil err = false -> vs = [].
Proof.
  rewrite get_eq. intros H Herr. inversion H as [[H1 H2]]. clear H.
  destruct (git (trace w) (getArgs c key extra)); inversion H1; subst;
    [discriminate | reflexivity | reflexivity].
Qed.

(** ** The typed accessors *)

Lemma GetString_of_get (git : Git) (c : Config) (key : string)
    (w w' : World) (values : list string) (err : error) :
  get git c key [] w = (Ret (values, err), w') ->
  GetString git c key w =
    if negb (is_nil err) then (Ret ("", err), w')
    else match last values with
         | Some s => (Ret (s, nil_error), w')
         | None => (Panic "index out of range [-1]", w')
         end.
Proof.
  intros H. unfold GetString. rewrite (bind_Ret _ _ _ _ _ H).
  destruct (is_nil err); simpl; [|reflexivity].
  destruct (last values); reflexivity.
Qed.

Lemma GetPath_of_get (git : Git) (c : Config) (key : string)
    (w w' : World) (values : list string) (err : error) :
  get git c key ["--path"] w = (Ret (values, err), w') ->
  GetPath git c key w =
    if negb (is_nil err) then (Ret ("", err), w')
    else match last values with
         | Some s => (Ret (s, nil_error), w')
         | None => (Panic "index out of range [-1]", w')
         end.
Proof.
  intros H. unfold GetPath. rewrite (bind_Ret _ _ _ _ _ H).
  destruct (is_nil err); simpl; [|reflexivity].
  destruct (last values); reflexivity.
Qed.

Lemma GetBool_of_get (git : Git) (c : Config) (key : string)
    (w w' : World) (values : list string) (err : error) :
  get git c key ["--bool"] w = (Ret (values, err), w') ->
  GetBool git c key w =
    if negb (is_nil err) then (Ret (false, err), w')
    else match values !! 0%nat with
         | Some s => (Ret (String.eqb s "true", nil_error), w')
         | None => (Panic "index out of range [0] with length 0", w')
         end.
Proof.
  intros H. unfold GetBool. rewrite (bind_Ret _ _ _ _ _ H).
  destruct (is_nil err); simpl; [|reflexivity].
  destruct (values !! 0%nat); reflexivity.
Qed.

Lemma GetInt64_of_get (git : Git) (c : Config) (key : string)
    (w w' : World) (values : list string) (err : error) :
  get git c key ["--int"] w = (Ret (values, err), w') ->
  GetInt64 git c key w =
    if negb (is_nil err) then (Ret (0, err), w')
    else match values !! 0%nat with
         | Some s => (Ret (ParseInt s), w')
         | None => (Panic "index out of range [0] with length 0", w')
         end.
Proof.
  intros H. unfold GetInt64. rewrite (bind_Ret _ _ _ _ _ H).
  destruct (is_nil err); simpl; [|reflexivity].
  destruct (values !! 0%nat); reflexivity.
Qed.

(** What [strconv.ParseInt] returns next to each error. *)
Lemma ParseInt_value (s : string) :
  match snd (ParseInt s) with
  | nil_error => True
  | NumError _ _ ErrRange =>
      fst (ParseInt s) = 2 ^ 63 - 1 \/ fst (ParseInt s) = - 2 ^ 63
  | _ => fst (ParseInt s) = 0
  end.
Proof.
  unfold ParseInt. destruct s as [|c s]; simpl; [reflexivity|].
  destruct (if Ascii.eqb c "+" then (false, s)
            else if Ascii.eqb c "-" then (true, s)
                 else (false, String c s)) as [neg s'].
  destruct (ParseUint s') as [un [[]|]];
    try reflexivity;
    destruct (negb neg && (2 ^ 63 <=? un)); simpl; auto;
    destruct (neg && (2 ^ 63 <? un)); simpl; auto.
Qed.

(** C5. When the store prints the values [vs] of a key (at least one, in
    its declaration order, each followed by a NUL byte), [GetStrings]
    returns exactly [vs], order and duplicates kept, and [GetString]
    returns the last element of [vs]. *)
Theorem GetStrings_order_GetString_last (git : Git) (c : Config)
    (key : string) (w : World) (vs : list string) (v : string) :
  Forall (fun s => countByte NUL s = 0%nat) vs ->
  last vs = Some v ->
  git (trace w) (getArgs c key []) = Exit0 (gitOutput vs) ->
  GetStrings git c key w = (Ret (vs, nil_error), ran w (getArgs c key [])) /\
  GetString git c key w = (Ret (v, nil_error), ran w (getArgs c key [])).
Proof.
  intros Hvs Hlast Hgit.
  pose proof (get_gitOutput git c key [] w vs Hvs Hgit) as Hget.
  split; [exact Hget|].
  rewrite (GetString_of_get _ _ _ _ _ _ _ Hget). simpl.
  now rewrite Hlast.
Qed.

Lemma GetStrings_order_GetString_last_witness :
  GetStrings gitTest Default "ghq.root" (worldWith testZero) =
    (Ret (["~/dev"; "~/go/src"], nil_error),
     ran (worldWith testZero) (getArgs Default "ghq.root" [])) /\
  GetString gitTest Default "ghq.root" (worldWith testZero) =
    (Ret ("~/go/src", nil_error),
     ran (worldWith testZero) (getArgs Default "ghq.root" [])).
Proof.
  apply (GetStrings_order_GetString_last gitTest Default "ghq.root"
           (worldWith testZero) ["~/dev"; "~/go/src"] "~/go/src").
  - repeat constructor.
  - reflexivity.
  - reflexivity.
Defined.

(** C6, as stated, fails: a [git] that exits with status 0 and prints
    nothing makes [get] succeed with an empty sequence. *)
Lemma get_success_can_be_empty :
  ~ (forall (git : Git) (c : Config) (key : string) (extra : list string)
       (w w' : World) (vs : list string),
       get git c key extra w = (Ret (vs, nil_error), w') -> vs <> []).
Proof.
  intros H.
  apply (H gitSilent Default "user.name" [] (worldWith testZero)
           (ran (worldWith testZero) (getArgs Default "user.name" [])) []);
    reflexivity.
Qed.

(** C6, amended. When the process exits with status 0 and its output
    holds at least one NUL byte, the sequence [get] returns is not empty
    and [GetString], [GetPath], [GetBool] and [GetInt64] return without a
    fault; an output with no NUL byte, that is with zero entries, comes
    back from [get] as a success with the empty sequence. *)
Theorem get_nonempty_when_output_has_NUL (git : Git) (c : Config)
    (key : string) (extra : list string) (w : World) (out : string) :
  git (trace w) (getArgs c key extra) = Exit0 out ->
  ((0 < countByte NUL out)%nat ->
   (exists v vs,
      get git c key extra w =
        (Ret (v :: vs, nil_error), ran w (getArgs c key extra))) /\
   (extra = [] -> exists s,
      GetString git c key w = (Ret (s, nil_error), ran w (getArgs c key []))) /\
   (extra = ["--path"] -> exists s,
      GetPath git c key w =
        (Ret (s, nil_error), ran w (getArgs c key ["--path"]))) /\
   (extra = ["--bool"] -> exists b,
      GetBool git c key w =
        (Ret (b, nil_error), ran w (getArgs c key ["--bool"]))) /\
   (extra = ["--int"] -> exists n err,
      GetInt64 git c key w =
        (Ret (n, err), ran w (getArgs c key ["--int"])))) /\
  (countByte NUL out = 0%nat ->
   get git c key extra w = (Ret ([], nil_error), ran w (getArgs c key extra))).
Proof.
  intros Hgit.
  pose proof (get_eq git c key extra w) as Hget. rewrite Hgit in Hget.
  pose proof (Split_length out NUL) as Hlen.
  split.
  - intros Hpos.
    destruct (Split out NUL) as [|v0 pieces] eqn:Hsplit; [simpl in Hlen; lia|].
    destruct (take (length (v0 :: pieces) - 1) (v0 :: pieces))
      as [|v vs] eqn:Htake.
    { apply (f_equal length) in Htake. rewrite length_take in Htake.
      simpl in Htake, Hlen. lia. }
    assert (exists s, last (v :: vs) = Some s) as [s Hs].
    { destruct (last (v :: vs)) eqn:E; [eauto|].
      apply last_None in E. discriminate. }
    split; [eauto|].
    repeat split; intros ->.
    + rewrite (GetString_of_get _ _ _ _ _ _ _ Hget). simpl.
      rewrite Hs. eauto.
    + rewrite (GetPath_of_get _ _ _ _ _ _ _ Hget). simpl.
      rewrite Hs. eauto.
    + rewrite (GetBool_of_get _ _ _ _ _ _ _ Hget). simpl. eauto.
    + rewrite (GetInt64_of_get _ _ _ _ _ _ _ Hget). simpl.
      destruct (ParseInt v) as [n err]. eauto.
  - intros Hzero. rewrite Hget. rewrite Hlen, Hzero. reflexivity.
Qed.

Lemma get_nonempty_when_output_has_NUL_witness :
  exists s,
    GetString gitTest Default "gc.auto" (worldWith testZero) =
      (Ret (s, nil_error),
       ran (worldWith testZero) (getArgs Default "gc.auto" [])).
Proof.
  destruct (get_nonempty_when_output_has_NUL gitTest Default "gc.auto" []
              (worldWith testZero) (gitOutput ["6700"]) eq_refl)
    as [Hpos _].
  destruct Hpos as (_ & Hstring & _).
  - vm_compute. lia.
  - apply Hstring. reflexivity.
Defined.

(** On that output the single-value accessors fault. *)
Lemma GetString_faults_on_empty_success :
  fst (GetString gitSilent Default "user.name" (worldWith testZero)) =
    Panic "index out of range [-1]" /\
  fst (GetBool gitSilent Default "user.name" (worldWith testZero)) =
    Panic "index out of range [0] with length 0".
Proof. split; reflexivity. Qed.

(** ** [IsInvalidKeyError] *)

Lemma ExitStatus_exit1 : ExitStatus 256 = 1.
Proof. reflexivity. Qed.

(** C7. [IsInvalidKeyError] returns true exactly for a [RunError] whose
    status word has exit status 1. On the error [get] returns it is
    false when the process could not be run and when it exited with another
    status, and it is false on whatever [GetInt64] returns after a run that
    exited with status 0, a parse error included. *)
Theorem IsInvalidKeyError_iff_exit_status_1 (git : Git) (c : Config)
    (key : string) (w : World) (err : error) :
  (IsInvalidKeyError err = Ret true <->
   exists Msg e ws,
     err = RunError Msg (Some e) /\ Sys e = SysWaitStatus ws /\
     ExitStatus ws = 1) /\
  (forall extra descr vs err' w',
     git (trace w) (getArgs c key extra) = NotRun descr ->
     get git c key extra w = (Ret (vs, err'), w') ->
     IsInvalidKeyError err' = Ret false) /\
  (forall extra e out stderr ws vs err' w',
     git (trace w) (getArgs c key extra) = ExitNonZero e out stderr ->
     Sys e = SysWaitStatus ws ->
     get git c key extra w = (Ret (vs, err'), w') ->
     IsInvalidKeyError err' = Ret (ExitStatus ws =? 1)) /\
  (forall out n err' w',
     git (trace w) (getArgs c key ["--int"]) = Exit0 out ->
     GetInt64 git c key w = (Ret (n, err'), w') ->
     IsInvalidKeyError err' = Ret false).
Proof.
  split; [|split; [|split]].
  - split.
    + destruct err as [|Msg [e|]| | | |]; simpl; try discriminate.
      destruct e as [[ws|]]; simpl; try discriminate.
      intros H. inversion H as [H1]. apply Z.eqb_eq in H1.
      exists Msg, (mkExitError (SysWaitStatus ws)), ws. auto.
    + intros (Msg & e & ws & -> & Hsys & Hws). simpl.
      rewrite Hsys, Hws. reflexivity.
  - intros extra descr vs err' w' Hgit. rewrite get_eq, Hgit.
    intros H. inversion H; subst. reflexivity.
  - intros extra e out stderr ws vs err' w' Hgit Hsys.
    rewrite get_eq, Hgit. intros H. inversion H; subst. simpl.
    now rewrite Hsys.
  - intros out n err' w' Hgit.
    pose proof (get_eq git c key ["--int"] w) as Hget. rewrite Hgit in Hget.
    rewrite (GetInt64_of_get _ _ _ _ _ _ _ Hget). simpl.
    destruct (_ !! 0%nat) as [s|]; [|discriminate].
    intros H. inversion H as [[H1 H2]]. clear H.
    assert (err' = snd (ParseInt s)) as -> by now rewrite H1.
    unfold ParseInt. destruct s as [|ch s]; simpl; [reflexivity|].
    destruct (if Ascii.eqb ch "+" then (false, s)
              else if Ascii.eqb ch "-" then (true, s)
                   else (false, String ch s)) as [neg s'].
    destruct (ParseUint s') as [un [[]|]];
      try reflexivity;
      destruct (negb neg && (2 ^ 63 <=? un)); simpl; try reflexivity;
      destruct (neg && (2 ^ 63 <? un)); reflexivity.
Qed.

Lemma IsInvalidKeyError_iff_exit_status_1_witness :
  IsInvalidKeyError (RunError "" (Some exit1)) = Ret true /\
  IsInvalidKeyError (execError "exec: git: executable file not found in $PATH")
    = Ret false.
Proof.
  split.
  - apply (proj1 (IsInvalidKeyError_iff_exit_status_1 gitMissing Default
                    "user.name" (worldWith testZero)
                    (RunError "" (Some exit1)))).
    exists "", exit1, 256. repeat split.
  - destruct (IsInvalidKeyError_iff_exit_status_1 gitMissing Default
                "user.name" (worldWith testZero) nil_error)
      as (_ & Hnotrun & _).
    apply (Hnotrun [] "exec: git: executable file not found in $PATH" []
             (execError "exec: git: executable file not found in $PATH")
             (ran (worldWith testZero) (getArgs Default "user.name" [])));
      reflexivity.
Defined.

(** ** [strconv.ParseInt] by cases *)

Lemma wrapInt64_small (x : Z) :
  - 2 ^ 63 <= x < 2 ^ 63 -> wrapInt 64 x = x.
Proof.
  unfold wrapInt. change (64 - 1) with 63.
  change (2 ^ 63) with 9223372036854775808.
  change (2 ^ 64) with 18446744073709551616.
  intros H. rewrite Z.mod_small by lia. lia.
Qed.

Lemma digit_not_sign (c : ascii) :
  48 <= byteOf c ->
  Ascii.eqb c "+" = false /\ Ascii.eqb c "-" = false.
Proof.
  intros H. split.
  - destruct (Ascii.eqb c "+") eqn:E; [|reflexivity].
    apply Ascii.eqb_eq in E. subst c. vm_compute in H. now destruct H.
  - destruct (Ascii.eqb c "-") eqn:E; [|reflexivity].
    apply Ascii.eqb_eq in E. subst c. vm_compute in H. now destruct H.
Qed.

Lemma decimalFrom_leadingDigits_ge (s : string) :
  forall n, 0 <= n -> n <= decimalFrom (leadingDigits s) n.
Proof.
  induction s as [|c s IH]; simpl; intros n Hn; [lia|].
  destruct ((48 <=? byteOf c) && (byteOf c <=? 57)) eqn:Hc; simpl; [|lia].
  apply andb_prop in Hc as [H1 H2]. apply Z.leb_le in H1, H2.
  specialize (IH (n * 10 + (byteOf c - 48))). lia.
Qed.

Lemma ParseUint_loop_cases (s : string) :
  forall n,
    0 <= n <= maxUint64 ->
    ParseUint_loop s n =
      if maxUint64 <? decimalFrom (leadingDigits s) n
      then (maxUint64, Some ErrRange)
      else if String.eqb (leadingDigits s) s then (decimalFrom s n, None)
      else (0, Some ErrSyntax).
Proof.
  unfold maxUint64.
  change (2 ^ 64 - 1) with 18446744073709551615.
  induction s as [|c s IH]; intros n Hn.
  - simpl. destruct (18446744073709551615 <? n) eqn:E; [|reflexivity].
    apply Z.ltb_lt in E. lia.
  - cbn [ParseUint_loop leadingDigits].
    destruct ((48 <=? byteOf c) && (byteOf c <=? 57)) eqn:Hc.
    + pose proof Hc as Hc'. apply andb_prop in Hc' as [H1 H2].
      apply Z.leb_le in H1, H2.
      cbn [decimalFrom String.eqb]. rewrite Ascii.eqb_refl.
      unfold maxUint64.
      change (2 ^ 64 - 1) with 18446744073709551615.
      change (18446744073709551615 / 10 + 1) with 1844674407370955162.
      change (2 ^ 64) with 18446744073709551616.
      set (d := byteOf c - 48) in *.
      assert (0 <= d <= 9) as Hdig by (unfold d; lia).
      destruct (10 <=? d) eqn:E10; [apply Z.leb_le in E10; lia|].
      pose proof (decimalFrom_leadingDigits_ge s (n * 10 + d) ltac:(lia))
        as Hge.
      destruct (1844674407370955162 <=? n) eqn:Ecut.
      * apply Z.leb_le in Ecut.
        destruct (18446744073709551615 <?
                  decimalFrom (leadingDigits s) (n * 10 + d)) eqn:E;
          [reflexivity | apply Z.ltb_ge in E; lia].
      * apply Z.leb_gt in Ecut.
        rewrite (Z.mod_small (n * 10)) by lia.
        destruct (Z_lt_le_dec (n * 10 + d) 18446744073709551616) as [Hs|Hb].
        -- rewrite (Z.mod_small (n * 10 + d)) by lia.
           destruct (n * 10 + d <? n * 10) eqn:E1;
             [apply Z.ltb_lt in E1; lia|].
           destruct (18446744073709551615 <? n * 10 + d) eqn:E2;
             [apply Z.ltb_lt in E2; lia|].
           simpl. apply IH. lia.
        -- assert ((n * 10 + d) mod 18446744073709551616 =
                   n * 10 + d - 18446744073709551616) as ->.
           { symmetry. apply (Z.mod_unique _ _ 1); lia. }
           destruct (n * 10 + d - 18446744073709551616 <? n * 10) eqn:E1;
             [|apply Z.ltb_ge in E1; lia].
           simpl.
           destruct (18446744073709551615 <?
                     decimalFrom (leadingDigits s) (n * 10 + d)) eqn:E;
             [reflexivity | apply Z.ltb_ge in E; lia].
    + cbn [decimalFrom String.eqb].
      destruct (18446744073709551615 <? n) eqn:E;
        [apply Z.ltb_lt in E; lia|].
      destruct ((97 <=? lower c) && (lower c <=? 122)) eqn:Hl;
        [|reflexivity].
      apply andb_prop in Hl as [H1 _]. apply Z.leb_le in H1.
      destruct (10 <=? lower c - 97 + 10) eqn:E10; [reflexivity|].
      apply Z.leb_gt in E10. lia.
Qed.

Lemma ParseUint_cases (s : string) :
  ParseUint s =
    if maxUint64 <? decimalValue (leadingDigits s)
    then (maxUint64, Some ErrRange)
    else if String.eqb (leadingDigits s) s && negb (String.eqb s "")
         then (decimalValue s, None)
         else (0, Some ErrSyntax).
Proof.
  unfold ParseUint, decimalValue. destruct s as [|c s]; [reflexivity|].
  rewrite ParseUint_loop_cases by (unfold maxUint64; lia).
  cbn [String.eqb negb]. now rewrite andb_true_r.
Qed.

Lemma leadingDigits_nonneg (s : string) :
  0 <= decimalValue (leadingDigits s).
Proof. apply decimalFrom_leadingDigits_ge. lia. Qed.

(** The part of [strconv.ParseInt] after the sign, [s0] being the whole
    string and [s] what follows the sign. *)
Lemma ParseInt_after_sign (neg : bool) (s0 s : string) :
  match ParseUint s with
  | (_, Some ErrSyntax) => (0, NumError "ParseInt" s0 ErrSyntax)
  | (un, _) =>
      let cutoff := 2 ^ 63 in
      if negb neg && (cutoff <=? un)
      then (cutoff - 1, NumError "ParseInt" s0 ErrRange)
      else if neg && (cutoff <? un)
      then (- cutoff, NumError "ParseInt" s0 ErrRange)
      else
        let n := wrapInt 64 un in
        (if neg then wrapInt 64 (- n) else n, nil_error)
  end =
  if (maxUint64 <? decimalValue (leadingDigits s)) ||
     (String.eqb (leadingDigits s) s &&
      (if neg then 2 ^ 63 <? decimalValue (leadingDigits s)
       else 2 ^ 63 <=? decimalValue (leadingDigits s)))
  then (if neg then - 2 ^ 63 else 2 ^ 63 - 1, NumError "ParseInt" s0 ErrRange)
  else if String.eqb (leadingDigits s) s && negb (String.eqb s "")
       then (if neg then - decimalValue s else decimalValue s, nil_error)
       else (0, NumError "ParseInt" s0 ErrSyntax).
Proof.
  rewrite ParseUint_cases.
  pose proof (leadingDigits_nonneg s) as Hpos.
  unfold maxUint64.
  change (2 ^ 64 - 1) with 18446744073709551615.
  change (2 ^ 63) with 9223372036854775808.
  destruct (18446744073709551615 <? decimalValue (leadingDigits s)) eqn:Emax;
    [apply Z.ltb_lt in Emax | apply Z.ltb_ge in Emax].
  - destruct neg; reflexivity.
  - cbn [orb].
    destruct (String.eqb (leadingDigits s) s) eqn:Eall; cbn [andb];
      [|reflexivity].
    apply String.eqb_eq in Eall. rewrite Eall in *.
    set (v := decimalValue s) in *.
    destruct (String.eqb s "") eqn:Eempty; cbn [negb].
    + apply String.eqb_eq in Eempty. subst s. destruct neg; reflexivity.
    + destruct neg; cbv zeta; cbn [negb andb].
      * destruct (9223372036854775808 <? v) eqn:E1;
          [reflexivity | apply Z.ltb_ge in E1].
        f_equal.
        destruct (Z.eq_dec v 9223372036854775808) as [->|Hv];
          [reflexivity|].
        rewrite (wrapInt64_small v)
          by (change (2 ^ 63) with 9223372036854775808; lia).
        apply wrapInt64_small.
        change (2 ^ 63) with 9223372036854775808. lia.
      * destruct (9223372036854775808 <=? v) eqn:E1;
          [reflexivity | apply Z.leb_gt in E1].
        f_equal. apply wrapInt64_small.
        change (2 ^ 63) with 9223372036854775808. lia.
Qed.

(** [strconv.ParseInt] by cases. *)
Lemma ParseInt_cases (s : string) :
  ParseInt s =
    if outOfRange s
    then (int64Bound s, NumError "ParseInt" s ErrRange)
    else if String.eqb (leadingDigits (unsigned s)) (unsigned s) &&
            negb (String.eqb (unsigned s) "")
         then (if negative s then - decimalValue (unsigned s)
               else decimalValue (unsigned s), nil_error)
         else (0, NumError "ParseInt" s ErrSyntax).
Proof.
  destruct s as [|c s]; [reflexivity|].
  unfold ParseInt, outOfRange, int64Bound, unsigned, negative.
  destruct (Ascii.eqb c "+") eqn:Eplus.
  - apply Ascii.eqb_eq in Eplus. subst c. cbn [orb].
    change (Ascii.eqb "+" "-") with false.
    exact (ParseInt_after_sign false (String "+" s) s).
  - destruct (Ascii.eqb c "-") eqn:Eminus; cbn [orb].
    + exact (ParseInt_after_sign true (String c s) s).
    + exact (ParseInt_after_sign false (String c s) (String c s)).
Qed.

Lemma leadingDigits_isDigits (ds : string) :
  isDigits ds = true -> leadingDigits ds = ds.
Proof.
  induction ds as [|c ds IH]; simpl; intros H; [reflexivity|].
  apply andb_prop in H as [Hc Hd]. rewrite Hc. now rewrite IH.
Qed.

(** On decimal digits, signed or not, [outOfRange] is being outside the
    range of [int64]. *)
Lemma outOfRange_decimal (neg : bool) (ds : string) :
  isDigits ds = true -> ds <> "" ->
  outOfRange (if neg then String "-" ds else ds) =
    (if neg then 2 ^ 63 <? decimalValue ds else 2 ^ 63 <=? decimalValue ds) /\
  int64Bound (if neg then String "-" ds else ds) =
    (if neg then - 2 ^ 63 else 2 ^ 63 - 1).
Proof.
  intros Hd Hne.
  assert (forall b : bool,
            (maxUint64 <? decimalValue ds) ||
            (String.eqb ds ds &&
             (if b then 2 ^ 63 <? decimalValue ds
              else 2 ^ 63 <=? decimalValue ds)) =
            (if b then 2 ^ 63 <? decimalValue ds
             else 2 ^ 63 <=? decimalValue ds)) as Hor.
  { intros b. rewrite String.eqb_refl. cbn [andb].
    unfold maxUint64.
    change (2 ^ 64 - 1) with 18446744073709551615.
    change (2 ^ 63) with 9223372036854775808.
    destruct (18446744073709551615 <? decimalValue ds) eqn:E;
      [|reflexivity].
    apply Z.ltb_lt in E. cbn [orb]. symmetry.
    destruct b; [apply Z.ltb_lt | apply Z.leb_le]; lia. }
  destruct neg.
  - unfold outOfRange, int64Bound, unsigned, negative.
    change (Ascii.eqb "-" "-") with true.
    change (Ascii.eqb "-" "+") with false. cbn [orb].
    rewrite (leadingDigits_isDigits ds Hd).
    split; [exact (Hor true) | reflexivity].
  - destruct ds as [|c ds'] eqn:Eds; [congruence|]. rewrite <- Eds in *.
    assert (48 <= byteOf c) as Hc.
    { rewrite Eds in Hd. simpl in Hd. apply andb_prop in Hd as [Hd' _].
      apply andb_prop in Hd' as [Hd' _]. now apply Z.leb_le in Hd'. }
    destruct (digit_not_sign c Hc) as [Hplus Hminus].
    unfold outOfRange, int64Bound, unsigned, negative.
    rewrite Eds, Hplus, Hminus. cbn [orb]. rewrite <- Eds.
    rewrite (leadingDigits_isDigits ds Hd).
    split; [exact (Hor false) | reflexivity].
Qed.

(** ** Values returned next to an error *)

(** C10, as stated, fails for [GetInt64]: on a value above the largest
    [int64] it returns that largest [int64], not 0, with the error. *)
Lemma GetInt64_range_error_is_not_zero :
  ~ (forall (git : Git) (c : Config) (key : string) (w w' : World)
       (n : Z) (err : error),
       GetInt64 git c key w = (Ret (n, err), w') ->
       is_nil err = false -> n = 0).
Proof.
  intros H.
  specialize (H gitHuge Default "gc.auto" (worldWith testZero)
                (ran (worldWith testZero) (getArgs Default "gc.auto" ["--int"]))
                (2 ^ 63 - 1)
                (NumError "ParseInt" "9223372036854775808" ErrRange)
                eq_refl eq_refl).
  discriminate H.
Qed.

(** Whatever an accessor returns next to an error is the zero value of
    its type, but for [GetInt64] next to a range error. *)
Lemma accessors_value_next_to_error (git : Git) (c : Config) (key : string)
    (w w' : World) (err : error) :
  is_nil err = false ->
  (forall s, GetString git c key w = (Ret (s, err), w') -> s = "") /\
  (forall s, GetPath git c key w = (Ret (s, err), w') -> s = "") /\
  (forall b, GetBool git c key w = (Ret (b, err), w') -> b = false) /\
  (forall vs, GetStrings git c key w = (Ret (vs, err), w') -> vs = []) /\
  (forall vs, GetPaths git c key w = (Ret (vs, err), w') -> vs = []) /\
  (forall n, GetInt64 git c key w = (Ret (n, err), w') ->
     match err with
     | NumError _ _ ErrRange => n = 2 ^ 63 - 1 \/ n = - 2 ^ 63
     | _ => n = 0
     end).
Proof.
  intros Herr.
  assert (forall extra,
            exists values err0,
              get git c key extra w =
                (Ret (values, err0), ran w (getArgs c key extra)))
    as Hget.
  { intros extra. rewrite get_eq.
    destruct (git (trace w) (getArgs c key extra)); eauto. }
  repeat split.
  - intros s. destruct (Hget []) as (values & err0 & H0).
    rewrite (GetString_of_get _ _ _ _ _ _ _ H0).
    destruct (is_nil err0) eqn:E0; simpl.
    + destruct (last values); intros H; inversion H; subst; discriminate.
    + intros H; now inversion H.
  - intros s. destruct (Hget ["--path"]) as (values & err0 & H0).
    rewrite (GetPath_of_get _ _ _ _ _ _ _ H0).
    destruct (is_nil err0) eqn:E0; simpl.
    + destruct (last values); intros H; inversion H; subst; discriminate.
    + intros H; now inversion H.
  - intros b. destruct (Hget ["--bool"]) as (values & err0 & H0).
    rewrite (GetBool_of_get _ _ _ _ _ _ _ H0).
    destruct (is_nil err0) eqn:E0; simpl.
    + destruct (values !! 0%nat); intros H; inversion H; subst; discriminate.
    + intros H; now inversion H.
  - intros vs H. exact (get_failure_empty _ _ _ _ _ _ _ _ H Herr).
  - intros vs H. exact (get_failure_empty _ _ _ _ _ _ _ _ H Herr).
  - intros n. destruct (Hget ["--int"]) as (values & err0 & H0).
    rewrite (GetInt64_of_get _ _ _ _ _ _ _ H0).
    destruct (is_nil err0) eqn:E0; simpl.
    + destruct (values !! 0%nat) as [s|]; [|discriminate].
      intros H. inversion H as [[H1 H2]]. clear H.
      pose proof (ParseInt_value s) as Hv. rewrite H1 in Hv. simpl in Hv.
      destruct err as [| |f num [] | | |]; try exact Hv; discriminate.
    + intros H. inversion H; subst.
      destruct err as [| |f num [] | | |]; try reflexivity; try discriminate.
      pose proof (get_eq git c key ["--int"] w) as H1. rewrite H0 in H1.
      destruct (git (trace w) (getArgs c key ["--int"])); inversion H1.
Qed.

(** C10, amended. When the query fails each accessor returns the error
    with the zero value of its type: [GetString] and [GetPath] the empty
    string, [GetBool] false, [GetInt64] 0, [GetStrings] and [GetPaths]
    the empty sequence. Whatever an accessor returns next to an error is
    that zero value, except for [GetInt64] when the query succeeds and
    the first value is out of range: after an optional sign its leading
    digits write a number above [2^64-1], or it has only digits and the
    number with its sign is not an [int64]. Then, and only then,
    [GetInt64] returns a range error of [strconv.ParseInt], and with it
    the bound of [int64] on the side of the sign: [-2^63] when the value
    starts with a minus sign and [2^63-1] when it does not. So does
    every decimal integer that is not an [int64]. On a first value that
    is not out of range an error is a syntax error and comes with 0. *)
Theorem accessors_value_on_failure (git : Git) (c : Config) (key : string)
    (w : World) :
  (forall vs err w',
     get git c key [] w = (Ret (vs, err), w') -> is_nil err = false ->
     GetString git c key w = (Ret ("", err), w') /\
     GetStrings git c key w = (Ret ([], err), w')) /\
  (forall vs err w',
     get git c key ["--path"] w = (Ret (vs, err), w') -> is_nil err = false ->
     GetPath git c key w = (Ret ("", err), w') /\
     GetPaths git c key w = (Ret ([], err), w')) /\
  (forall vs err w',
     get git c key ["--bool"] w = (Ret (vs, err), w') -> is_nil err = false ->
     GetBool git c key w = (Ret (false, err), w')) /\
  (forall vs err w',
     get git c key ["--int"] w = (Ret (vs, err), w') -> is_nil err = false ->
     GetInt64 git c key w = (Ret (0, err), w')) /\
  (forall err w',
     is_nil err = false ->
     (forall s, GetString git c key w = (Ret (s, err), w') -> s = "") /\
     (forall s, GetPath git c key w = (Ret (s, err), w') -> s = "") /\
     (forall b, GetBool git c key w = (Ret (b, err), w') -> b = false) /\
     (forall vs, GetStrings git c key w = (Ret (vs, err), w') -> vs = []) /\
     (forall vs, GetPaths git c key w = (Ret (vs, err), w') -> vs = []) /\
     (forall n, GetInt64 git c key w = (Ret (n, err), w') ->
        n = 0 \/
        exists v rest,
          get git c key ["--int"] w = (Ret (v :: rest, nil_error), w') /\
          outOfRange v = true /\
          n = int64Bound v /\
          err = NumError "ParseInt" v ErrRange)) /\
  (forall v rest w',
     get git c key ["--int"] w = (Ret (v :: rest, nil_error), w') ->
     (outOfRange v = true ->
      GetInt64 git c key w =
        (Ret (int64Bound v, NumError "ParseInt" v ErrRange), w')) /\
     (outOfRange v = false ->
      exists n err,
        GetInt64 git c key w = (Ret (n, err), w') /\
        (is_nil err = false ->
         n = 0 /\ err = NumError "ParseInt" v ErrSyntax))) /\
  (forall (neg : bool) ds rest w',
     isDigits ds = true -> ds <> "" ->
     get git c key ["--int"] w =
       (Ret ((if neg then String "-" ds else ds) :: rest, nil_error), w') ->
     (if neg then 2 ^ 63 < decimalValue ds else 2 ^ 63 <= decimalValue ds) ->
     GetInt64 git c key w =
       (Ret (if neg then - 2 ^ 63 else 2 ^ 63 - 1,
             NumError "ParseInt" (if neg then String "-" ds else ds)
               ErrRange), w')).
Proof.
  assert (forall v rest w',
            get git c key ["--int"] w = (Ret (v :: rest, nil_error), w') ->
            GetInt64 git c key w = (Ret (ParseInt v), w')) as Hint.
  { intros v rest w' H. now rewrite (GetInt64_of_get _ _ _ _ _ _ _ H). }
  split; [|split; [|split; [|split; [|split; [|split]]]]].
  - intros vs err w' H H0. split.
    + rewrite (GetString_of_get _ _ _ _ _ _ _ H), H0. reflexivity.
    + unfold GetStrings. rewrite H.
      now rewrite (get_failure_empty _ _ _ _ _ _ _ _ H H0).
  - intros vs err w' H H0. split.
    + rewrite (GetPath_of_get _ _ _ _ _ _ _ H), H0. reflexivity.
    + unfold GetPaths. rewrite H.
      now rewrite (get_failure_empty _ _ _ _ _ _ _ _ H H0).
  - intros vs err w' H H0.
    rewrite (GetBool_of_get _ _ _ _ _ _ _ H), H0. reflexivity.
  - intros vs err w' H H0.
    rewrite (GetInt64_of_get _ _ _ _ _ _ _ H), H0. reflexivity.
  - intros err w' Herr.
    destruct (accessors_value_next_to_error git c key w w' err Herr)
      as (HS & HP & HB & HSs & HPs & _).
    split; [exact HS|]. split; [exact HP|]. split; [exact HB|].
    split; [exact HSs|]. split; [exact HPs|].
    intros n.
    assert (exists vs e0,
              get git c key ["--int"] w =
                (Ret (vs, e0), ran w (getArgs c key ["--int"])))
      as (vs & e0 & H0).
    { rewrite get_eq.
      destruct (git (trace w) (getArgs c key ["--int"])); eauto. }
    rewrite (GetInt64_of_get _ _ _ _ _ _ _ H0).
    destruct (is_nil e0) eqn:E0; cbn [negb].
    + destruct e0; try discriminate.
      destruct vs as [|v rest]; [discriminate|]. cbn [lookup list_lookup].
      rewrite ParseInt_cases.
      destruct (outOfRange v) eqn:Eo.
      * intros H. inversion H; subst. right. exists v, rest. auto.
      * destruct (_ && _); intros H; inversion H; subst;
          [discriminate | now left].
    + intros H. inversion H. now left.
  - intros v rest w' H. rewrite (Hint v rest w' H), ParseInt_cases. split.
    + intros ->. reflexivity.
    + intros ->. destruct (_ && _); eexists _, _; (split; [reflexivity|]);
        [discriminate | auto].
  - intros neg ds rest w' Hd Hne H Hout. rewrite (Hint _ rest w' H).
    destruct (outOfRange_decimal neg ds Hd Hne) as [Ho Hb].
    rewrite ParseInt_cases, Ho, Hb.
    destruct neg.
    + apply Z.ltb_lt in Hout. now rewrite Hout.
    + apply Z.leb_le in Hout. now rewrite Hout.
Qed.

Lemma accessors_value_on_failure_witness :
  (GetString gitTest Global "remote.origin.missing" (worldWith testZero) =
     (Ret ("", RunError "" (Some exit1)),
      ran (worldWith testZero) (getArgs Global "remote.origin.missing" [])) /\
   GetStrings gitTest Global "remote.origin.missing" (worldWith testZero) =
     (Ret ([], RunError "" (Some exit1)),
      ran (worldWith testZero) (getArgs Global "remote.origin.missing" []))) /\
  GetInt64 gitTrailing Default "gc.auto" (worldWith testZero) =
    (Ret (2 ^ 63 - 1, NumError "ParseInt" "99999999999999999999z" ErrRange),
     ran (worldWith testZero) (getArgs Default "gc.auto" ["--int"])).
Proof.
  split.
  - apply (proj1 (accessors_value_on_failure gitTest Global
                    "remote.origin.missing" (worldWith testZero))
             [] (RunError "" (Some exit1))
             (ran (worldWith testZero)
                (getArgs Global "remote.origin.missing" [])));
      reflexivity.
  - destruct (accessors_value_on_failure gitTrailing Default "gc.auto"
                (worldWith testZero)) as (_ & _ & _ & _ & _ & Hrange & _).
    apply (proj1 (Hrange "99999999999999999999z" []
                    (ran (worldWith testZero)
                       (getArgs Default "gc.auto" ["--int"]))
                    eq_refl)).
    reflexivity.
Defined.

(** ** [Config.Load]: the precondition *)

(** C3. For an argument that is not a pointer, or is a pointer to
    something that is not a struct, [Load] returns an error of its own at
    once: the world it leaves is the world it found, so no command was run
    and nothing on the heap, the target included, was written. *)
Theorem Load_rejects_non_struct_pointer (git : Git) (c : Config) (v : iface)
    (w : World) :
  notStructPointer v ->
  exists format,
    Load git c v w = (Ret (fmtError format [ArgValue v]), w).
Proof.
  unfold notStructPointer, Load. destruct v as [|t x]; intros H.
  - eexists. reflexivity.
  - destruct (kindOf t) eqn:Ek; try (eexists; reflexivity).
    destruct H as [H | [H | ->]]; [congruence | |].
    + destruct x as [| | | | | | [l|] |]; try (eexists; reflexivity).
      destruct (kindOf (Elem t)); try (eexists; reflexivity). congruence.
    + destruct (kindOf (Elem t)); eexists; reflexivity.
Qed.

Lemma Load_rejects_non_struct_pointer_witness :
  exists format,
    Load gitTest Default (Iface (TPtr TString) (VPtr (Some 0%nat)))
      (worldWith (VString "keep")) =
    (Ret (fmtError format
            [ArgValue (Iface (TPtr TString) (VPtr (Some 0%nat)))]),
     worldWith (VString "keep")).
Proof.
  apply (Load_rejects_non_struct_pointer gitTest Default
           (Iface (TPtr TString) (VPtr (Some 0%nat)))
           (worldWith (VString "keep"))).
  simpl. right. left. discriminate.
Defined.

(** ** [LoadError.Any] and the value [Load] returns *)

Lemma Any_nil_iff (m : LoadError) : Any m = NilMap <-> LoadError_len m = 0%nat.
Proof.
  unfold Any. destruct (LoadError_len m =? 0)%nat eqn:E.
  - apply Nat.eqb_eq in E. tauto.
  - apply Nat.eqb_neq in E. split; [|tauto].
    intros ->. simpl in E. congruence.
Qed.

(** Whatever [Load] returns, it is not the nil [error]. *)
Lemma Load_never_returns_nil (git : Git) (c : Config) (v : iface)
    (w w' : World) (e : error) :
  Load git c v w = (Ret e, w') -> is_nil e = false.
Proof.
  unfold Load. intros H.
  assert (forall format, (mret (fmtError format [ArgValue v]) : M error) w
                         = (Ret e, w') -> is_nil e = false) as Hfmt.
  { intros format Hf. inversion Hf; reflexivity. }
  destruct v as [|t x]; [now apply Hfmt in H|].
  destruct (kindOf t); try (now apply Hfmt in H).
  destruct x as [| | | | | | [l|] |]; try (now apply Hfmt in H).
  destruct (kindOf (Elem t)); try (now apply Hfmt in H).
  apply bind_inv in H as [(errs & w1 & _ & H) | (msg & _ & H)];
    [|discriminate].
  inversion H; reflexivity.
Qed.

(** C2 at the struct of [TestLoad], every key of which is present: no
    field fails and [errs.Any()] is the nil map, yet the [error] that
    [Load] returns holds that nil [LoadError] and so is not nil. *)
Theorem Load_without_failure_returns_non_nil_error :
  fst (Load gitTest Default (pointerTo testStruct) (worldWith testZero)) =
    Ret (LoadError_ NilMap) /\
  is_nil (LoadError_ NilMap) = false /\
  heap (snd (Load gitTest Default (pointerTo testStruct) (worldWith testZero)))
    !! 0%nat =
    Some (VStruct [VString "local@example.com"; VInt 6700; VBool true;
                   VSlice [VString "~/dev"; VString "~/go/src"]]).
Proof. repeat split; vm_compute; reflexivity. Qed.

(** ** [Config.Load]: fields of a kind it cannot populate *)

(** C4 at a struct whose first field is a [[]int] tagged with a key that
    is present: [Load] panics in [fv.Set], no entry is recorded, and
    the field after it is never queried nor populated. *)
Theorem Load_panics_on_slice_of_ints :
  fst (Load gitTest Default (pointerTo intsStruct) (worldWith intsZero)) =
    Panic "reflect.Set: value of type []string is not assignable" /\
  trace (snd (Load gitTest Default (pointerTo intsStruct)
                (worldWith intsZero))) =
    [getArgs Default "ghq.root" []] /\
  heap (snd (Load gitTest Default (pointerTo intsStruct)
               (worldWith intsZero))) !! 0%nat = Some intsZero.
Proof. repeat split; vm_compute; reflexivity. Qed.

(** ** What a step of [Load] does to the world *)

Lemma get_total (git : Git) (c : Config) (key : string)
    (extra : list string) (w : World) :
  exists values err,
    get git c key extra w = (Ret (values, err), ran w (getArgs c key extra)).
Proof.
  rewrite get_eq. destruct (git (trace w) (getArgs c key extra)); eauto.
Qed.

Lemma GetString_world (git : Git) (c : Config) (key : string) (w : World) :
  snd (GetString git c key w) = ran w (getArgs c key []).
Proof.
  destruct (get_total git c key [] w) as (values & err & H).
  rewrite (GetString_of_get _ _ _ _ _ _ _ H).
  destruct (negb (is_nil err)); [reflexivity|].
  destruct (last values); reflexivity.
Qed.

Lemma GetStrings_world (git : Git) (c : Config) (key : string) (w : World) :
  snd (GetStrings git c key w) = ran w (getArgs c key []).
Proof.
  destruct (get_total git c key [] w) as (values & err & H).
  unfold GetStrings. now rewrite H.
Qed.

Lemma GetBool_world (git : Git) (c : Config) (key : string) (w : World) :
  snd (GetBool git c key w) = ran w (getArgs c key ["--bool"]).
Proof.
  destruct (get_total git c key ["--bool"] w) as (values & err & H).
  rewrite (GetBool_of_get _ _ _ _ _ _ _ H).
  destruct (negb (is_nil err)); [reflexivity|].
  destruct (values !! 0%nat); reflexivity.
Qed.

Lemma GetInt64_world (git : Git) (c : Config) (key : string) (w : World) :
  snd (GetInt64 git c key w) = ran w (getArgs c key ["--int"]).
Proof.
  destruct (get_total git c key ["--int"] w) as (values & err & H).
  rewrite (GetInt64_of_get _ _ _ _ _ _ _ H).
  destruct (negb (is_nil err)); [reflexivity|].
  destruct (values !! 0%nat); reflexivity.
Qed.

Lemma onlyField_refl (l : loc) (i : nat) (h : gmap loc value) :
  onlyField l i h h.
Proof. split; reflexivity. Qed.

Lemma onlyField_trans (l : loc) (i : nat) (h1 h2 h3 : gmap loc value) :
  onlyField l i h1 h2 -> onlyField l i h2 h3 -> onlyField l i h1 h3.
Proof.
  intros [A1 B1] [A2 B2]. split.
  - intros l' Hl. now rewrite A2, A1.
  - intros j Hj. now rewrite B2, B1.
Qed.

Lemma onlyField_alter (l : loc) (i : nat) (f : value -> value)
    (h : gmap loc value) :
  onlyField l i h (alter (setField i f) l h).
Proof.
  split.
  - intros l' Hl. now apply lookup_alter_ne.
  - intros j Hj. unfold fieldAt. rewrite lookup_alter_eq.
    destruct (h !! l) as [[]|]; simpl; try reflexivity.
    now apply list_lookup_alter_ne.
Qed.

(** A computation that leaves the commands alone and writes at most to
    field [i] of the struct at [l]. *)
Lemma store_field_world (l : loc) (i : nat) (f : value -> value)
    (w w' : World) (r : Res unit) :
  store l (setField i f) w = (r, w') ->
  r = Ret tt /\ trace w' = trace w /\ onlyField l i (heap w) (heap w').
Proof.
  unfold store. intros H. inversion H; subst. simpl.
  repeat split; try apply onlyField_alter.
Qed.

Lemma panic_world {A : Type} (msg : string) (w w' : World) (r : Res A) :
  panic msg w = (r, w') -> r = Panic msg /\ w' = w.
Proof. unfold panic. intros H. now inversion H. Qed.

Ltac setter_world H :=
  match type of H with
  | store _ _ _ = _ =>
      apply store_field_world in H as (_ & ? & ?); split; assumption
  | panic _ _ = _ =>
      apply panic_world in H as [_ ->]; split;
      [reflexivity | apply onlyField_refl]
  end.

Lemma SetString_world (l : loc) (i : nat) (t : rtype) (s : string)
    (w w' : World) (r : Res unit) :
  SetString l i t s w = (r, w') ->
  trace w' = trace w /\ onlyField l i (heap w) (heap w').
Proof. unfold SetString. intros H. destruct (kindOf t); setter_world H. Qed.

Lemma SetBool_world (l : loc) (i : nat) (t : rtype) (b : bool)
    (w w' : World) (r : Res unit) :
  SetBool l i t b w = (r, w') ->
  trace w' = trace w /\ onlyField l i (heap w) (heap w').
Proof. unfold SetBool. intros H. destruct (kindOf t); setter_world H. Qed.

Lemma SetInt_world (l : loc) (i : nat) (t : rtype) (x : Z)
    (w w' : World) (r : Res unit) :
  SetInt l i t x w = (r, w') ->
  trace w' = trace w /\ onlyField l i (heap w) (heap w').
Proof. unfold SetInt. intros H. destruct (kindOf t); setter_world H. Qed.

Lemma SetStrings_world (l : loc) (i : nat) (t : rtype) (ssr : list value)
    (w w' : World) (r : Res unit) :
  SetStrings l i t ssr w = (r, w') ->
  trace w' = trace w /\ onlyField l i (heap w) (heap w').
Proof.
  unfold SetStrings. intros H.
  destruct (underlying t) as [| | | | | | | | | | | | | | | | | | | | | | | |e| |];
    try setter_world H.
  destruct e; setter_world H.
Qed.

Lemma Index_SetString_world (l : loc) (i : nat) (t : rtype) (j : nat)
    (s : string) (w w' : World) (r : Res unit) :
  Index_SetString l i t j s w = (r, w') ->
  trace w' = trace w /\ onlyField l i (heap w) (heap w').
Proof.
  unfold Index_SetString. intros H. destruct (kindOf (Elem t)); setter_world H.
Qed.

Lemma fillArray_world (l : loc) (i : nat) (t : rtype) (ss : list string) :
  forall (j : nat) (w w' : World) (r : Res unit),
    fillArray l i t j ss w = (r, w') ->
    trace w' = trace w /\ onlyField l i (heap w) (heap w').
Proof.
  induction ss as [|s ss IH]; simpl; intros j w w' r H.
  - inversion H; subst. split; [reflexivity | apply onlyField_refl].
  - destruct (j <? Len t)%nat.
    + apply bind_inv in H as [(u & w1 & H1 & H2) | (msg & H1 & _)].
      * apply Index_SetString_world in H1 as [T1 F1].
        apply IH in H2 as [T2 F2]. split; [congruence|].
        eapply onlyField_trans; eassumption.
      * now apply Index_SetString_world in H1.
    + inversion H; subst. split; [reflexivity | apply onlyField_refl].
Qed.

(** One case of the switch of [Load]: call the accessor [acc], then
    record its error or hand its value to the setter [set]. *)
Lemma load_case {A : Type} (acc : M (A * error)) (set : A -> M unit)
    (l : loc) (i : nat) (name : string) (errs : gmap string error)
    (q : list string) (w w' : World) (r : Res (gmap string error)) :
  snd (acc w) = ran w q ->
  (forall a w1 w2 rs,
     set a w1 = (rs, w2) ->
     trace w2 = trace w1 /\ onlyField l i (heap w1) (heap w2)) ->
  ('(a, err) ← acc;
   if negb (is_nil err) then mret (<[name := err]> errs)
   else set a;; mret errs) w = (r, w') ->
  trace w' = trace w ++ [q] /\
  onlyField l i (heap w) (heap w') /\
  ((exists a err,
      acc w = (Ret (a, err), w') /\ is_nil err = false /\
      r = Ret (<[name := err]> errs) /\ heap w' = heap w) \/
   (exists msg, acc w = (Panic msg, w') /\ r = Panic msg /\ heap w' = heap w) \/
   (exists a w1 rs,
      acc w = (Ret (a, nil_error), w1) /\ set a w1 = (rs, w') /\
      r = match rs with Ret _ => Ret errs | Panic msg => Panic msg end)).
Proof.
  intros Hacc Hset H.
  apply bind_inv in H as [([a err] & w1 & H1 & H2) | (msg & H1 & ->)].
  - rewrite H1 in Hacc. simpl in Hacc. subst w1.
    destruct err; simpl in H2;
      try (inversion H2; subst; simpl;
           split; [reflexivity|]; split; [apply onlyField_refl|];
           left; eexists _, _; repeat split; [exact H1 | reflexivity]).
    apply bind_inv in H2 as [(u & w2 & H3 & H4) | (msg & H3 & ->)].
    + inversion H4; subst. destruct (Hset _ _ _ _ H3) as [T F].
      split; [exact T|]. split; [exact F|].
      right. right. exists a, (ran w q), (Ret u). auto.
    + destruct (Hset _ _ _ _ H3) as [T F].
      split; [exact T|]. split; [exact F|].
      right. right. exists a, (ran w q), (Panic msg). auto.
  - rewrite H1 in Hacc. simpl in Hacc. subst w'.
    split; [reflexivity|]. split; [apply onlyField_refl|].
    right. left. eauto.
Qed.

Lemma managed_inv (ft : StructField) :
  managed ft = true ->
  CanSet ft = true /\
  String.eqb (Tag_Get (Tag ft) "gitconfig") "" = false /\
  Split (Tag_Get (Tag ft) "gitconfig") comma !! 0%nat = Some (keyOf ft).
Proof.
  unfold managed, keyOf. intros H. apply andb_prop in H as [H1 H2].
  apply negb_true_iff in H2. repeat split; try assumption.
  destruct (Split_cons (Tag_Get (Tag ft) "gitconfig") comma)
    as (key & rest & ->).
  reflexivity.
Qed.

Lemma accessorErr_succeeds {A : Type} (acc : M (A * error)) (a : A)
    (w w1 : World) :
  acc w = (Ret (a, nil_error), w1) ->
  ('(_, err) ← acc; mret err) w = (Ret nil_error, w1).
Proof. intros H. now rewrite (bind_Ret _ _ _ _ _ H). Qed.

Lemma loadField_unmanaged (git : Git) (c : Config) (l : loc) (i : nat)
    (ft : StructField) (errs : gmap string error) (w : World) :
  managed ft = false ->
  loadField git c l i ft errs w = (Ret errs, w).
Proof.
  unfold managed, loadField. intros H.
  destruct (CanSet ft); simpl in *; [|reflexivity].
  apply negb_false_iff in H. now rewrite H.
Qed.

(** Brings [load_case] to bear on a hypothesis [H] that runs one case of
    the switch: [accW] is the world lemma of the accessor, [setW] that of
    the setter. *)
Ltac switch_case H accW setW :=
  let T := fresh "T" in
  let F := fresh "F" in
  let C := fresh "C" in
  eapply load_case in H;
  [ destruct H as (T & F & C)
  | apply accW
  | intros ? ? ? ? ?; eapply setW; eassumption ].

Ltac switch_cases H Ek :=
  match type of Ek with
  | _ = String_ => switch_case H GetString_world SetString_world
  | _ = Bool => switch_case H GetBool_world SetBool_world
  | _ = Slice => switch_case H GetStrings_world SetStrings_world
  | _ = Array => switch_case H GetStrings_world fillArray_world
  | _ => switch_case H GetInt64_world SetInt_world
  end.

(** The body of the loop runs the command of the field, if it has one,
    writes at most to the field, and writes only if the accessor
    succeeded. *)
Lemma loadField_world (git : Git) (c : Config) (l : loc) (i : nat)
    (ft : StructField) (errs : gmap string error) (w w' : World)
    (r : Res (gmap string error)) :
  loadField git c l i ft errs w = (r, w') ->
  trace w' = trace w ++ option_list (fieldQuery c ft) /\
  onlyField l i (heap w) (heap w') /\
  (heap w' = heap w \/ fieldSucceeds git c ft w).
Proof.
  destruct (managed ft) eqn:Hm.
  - destruct (managed_inv ft Hm) as (Hset & Htag & Hkey).
    unfold loadField, fieldQuery, fieldSucceeds.
    rewrite Hm, Hset, Htag, Hkey. simpl.
    destruct (kindOf (Type_ ft)) eqn:Ek; simpl; intros H;
      try (inversion H; subst; rewrite app_nil_r;
           repeat split; auto; apply onlyField_refl);
      switch_cases H Ek;
      (split; [exact T|]; split; [exact F|]);
      destruct C as [(_ & _ & _ & _ & _ & C) | [(_ & _ & _ & C) |
                     (a & w1 & rs & C & _)]];
      auto;
      right; (split; [reflexivity|]);
      eexists _, w1; (split; [reflexivity|]);
      eapply accessorErr_succeeds, C.
  - intros H. rewrite (loadField_unmanaged _ _ _ _ _ _ _ Hm) in H.
    inversion H; subst. unfold fieldQuery. rewrite Hm. simpl.
    rewrite app_nil_r. repeat split; auto; apply onlyField_refl.
Qed.

(** A field that fails: the body of the loop records its error under its
    name and returns, leaving the heap as it was. *)
Lemma loadField_fails (git : Git) (c : Config) (l : loc) (i : nat)
    (ft : StructField) (errs : gmap string error) (w w1 : World)
    (err : error) :
  fieldFails git c ft w err w1 ->
  loadField git c l i ft errs w = (Ret (<[Name ft := err]> errs), w1) /\
  heap w1 = heap w /\
  trace w1 = trace w ++ option_list (fieldQuery c ft).
Proof.
  intros [Hm Hf].
  destruct (managed_inv ft Hm) as (Hset & Htag & Hkey).
  assert (forall {A : Type} (acc : M (A * error)) (set : A -> M unit)
                 (q : list string),
             snd (acc w) = ran w q ->
             ('(_, e) ← acc; mret e) w = (Ret err, w1) ->
             is_nil err = false ->
             ('(a, e) ← acc;
              if negb (is_nil e) then mret (<[Name ft := e]> errs)
              else set a;; mret errs) w = (Ret (<[Name ft := err]> errs), w1) /\
             heap w1 = heap w /\ trace w1 = trace w ++ [q]) as Hcase.
  { intros A acc set q Hw Hacc Hnil.
    apply bind_inv in Hacc as [([a e] & w2 & H1 & H2) | (msg & _ & H2)];
      [|discriminate].
    inversion H2; subst. rewrite H1 in Hw. simpl in Hw. subst w1.
    rewrite (bind_Ret _ _ _ _ _ H1). simpl. rewrite Hnil. simpl. auto. }
  unfold loadField, fieldQuery. rewrite Hm, Hset, Htag, Hkey. simpl.
  destruct (kindOf (Type_ ft)) eqn:Ek; simpl in *;
    try (destruct Hf as [-> ->]; rewrite app_nil_r; auto);
    destruct Hf as [Hacc Hnil].
  - eapply Hcase; [apply GetBool_world | exact Hacc | exact Hnil].
  - eapply Hcase; [apply GetInt64_world | exact Hacc | exact Hnil].
  - eapply Hcase; [apply GetInt64_world | exact Hacc | exact Hnil].
  - eapply Hcase; [apply GetInt64_world | exact Hacc | exact Hnil].
  - eapply Hcase; [apply GetInt64_world | exact Hacc | exact Hnil].
  - eapply Hcase; [apply GetInt64_world | exact Hacc | exact Hnil].
  - eapply Hcase; [apply GetStrings_world | exact Hacc | exact Hnil].
  - eapply Hcase; [apply GetStrings_world | exact Hacc | exact Hnil].
  - eapply Hcase; [apply GetString_world | exact Hacc | exact Hnil].
Qed.

(** ** The loop of [Load] *)

Lemma loadFields_app (git : Git) (c : Config) (l : loc)
    (xs ys : list StructField) :
  forall (i : nat) (errs : gmap string error) (w : World),
    loadFields git c l i (xs ++ ys) errs w =
    (errs' ← loadFields git c l i xs errs;
     loadFields git c l (i + length xs) ys errs') w.
Proof.
  induction xs as [|x xs IH]; intros i errs w; simpl.
  - unfold mbind, M_bind, mret, M_ret. now rewrite Nat.add_0_r.
  - unfold mbind, M_bind.
    destruct (loadField git c l i x errs w) as [[errs'|msg] w1];
      [|reflexivity].
    rewrite IH. unfold mbind, M_bind.
    now replace (S i + length xs)%nat with (i + S (length xs))%nat by lia.
Qed.

(** The loop over the fields [fts], the first of which has index [i]:
    it leaves every other location and every field outside [fts] alone,
    changes a field of [fts] only if the loop reached it in a world in
    which its accessor succeeded, and runs the commands of the fields it
    gets through, in order, and no other. *)
Lemma loadFields_world (git : Git) (c : Config) (l : loc)
    (fts : list StructField) :
  forall (i : nat) (errs : gmap string error) (w w' : World)
         (r : Res (gmap string error)),
    loadFields git c l i fts errs w = (r, w') ->
    (forall l', l' <> l -> heap w' !! l' = heap w !! l') /\
    (forall j, (j < i \/ i + length fts <= j)%nat ->
               fieldAt (heap w') l j = fieldAt (heap w) l j) /\
    (forall k ft, fts !! k = Some ft ->
                  fieldAt (heap w') l (i + k) = fieldAt (heap w) l (i + k) \/
                  exists errsk wk,
                    loadFields git c l i (take k fts) errs w =
                      (Ret errsk, wk) /\
                    fieldSucceeds git c ft wk) /\
    (exists k, (k <= length fts)%nat /\
               trace w' = trace w ++ omap (fieldQuery c) (take k fts) /\
               (forall errs', r = Ret errs' -> k = length fts)).
Proof.
  induction fts as [|ft fts IH]; simpl; intros i errs w w' r H.
  - inversion H; subst. split; [|split; [|split]].
    + reflexivity.
    + reflexivity.
    + intros k ft Hk. inversion Hk.
    + exists 0%nat. simpl. rewrite app_nil_r. auto.
  - apply bind_inv in H as [(errs1 & w1 & H1 & H2) | (msg & H1 & ->)].
    + pose proof (loadField_world _ _ _ _ _ _ _ _ _ H1) as (T1 & [A1 B1] & S1).
      apply IH in H2 as (A2 & B2 & S2 & (k & Hk & T2 & R2)).
      split; [|split; [|split]].
      * intros l' Hl. now rewrite A2, A1.
      * intros j Hj. rewrite B2, B1 by lia. reflexivity.
      * intros [|k'] ft' Hft; simpl in Hft.
        -- inversion Hft; subst ft'. rewrite Nat.add_0_r.
           rewrite B2 by lia.
           destruct S1 as [-> | S1]; [now left | right].
           exists errs, w. split; [reflexivity | exact S1].
        -- replace (i + S k')%nat with (S i + k')%nat by lia.
           destruct (S2 k' ft' Hft) as [E | (errsk & wk & E1 & E2)].
           ++ left. rewrite E. apply B1. lia.
           ++ right. exists errsk, wk. split; [|exact E2].
              simpl. now rewrite (bind_Ret _ _ _ _ _ H1).
      * exists (S k). split; [lia|]. split.
        -- rewrite T2, T1. simpl. rewrite <- app_assoc. f_equal.
           destruct (fieldQuery c ft); reflexivity.
        -- intros errs' Hr. f_equal. eauto.
    + apply loadField_world in H1 as (T1 & [A1 B1] & S1).
      split; [|split; [|split]].
      * exact A1.
      * intros j Hj. apply B1. lia.
      * intros [|k'] ft' Hft; simpl in Hft.
        -- inversion Hft; subst ft'. rewrite Nat.add_0_r.
           destruct S1 as [-> | S1]; [now left | right].
           exists errs, w. split; [reflexivity | exact S1].
        -- left. apply B1. lia.
      * exists 1%nat. split; [lia|]. split.
        -- rewrite T1. simpl. rewrite ?take_0. simpl.
           destruct (fieldQuery c ft); reflexivity.
        -- intros errs' Hr. discriminate.
Qed.

(** The loop never drops an entry, and writes only under the names of
    the managed fields it goes through. *)
Lemma loadFields_errs (git : Git) (c : Config) (l : loc)
    (fts : list StructField) :
  forall (i : nat) (errs errs' : gmap string error) (w w' : World)
         (name : string),
    loadFields git c l i fts errs w = (Ret errs', w') ->
    name ∉ Name <$> filter (fun ft => managed ft = true) fts ->
    errs' !! name = errs !! name.
Proof.
  induction fts as [|ft fts IH]; simpl; intros i errs errs' w w' name H Hn.
  - now inversion H.
  - apply bind_inv in H as [(errs1 & w1 & H1 & H2) | (msg & _ & H)];
      [|discriminate].
    rewrite filter_cons in Hn. destruct (decide (managed ft = true)) as [Hm|Hm].
    + rewrite fmap_cons in Hn. apply not_elem_of_cons in Hn as [Hne Hn].
      rewrite (IH _ _ _ _ _ _ H2 Hn).
      assert (errs1 = errs \/ exists e, errs1 = <[Name ft := e]> errs) as Hor.
      { clear - H1 Hm. destruct (managed_inv ft Hm) as (Hset & Htag & Hkey).
        unfold loadField in H1. rewrite Hset, Htag, Hkey in H1. simpl in H1.
        destruct (kindOf (Type_ ft)) eqn:Ek;
          try solve [inversion H1; subst; right; eauto];
          switch_cases H1 Ek;
          destruct C as [(? & e & _ & _ & D & _) | [(? & _ & D & _) |
                         (? & ? & [|] & _ & _ & D)]];
          inversion D; subst; eauto. }
      destruct Hor as [-> | [e ->]]; [reflexivity|].
      now rewrite lookup_insert_ne.
    + apply not_true_is_false in Hm.
      rewrite (loadField_unmanaged _ _ _ _ _ _ _ Hm) in H1.
      inversion H1; subst. eapply IH; eassumption.
Qed.

(** ** Arrays of strings *)

Lemma alter_lookup_insert (h : gmap loc value) (l : loc) (f : value -> value)
    (x : value) :
  h !! l = Some x -> alter f l h = <[l := f x]> h.
Proof.
  intros H. apply map_eq. intros k. destruct (decide (k = l)) as [->|Hk].
  - now rewrite lookup_alter_eq, lookup_insert_eq, H.
  - now rewrite lookup_alter_ne, lookup_insert_ne by congruence.
Qed.

Lemma list_alter_lookup_insert (vs : list value) (i : nat)
    (f : value -> value) (x : value) :
  vs !! i = Some x -> alter f i vs = <[i := f x]> vs.
Proof.
  intros H. apply list_eq. intros k. destruct (decide (k = i)) as [->|Hk].
  - rewrite list_lookup_alter_eq, H. simpl.
    symmetry. apply list_lookup_insert_eq. now apply lookup_lt_Some in H.
  - now rewrite list_lookup_alter_ne, list_lookup_insert_ne by congruence.
Qed.

Lemma filled_nil (es : list value) (j : nat) : filled es j [] = es.
Proof.
  unfold filled. rewrite take_nil. simpl. rewrite Nat.add_0_r.
  apply take_drop.
Qed.

Lemma filled_ge (es : list value) (j : nat) (ss : list string) :
  (length es <= j)%nat -> filled es j ss = es.
Proof.
  intros H. unfold filled. rewrite take_ge by lia.
  replace (length es - j)%nat with 0%nat by lia.
  rewrite take_0, drop_ge by lia. simpl. apply app_nil_r.
Qed.

Lemma filled_cons (es : list value) (j : nat) (s : string)
    (ss : list string) :
  (j < length es)%nat ->
  filled (<[j := VString s]> es) (S j) ss = filled es j (s :: ss).
Proof.
  intros H. unfold filled. rewrite length_insert.
  rewrite (take_S_r _ j (VString s)) by now apply list_lookup_insert_eq.
  rewrite take_insert_ge by lia. rewrite drop_insert_lt by lia.
  replace (length es - j)%nat with (S (length es - S j)) by lia.
  simpl. rewrite <- app_assoc. simpl.
  now replace (j + S (length ss))%nat with (S (j + length ss)) by lia.
Qed.

Lemma fillArray_run (l : loc) (i : nat) (t : rtype) (ss : list string) :
  forall (j : nat) (w : World) (vs es : list value),
    kindOf (Elem t) = String_ ->
    heap w !! l = Some (VStruct vs) ->
    vs !! i = Some (VArray es) ->
    length es = Len t ->
    fillArray l i t j ss w =
      (Ret tt,
       {| trace := trace w;
          heap := <[l := VStruct (<[i := VArray (filled es j ss)]> vs)]>
                    (heap w) |}).
Proof.
  induction ss as [|s ss IH]; intros j w vs es Hk Hl Hi Hlen; simpl.
  - rewrite filled_nil, (list_insert_id _ _ _ Hi), (insert_id _ _ _ Hl).
    now destruct w.
  - destruct (j <? Len t)%nat eqn:Hj.
    + apply Nat.ltb_lt in Hj.
      assert (Index_SetString l i t j s w =
                (Ret tt,
                 {| trace := trace w;
                    heap := <[l := VStruct
                                     (<[i := VArray (<[j := VString s]> es)]>
                                        vs)]> (heap w) |})) as Hstep.
      { unfold Index_SetString, store. rewrite Hk.
        rewrite (alter_lookup_insert _ _ _ _ Hl). simpl.
        now rewrite (list_alter_lookup_insert _ _ _ _ Hi). }
      rewrite (bind_Ret _ _ _ _ _ Hstep).
      rewrite (IH (S j) _ (<[i := VArray (<[j := VString s]> es)]> vs)
                 (<[j := VString s]> es)); simpl.
      * rewrite insert_insert_eq, list_insert_insert_eq.
        rewrite filled_cons by lia. reflexivity.
      * exact Hk.
      * apply lookup_insert_eq.
      * apply list_lookup_insert_eq. now apply lookup_lt_Some in Hi.
      * now rewrite length_insert.
    + apply Nat.ltb_ge in Hj.
      rewrite filled_ge by lia.
      rewrite (list_insert_id _ _ _ Hi), (insert_id _ _ _ Hl).
      now destruct w.
Qed.

(** C9. For a managed field that is an array of strings and whose query
    succeeds with [ss], the body of the loop of [Load] returns without
    recording an error and leaves in the field the array whose slot [j] is
    [ss[j]] for every [j] below both lengths and is what it was from
    [len(ss)] on: the elements of [ss] beyond the array are dropped. *)
Theorem Load_fills_string_array (git : Git) (c : Config) (l : loc) (i : nat)
    (ft : StructField) (errs : gmap string error) (w w1 : World)
    (ss : list string) (vs es : list value) :
  managed ft = true ->
  kindOf (Type_ ft) = Array ->
  kindOf (Elem (Type_ ft)) = String_ ->
  GetStrings git c (keyOf ft) w = (Ret (ss, nil_error), w1) ->
  heap w !! l = Some (VStruct vs) ->
  vs !! i = Some (VArray es) ->
  length es = Len (Type_ ft) ->
  exists es',
    loadField git c l i ft errs w =
      (Ret errs,
       {| trace := trace w1;
          heap := <[l := VStruct (<[i := VArray es']> vs)]> (heap w) |}) /\
    es' = (VString <$> take (length es) ss) ++ drop (length ss) es /\
    length es' = length es /\
    (forall j s, (j < length es)%nat -> ss !! j = Some s ->
                 es' !! j = Some (VString s)) /\
    (forall j, (length ss <= j)%nat -> es' !! j = es !! j).
Proof.
  intros Hm Hk Hek Hget Hl Hi Hlen.
  destruct (managed_inv ft Hm) as (Hset & Htag & Hkey).
  exists (filled es 0 ss).
  assert (filled es 0 ss = (VString <$> take (length es) ss) ++
                           drop (length ss) es) as Hfilled.
  { unfold filled. rewrite take_0, Nat.sub_0_r. reflexivity. }
  split; [|split; [exact Hfilled|]].
  - unfold loadField. rewrite Hset, Htag, Hkey, Hk. simpl.
    rewrite (bind_Ret _ _ _ _ _ Hget). simpl.
    pose proof (GetStrings_world git c (keyOf ft) w) as Hw.
    rewrite Hget in Hw. simpl in Hw. subst w1.
    rewrite (bind_Ret _ _ _ _ _
               (fillArray_run l i (Type_ ft) ss 0
                  (ran w (getArgs c (keyOf ft) [])) vs es Hek Hl Hi Hlen)).
    reflexivity.
  - rewrite Hfilled. split; [|split].
    + rewrite length_app, length_fmap, length_take, length_drop. lia.
    + intros j s Hj Hs.
      rewrite lookup_app_l
        by (rewrite length_fmap, length_take;
            apply lookup_lt_Some in Hs; lia).
      rewrite list_lookup_fmap, lookup_take_lt by lia. now rewrite Hs.
    + intros j Hj.
      destruct (decide (length es <= length ss)%nat) as [Hle|Hgt].
      * rewrite drop_ge, app_nil_r by lia.
        rewrite (lookup_ge_None_2 es) by lia.
        apply lookup_ge_None_2. rewrite length_fmap, length_take. lia.
      * rewrite lookup_app_r
          by (rewrite length_fmap, length_take; lia).
        rewrite length_fmap, length_take, lookup_drop. f_equal. lia.
Qed.

Lemma Load_fills_string_array_witness :
  exists es',
    loadField gitTest Default 0%nat 0%nat arrayField ∅ (worldWith arrayZero) =
      (Ret ∅,
       {| trace := trace (ran (worldWith arrayZero)
                            (getArgs Default "ghq.root" []));
          heap := <[0%nat := VStruct (<[0%nat := VArray es']>
                                        [VArray [VString ""; VString "";
                                                 VString ""]])]>
                    (heap (worldWith arrayZero)) |}) /\
    es' = (VString <$> take (length [VString ""; VString ""; VString ""])
                         ["~/dev"; "~/go/src"]) ++
          drop (length ["~/dev"; "~/go/src"])
            [VString ""; VString ""; VString ""] /\
    length es' = length [VString ""; VString ""; VString ""] /\
    (forall j s, (j < length [VString ""; VString ""; VString ""])%nat ->
                 ["~/dev"; "~/go/src"] !! j = Some s ->
                 es' !! j = Some (VString s)) /\
    (forall j, (length ["~/dev"; "~/go/src"] <= j)%nat ->
               es' !! j = [VString ""; VString ""; VString ""] !! j).
Proof.
  apply (Load_fills_string_array gitTest Default 0%nat 0%nat arrayField ∅
           (worldWith arrayZero)
           (ran (worldWith arrayZero) (getArgs Default "ghq.root" []))
           ["~/dev"; "~/go/src"]
           [VArray [VString ""; VString ""; VString ""]]
           [VString ""; VString ""; VString ""]);
    reflexivity.
Defined.

(** ** [Config.Load] on a pointer to a struct *)

Lemma Load_struct_pointer (git : Git) (c : Config) (t : rtype) (l : loc) :
  kindOf t = Ptr -> kindOf (Elem t) = Struct ->
  Load git c (Iface t (VPtr (Some l))) =
    (errs ← loadFields git c l 0 (fieldsOf (Elem t)) ∅;
     mret (LoadError_ (Any (MkMap errs)))).
Proof. intros Ht He. unfold Load. now rewrite Ht, He. Qed.

Lemma Any_of_entry (m : gmap string error) (name : string) (err : error) :
  m !! name = Some err -> Any (MkMap m) = MkMap m.
Proof.
  intros H. unfold Any. simpl.
  destruct (size m =? 0)%nat eqn:E; [|reflexivity].
  apply Nat.eqb_eq, map_size_empty_iff in E. subst m.
  rewrite lookup_empty in H. discriminate.
Qed.

(** ** [Config.Load]: what it leaves alone *)

Lemma fieldFails_not_succeeds (git : Git) (c : Config) (ft : StructField)
    (w w1 : World) (err : error) :
  fieldFails git c ft w err w1 -> fieldSucceeds git c ft w -> False.
Proof.
  intros [_ Hf] [_ (m & w2 & Hm & Hs)]. rewrite Hm in Hf.
  destruct Hf as [Hf Hnil]. rewrite Hs in Hf. inversion Hf; subst.
  discriminate.
Qed.

Lemma unmanaged_iff (ft : StructField) :
  CanSet ft = false \/ Tag_Get (Tag ft) "gitconfig" = "" ->
  managed ft = false.
Proof.
  unfold managed. intros [-> | ->]; [reflexivity|].
  simpl. apply andb_false_r.
Qed.

(** C8. After [Load] on a pointer to a struct, whether it returned or
    panicked: nothing but the struct was written; the commands run are
    those of the first fields of the struct, as far as [Load] got, each
    the command of a settable and tagged field; a field is what it was
    unless [Load] reached it in a world in which its accessor succeeded;
    so a field that cannot be set or has no tag is what it was and has no
    command, and so is a field whose accessor failed. *)
Theorem Load_frame (git : Git) (c : Config) (t : rtype) (l : loc)
    (w w' : World) (r : Res error) :
  kindOf t = Ptr ->
  kindOf (Elem t) = Struct ->
  Load git c (Iface t (VPtr (Some l))) w = (r, w') ->
  (forall l', l' <> l -> heap w' !! l' = heap w !! l') /\
  (exists k, (k <= length (fieldsOf (Elem t)))%nat /\
             trace w' =
               trace w ++ omap (fieldQuery c) (take k (fieldsOf (Elem t))) /\
             (forall e, r = Ret e -> k = length (fieldsOf (Elem t)))) /\
  (forall j ft,
     fieldsOf (Elem t) !! j = Some ft ->
     (fieldAt (heap w') l j = fieldAt (heap w) l j \/
      exists errsj wj,
        loadFields git c l 0 (take j (fieldsOf (Elem t))) ∅ w =
          (Ret errsj, wj) /\
        fieldSucceeds git c ft wj) /\
     (CanSet ft = false \/ Tag_Get (Tag ft) "gitconfig" = "" ->
      fieldAt (heap w') l j = fieldAt (heap w) l j /\
      fieldQuery c ft = None) /\
     (forall errsj wj err w1,
        loadFields git c l 0 (take j (fieldsOf (Elem t))) ∅ w =
          (Ret errsj, wj) ->
        fieldFails git c ft wj err w1 ->
        fieldAt (heap w') l j = fieldAt (heap w) l j)).
Proof.
  intros Ht He HLoad. rewrite (Load_struct_pointer git c t l Ht He) in HLoad.
  assert (exists r0,
            loadFields git c l 0 (fieldsOf (Elem t)) ∅ w = (r0, w') /\
            (forall e, r = Ret e -> exists errs', r0 = Ret errs')) as
    (r0 & Hloop & Hret).
  { apply bind_inv in HLoad as [(errs' & w2 & H1 & H2) | (msg & H1 & ->)].
    - inversion H2; subst. eauto.
    - exists (Panic msg). split; [exact H1|]. discriminate. }
  destruct (loadFields_world _ _ _ _ _ _ _ _ _ Hloop)
    as (A & _ & S & (k & Hk & T & R)).
  split; [exact A|]. split.
  { exists k. split; [exact Hk|]. split; [exact T|].
    intros e Hr. destruct (Hret e Hr) as [errs' ->]. eauto. }
  intros j ft Hj. specialize (S j ft Hj). simpl in S.
  split; [exact S|]. split.
  - intros Hun. apply unmanaged_iff in Hun. split.
    + destruct S as [S | (_ & _ & _ & [Hm _])]; [exact S | congruence].
    + unfold fieldQuery. now rewrite Hun.
  - intros errsj wj err w1 Hreach Hfail.
    destruct S as [S | (errsj' & wj' & Hreach' & Hs)]; [exact S|].
    rewrite Hreach in Hreach'. inversion Hreach'; subst.
    destruct (fieldFails_not_succeeds _ _ _ _ _ _ Hfail Hs).
Qed.

Lemma Load_frame_witness :
  fieldAt
    (heap (snd (Load gitTest Default (pointerTo mixedStruct)
                  (worldWith mixedValue)))) 0%nat 3%nat =
    fieldAt (heap (worldWith mixedValue)) 0%nat 3%nat /\
  fieldQuery Default (mkStructField "Plain" "" TString []) = None.
Proof.
  destruct (Load_frame gitTest Default (TPtr mixedStruct) 0%nat
              (worldWith mixedValue)
              (snd (Load gitTest Default (pointerTo mixedStruct)
                      (worldWith mixedValue)))
              (fst (Load gitTest Default (pointerTo mixedStruct)
                      (worldWith mixedValue)))
              eq_refl eq_refl (surjective_pairing _))
    as (_ & _ & Hfields).
  destruct (Hfields 3%nat (mkStructField "Plain" "" TString []) eq_refl)
    as (_ & Hunmanaged & _).
  apply Hunmanaged. right. reflexivity.
Defined.

(** A settable and tagged field of a kind outside the switch gets the
    error of the [default] branch under its name, and nothing else
    happens. *)
Lemma loadField_unsupported_kind (git : Git) (c : Config) (l : loc)
    (i : nat) (ft : StructField) (errs : gmap string error) (w : World) :
  managed ft = true ->
  accessorErr git c (kindOf (Type_ ft)) (keyOf ft) = None ->
  loadField git c l i ft errs w =
    (Ret (<[Name ft := fmtError "cannot populate field %q of type %s"
                         [ArgString (Name ft); ArgTypeString (Type_ ft)]]>
            errs),
     w).
Proof.
  intros Hm Hk. eapply loadField_fails.
  split; [exact Hm|]. rewrite Hk. split; reflexivity.
Qed.

(** * Further properties *)

(** ** What [get] makes of the output *)

Lemma append_nil_l (x : string) : ("" ++ x)%string = x.
Proof. reflexivity. Qed.

Lemma append_cons (c : ascii) (v x : string) :
  (String c v ++ x)%string = String c (v ++ x)%string.
Proof. reflexivity. Qed.

Lemma append_assoc (a b c : string) :
  ((a ++ b) ++ c)%string = (a ++ (b ++ c))%string.
Proof.
  induction a as [|ch a IH]; [reflexivity|].
  now rewrite !append_cons, IH.
Qed.

Lemma Split_decode (s : string) (sep : ascii) :
  exists vs tail,
    Split s sep = vs ++ [tail] /\
    s = fold_right (fun v acc => (v ++ String sep acc)%string) tail vs /\
    Forall (fun v => countByte sep v = 0%nat) vs /\
    countByte sep tail = 0%nat.
Proof.
  induction s as [|c s (vs & tail & Hs & Hj & Hvs & Ht)].
  - exists [], "". repeat split; constructor.
  - simpl. destruct (Ascii.eqb c sep) eqn:E.
    + apply Ascii.eqb_eq in E. subst c.
      exists ("" :: vs), tail. rewrite Hs.
      split; [reflexivity|]. split; [|split; [now constructor | exact Ht]].
      simpl. now rewrite append_nil_l, <- Hj.
    + rewrite Hs. destruct vs as [|v vs].
      * exists [], (String c tail). simpl in Hj. subst s.
        split; [reflexivity|]. split; [reflexivity|].
        split; [constructor|]. simpl. now rewrite E.
      * exists (String c v :: vs), tail.
        split; [reflexivity|]. split.
        -- simpl in *. now rewrite append_cons, <- Hj.
        -- inversion Hvs; subst. split; [|exact Ht].
           constructor; [|assumption]. simpl. now rewrite E.
Qed.

Lemma gitOutput_fold (vs : list string) (tail : string) :
  fold_right (fun v acc => (v ++ String NUL acc)%string) tail vs =
    (gitOutput vs ++ tail)%string.
Proof.
  induction vs as [|v vs IH]; simpl; [reflexivity|].
  now rewrite IH, append_assoc, append_cons.
Qed.

Lemma get_returns_terminated_entries_aux (out : string) :
  exists vs tail,
    Split out NUL = vs ++ [tail] /\
    out = (gitOutput vs ++ tail)%string /\
    Forall (fun v => countByte NUL v = 0%nat) vs /\
    countByte NUL tail = 0%nat.
Proof.
  destruct (Split_decode out NUL) as (vs & tail & Hs & Hj & Hvs & Ht).
  exists vs, tail. rewrite gitOutput_fold in Hj. auto.
Qed.

(** X1. When [git] exits with status 0, [get] returns exactly the
    entries of the output that a NUL byte ends, in their order: the
    output is those entries, each followed by a NUL byte, and then a rest
    without NUL byte, which [get] drops; no value returned holds a NUL
    byte and there are as many values as NUL bytes in the output. *)
Theorem get_returns_terminated_entries (git : Git) (c : Config)
    (key : string) (extra : list string) (w : World) (out : string) :
  git (trace w) (getArgs c key extra) = Exit0 out ->
  exists vs tail,
    get git c key extra w =
      (Ret (vs, nil_error), ran w (getArgs c key extra)) /\
    out = (gitOutput vs ++ tail)%string /\
    countByte NUL tail = 0%nat /\
    Forall (fun v => countByte NUL v = 0%nat) vs /\
    length vs = countByte NUL out.
Proof.
  intros Hgit.
  destruct (Split_decode out NUL) as (vs & tail & Hs & Hj & Hvs & Ht).
  exists vs, tail. rewrite gitOutput_fold in Hj.
  pose proof (Split_length out NUL) as Hlen.
  rewrite Hs, length_app in Hlen. simpl in Hlen.
  repeat split; try assumption; [|lia].
  rewrite get_eq, Hgit, Hs, length_app. simpl.
  replace (length vs + 1 - 1)%nat with (length vs) by lia.
  now rewrite take_app_length.
Qed.

Lemma get_returns_terminated_entries_witness :
  exists vs tail,
    get gitTest Default "ghq.root" [] (worldWith testZero) =
      (Ret (vs, nil_error),
       ran (worldWith testZero) (getArgs Default "ghq.root" [])) /\
    gitOutput ["~/dev"; "~/go/src"] = (gitOutput vs ++ tail)%string /\
    countByte NUL tail = 0%nat /\
    Forall (fun v => countByte NUL v = 0%nat) vs /\
    length vs = countByte NUL (gitOutput ["~/dev"; "~/go/src"]).
Proof.
  apply (get_returns_terminated_entries gitTest Default "ghq.root" []
           (worldWith testZero) (gitOutput ["~/dev"; "~/go/src"])).
  reflexivity.
Defined.

(** ** The message of a [RunError] *)

Lemma TrimRight_decode (s cutset : string) :
  exists t,
    s = (TrimRight s cutset ++ t)%string /\
    allIn cutset t = true /\
    (forall ch, lastByte (TrimRight s cutset) = Some ch ->
                inCutset ch cutset = false).
Proof.
  induction s as [|c s (t & Hs & Ht & Hl)].
  - exists "". repeat split. intros ch H. discriminate.
  - simpl. destruct (TrimRight s cutset) as [|k kept] eqn:E.
    + rewrite append_nil_l in Hs. subst t.
      destruct (inCutset c cutset) eqn:Ec.
      * exists (String c s). split; [reflexivity|]. split.
        -- simpl. now rewrite Ec, Ht.
        -- intros ch H. discriminate.
      * exists s. split; [reflexivity|]. split; [exact Ht|].
        intros ch H. now inversion H; subst.
    + exists t. split; [now rewrite append_cons, <- Hs|].
      split; [exact Ht | exact Hl].
Qed.

(** X2. When [git] exits with another status than 0, [get] returns no
    value and a [RunError] that carries the exit error and, as message,
    what [git] wrote to its standard error without the newlines at its
    end: the message followed by newlines only is the standard error, and
    the message does not end in a newline. *)
Theorem get_RunError_message (git : Git) (c : Config) (key : string)
    (extra : list string) (w : World) (e : ExitError)
    (out stderr : string) :
  git (trace w) (getArgs c key extra) = ExitNonZero e out stderr ->
  exists Msg nls,
    get git c key extra w =
      (Ret ([], RunError Msg (Some e)), ran w (getArgs c key extra)) /\
    stderr = (Msg ++ nls)%string /\
    allIn newline nls = true /\
    (forall ch, lastByte Msg = Some ch -> ch <> ascii_of_nat 10).
Proof.
  intros Hgit.
  destruct (TrimRight_decode stderr newline) as (nls & Hs & Hn & Hl).
  exists (TrimRight stderr newline), nls.
  rewrite get_eq, Hgit. repeat split; try assumption.
  intros ch Hch ->. apply Hl in Hch. discriminate.
Qed.

Lemma get_RunError_message_witness :
  exists Msg nls,
    get gitTest Local "no.such" [] (worldWith testZero) =
      (Ret ([], RunError Msg (Some exit1)),
       ran (worldWith testZero) (getArgs Local "no.such" [])) /\
    "" = (Msg ++ nls)%string /\
    allIn newline nls = true /\
    (forall ch, lastByte Msg = Some ch -> ch <> ascii_of_nat 10).
Proof.
  apply (get_RunError_message gitTest Local "no.such" []
           (worldWith testZero) exit1 "" "").
  reflexivity.
Defined.

(** ** Each accessor runs [git] once *)

Lemma GetPath_world (git : Git) (c : Config) (key : string) (w : World) :
  snd (GetPath git c key w) = ran w (getArgs c key ["--path"]).
Proof.
  destruct (get_total git c key ["--path"] w) as (values & err & H).
  rewrite (GetPath_of_get _ _ _ _ _ _ _ H).
  destruct (negb (is_nil err)); [reflexivity|].
  destruct (last values); reflexivity.
Qed.

Lemma GetPaths_world (git : Git) (c : Config) (key : string) (w : World) :
  snd (GetPaths git c key w) = ran w (getArgs c key ["--path"]).
Proof.
  destruct (get_total git c key ["--path"] w) as (values & err & H).
  unfold GetPaths. now rewrite H.
Qed.

(** X3. Whatever [git] answers, and whether the accessor returns or
    faults, each of the six accessors runs exactly one command,
    [config --get-all --null], then the tokens of the source, then the
    hint of the accessor if it has one, then the key, and writes nothing
    to the heap. *)
Theorem accessors_run_one_command (git : Git) (c : Config) (key : string)
    (w : World) :
  let cmd hint :=
    ["config"; "--get-all"; "--null"] ++ Source_ c ++ hint ++ [key] in
  let after hint := {| trace := trace w ++ [cmd hint]; heap := heap w |} in
  snd (GetString git c key w) = after [] /\
  snd (GetStrings git c key w) = after [] /\
  snd (GetPath git c key w) = after ["--path"] /\
  snd (GetPaths git c key w) = after ["--path"] /\
  snd (GetBool git c key w) = after ["--bool"] /\
  snd (GetInt64 git c key w) = after ["--int"].
Proof.
  assert (forall hint,
            ran w (getArgs c key hint) =
            {| trace := trace w ++
                        [["config"; "--get-all"; "--null"] ++ Source_ c ++
                         hint ++ [key]];
               heap := heap w |}) as Hran.
  { intros hint. unfold ran, getArgs. now rewrite <- !app_assoc. }
  intros cmd after. unfold after, cmd.
  repeat split; rewrite <- Hran.
  - apply GetString_world.
  - apply GetStrings_world.
  - apply GetPath_world.
  - apply GetPaths_world.
  - apply GetBool_world.
  - apply GetInt64_world.
Qed.

(** ** Paths *)

(** X4. When the store prints the values [vs] of a key to the query
    with the hint [--path] (at least one, each followed by a NUL byte),
    [GetPaths] returns exactly [vs], order and duplicates kept, and
    [GetPath] returns the last element of [vs]. *)
Theorem GetPaths_order_GetPath_last (git : Git) (c : Config)
    (key : string) (w : World) (vs : list string) (v : string) :
  Forall (fun s => countByte NUL s = 0%nat) vs ->
  last vs = Some v ->
  git (trace w) (getArgs c key ["--path"]) = Exit0 (gitOutput vs) ->
  GetPaths git c key w =
    (Ret (vs, nil_error), ran w (getArgs c key ["--path"])) /\
  GetPath git c key w =
    (Ret (v, nil_error), ran w (getArgs c key ["--path"])).
Proof.
  intros Hvs Hlast Hgit.
  pose proof (get_gitOutput git c key ["--path"] w vs Hvs Hgit) as Hget.
  split; [exact Hget|].
  rewrite (GetPath_of_get _ _ _ _ _ _ _ Hget). simpl.
  now rewrite Hlast.
Qed.

Lemma GetPaths_order_GetPath_last_witness :
  GetPaths gitTest Global "ghq.root" (worldWith testZero) =
    (Ret (["~/dev"; "~/go/src"], nil_error),
     ran (worldWith testZero) (getArgs Global "ghq.root" ["--path"])) /\
  GetPath gitTest Global "ghq.root" (worldWith testZero) =
    (Ret ("~/go/src", nil_error),
     ran (worldWith testZero) (getArgs Global "ghq.root" ["--path"])).
Proof.
  apply (GetPaths_order_GetPath_last gitTest Global "ghq.root"
           (worldWith testZero) ["~/dev"; "~/go/src"] "~/go/src").
  - repeat constructor.
  - reflexivity.
  - reflexivity.
Defined.

(** ** Booleans and integers *)

(** X5. When the store prints the values [v :: rest] to the query with
    the hint [--bool], [GetBool] looks at the first of them only, and
    returns true exactly when it is the literal [true]: no other
    spelling counts, and the later values of the key are not looked at. *)
Theorem GetBool_first_value_literal_true (git : Git) (c : Config)
    (key : string) (w : World) (v : string) (rest : list string) :
  Forall (fun s => countByte NUL s = 0%nat) (v :: rest) ->
  git (trace w) (getArgs c key ["--bool"]) = Exit0 (gitOutput (v :: rest)) ->
  exists b,
    GetBool git c key w =
      (Ret (b, nil_error), ran w (getArgs c key ["--bool"])) /\
    (b = true <-> v = "true").
Proof.
  intros Hvs Hgit.
  pose proof (get_gitOutput git c key ["--bool"] w _ Hvs Hgit) as Hget.
  exists (String.eqb v "true"). split.
  - now rewrite (GetBool_of_get _ _ _ _ _ _ _ Hget).
  - apply String.eqb_eq.
Qed.

Lemma GetBool_first_value_literal_true_witness :
  exists b,
    GetBool gitTest Default "pull.rebase" (worldWith testZero) =
      (Ret (b, nil_error),
       ran (worldWith testZero) (getArgs Default "pull.rebase" ["--bool"])) /\
    (b = true <-> "true" = "true").
Proof.
  apply (GetBool_first_value_literal_true gitTest Default "pull.rebase"
           (worldWith testZero) "true" []).
  - repeat constructor.
  - reflexivity.
Defined.

Lemma decimalFrom_ge (s : string) :
  forall n, isDigits s = true -> 0 <= n -> n <= decimalFrom s n.
Proof.
  induction s as [|c s IH]; simpl; intros n Hd Hn; [lia|].
  apply andb_prop in Hd as [Hc Hd]. apply andb_prop in Hc as [H1 H2].
  apply Z.leb_le in H1, H2.
  specialize (IH (n * 10 + (byteOf c - 48)) Hd). lia.
Qed.

Lemma ParseUint_loop_digits (s : string) :
  forall n,
    isDigits s = true -> 0 <= n <= maxUint64 ->
    ParseUint_loop s n =
      if decimalFrom s n <=? maxUint64 then (decimalFrom s n, None)
      else (maxUint64, Some ErrRange).
Proof.
  unfold maxUint64.
  change (2 ^ 64 - 1) with 18446744073709551615.
  induction s as [|c s IH]; intros n Hd Hn.
  - simpl. destruct (n <=? 18446744073709551615) eqn:E; [reflexivity|].
    apply Z.leb_gt in E. lia.
  - simpl in Hd. apply andb_prop in Hd as [Hc Hd].
    pose proof Hc as Hc'. apply andb_prop in Hc' as [H1 H2].
    apply Z.leb_le in H1, H2.
    cbn [ParseUint_loop decimalFrom]. rewrite Hc.
    unfold maxUint64.
    change (2 ^ 64 - 1) with 18446744073709551615.
    change (18446744073709551615 / 10 + 1) with 1844674407370955162.
    change (2 ^ 64) with 18446744073709551616.
    set (d := byteOf c - 48) in *.
    assert (0 <= d <= 9) as Hdig by (unfold d; lia).
    destruct (10 <=? d) eqn:E10; [apply Z.leb_le in E10; lia|].
    pose proof (decimalFrom_ge s (n * 10 + d) Hd ltac:(lia)) as Hge.
    destruct (1844674407370955162 <=? n) eqn:Ecut.
    + apply Z.leb_le in Ecut.
      destruct (decimalFrom s (n * 10 + d) <=? 18446744073709551615) eqn:E;
        [apply Z.leb_le in E; lia | reflexivity].
    + apply Z.leb_gt in Ecut.
      rewrite (Z.mod_small (n * 10)) by lia.
      destruct (Z_lt_le_dec (n * 10 + d) 18446744073709551616) as [Hs|Hb].
      * rewrite (Z.mod_small (n * 10 + d)) by lia.
        destruct (n * 10 + d <? n * 10) eqn:E1; [apply Z.ltb_lt in E1; lia|].
        destruct (18446744073709551615 <? n * 10 + d) eqn:E2;
          [apply Z.ltb_lt in E2; lia|].
        simpl. apply IH; [exact Hd | lia].
      * assert ((n * 10 + d) mod 18446744073709551616 =
                n * 10 + d - 18446744073709551616) as ->.
        { symmetry. apply (Z.mod_unique _ _ 1); lia. }
        destruct (n * 10 + d - 18446744073709551616 <? n * 10) eqn:E1;
          [|apply Z.ltb_ge in E1; lia].
        simpl.
        destruct (decimalFrom s (n * 10 + d) <=? 18446744073709551615) eqn:E;
          [apply Z.leb_le in E; lia | reflexivity].
Qed.

Lemma ParseUint_digits (ds : string) :
  isDigits ds = true -> ds <> "" ->
  ParseUint ds =
    if decimalValue ds <=? maxUint64 then (decimalValue ds, None)
    else (maxUint64, Some ErrRange).
Proof.
  intros Hd Hne. unfold ParseUint, decimalValue.
  destruct ds as [|c ds]; [congruence|].
  apply ParseUint_loop_digits; [exact Hd|]. unfold maxUint64. lia.
Qed.

(** The part of [strconv.ParseInt] after the sign, [s0] being the whole
    string and [ds] its digits. *)
Lemma ParseInt_signed (neg : bool) (s0 ds : string) :
  isDigits ds = true -> ds <> "" ->
  match ParseUint ds with
  | (_, Some ErrSyntax) => (0, NumError "ParseInt" s0 ErrSyntax)
  | (un, _) =>
      let cutoff := 2 ^ 63 in
      if negb neg && (cutoff <=? un)
      then (cutoff - 1, NumError "ParseInt" s0 ErrRange)
      else if neg && (cutoff <? un)
      then (- cutoff, NumError "ParseInt" s0 ErrRange)
      else
        let n := wrapInt 64 un in
        (if neg then wrapInt 64 (- n) else n, nil_error)
  end =
  if neg
  then (if decimalValue ds <=? 2 ^ 63 then (- decimalValue ds, nil_error)
        else (- 2 ^ 63, NumError "ParseInt" s0 ErrRange))
  else (if decimalValue ds <? 2 ^ 63 then (decimalValue ds, nil_error)
        else (2 ^ 63 - 1, NumError "ParseInt" s0 ErrRange)).
Proof.
  intros Hd Hne.
  rewrite (ParseUint_digits ds Hd Hne).
  pose proof (decimalFrom_ge ds 0 Hd ltac:(lia)) as Hpos.
  fold (decimalValue ds) in Hpos.
  unfold maxUint64.
  change (2 ^ 64 - 1) with 18446744073709551615.
  change (2 ^ 63) with 9223372036854775808.
  set (v := decimalValue ds) in *.
  destruct (v <=? 18446744073709551615) eqn:Emax;
    [apply Z.leb_le in Emax | apply Z.leb_gt in Emax].
  - destruct neg; cbv zeta; simpl negb; simpl andb.
    + destruct (9223372036854775808 <? v) eqn:E1;
        [apply Z.ltb_lt in E1 | apply Z.ltb_ge in E1].
      * destruct (v <=? 9223372036854775808) eqn:E2;
          [apply Z.leb_le in E2; lia | reflexivity].
      * destruct (v <=? 9223372036854775808) eqn:E2;
          [|apply Z.leb_gt in E2; lia].
        f_equal.
        destruct (Z.eq_dec v 9223372036854775808) as [->|Hv];
          [reflexivity|].
        rewrite (wrapInt64_small v)
          by (change (2 ^ 63) with 9223372036854775808; lia).
        apply wrapInt64_small.
        change (2 ^ 63) with 9223372036854775808. lia.
    + destruct (9223372036854775808 <=? v) eqn:E1;
        [apply Z.leb_le in E1 | apply Z.leb_gt in E1].
      * destruct (v <? 9223372036854775808) eqn:E2;
          [apply Z.ltb_lt in E2; lia | reflexivity].
      * destruct (v <? 9223372036854775808) eqn:E2;
          [|apply Z.ltb_ge in E2; lia].
        f_equal. apply wrapInt64_small.
        change (2 ^ 63) with 9223372036854775808. lia.
  - destruct neg; cbv zeta; simpl negb; simpl andb.
    + destruct (v <=? 9223372036854775808) eqn:E2;
        [apply Z.leb_le in E2; lia | reflexivity].
    + destruct (v <? 9223372036854775808) eqn:E2;
        [apply Z.ltb_lt in E2; lia | reflexivity].
Qed.

(** What [strconv.ParseInt] makes of digits, of digits after a plus sign
    and of digits after a minus sign. *)
Lemma ParseInt_decimal (ds : string) :
  isDigits ds = true -> ds <> "" ->
  ParseInt ds =
    (if decimalValue ds <? 2 ^ 63 then (decimalValue ds, nil_error)
     else (2 ^ 63 - 1, NumError "ParseInt" ds ErrRange)) /\
  ParseInt (String "+" ds) =
    (if decimalValue ds <? 2 ^ 63 then (decimalValue ds, nil_error)
     else (2 ^ 63 - 1, NumError "ParseInt" (String "+" ds) ErrRange)) /\
  ParseInt (String "-" ds) =
    (if decimalValue ds <=? 2 ^ 63 then (- decimalValue ds, nil_error)
     else (- 2 ^ 63, NumError "ParseInt" (String "-" ds) ErrRange)).
Proof.
  intros Hd Hne. split; [|split].
  - destruct ds as [|c ds'] eqn:Eds; [congruence|].
    assert (48 <= byteOf c) as Hc.
    { simpl in Hd. apply andb_prop in Hd as [Hd' _].
      apply andb_prop in Hd' as [Hd' _]. now apply Z.leb_le in Hd'. }
    destruct (digit_not_sign c Hc) as [Hplus Hminus].
    unfold ParseInt. rewrite Hplus, Hminus.
    exact (ParseInt_signed false (String c ds') (String c ds') Hd Hne).
  - exact (ParseInt_signed false (String "+" ds) ds Hd Hne).
  - exact (ParseInt_signed true (String "-" ds) ds Hd Hne).
Qed.

Lemma isDigits_no_NUL (ds : string) :
  isDigits ds = true -> countByte NUL ds = 0%nat.
Proof.
  induction ds as [|c ds IH]; simpl; intros H; [reflexivity|].
  apply andb_prop in H as [Hc Hd]. apply andb_prop in Hc as [Hc _].
  apply Z.leb_le in Hc.
  destruct (Ascii.eqb c NUL) eqn:E.
  - apply Ascii.eqb_eq in E. subst c. vm_compute in Hc. now destruct Hc.
  - now apply IH.
Qed.

(** X6. When the first value the store prints to the query with the
    hint [--int] is a string of decimal digits, with a minus sign in
    front or not, [GetInt64] returns the number it writes if that fits
    an [int64]; if it does not, it returns the bound of [int64] on that
    side with a range error. The later values are not looked at. *)
Theorem GetInt64_decimal (git : Git) (c : Config) (key : string)
    (w : World) (neg : bool) (ds : string) (rest : list string) :
  isDigits ds = true ->
  ds <> "" ->
  Forall (fun s => countByte NUL s = 0%nat) rest ->
  git (trace w) (getArgs c key ["--int"]) =
    Exit0 (gitOutput ((if neg then String "-" ds else ds) :: rest)) ->
  GetInt64 git c key w =
    (Ret (if neg
          then (if decimalValue ds <=? 2 ^ 63
                then (- decimalValue ds, nil_error)
                else (- 2 ^ 63,
                      NumError "ParseInt" (String "-" ds) ErrRange))
          else (if decimalValue ds <? 2 ^ 63
                then (decimalValue ds, nil_error)
                else (2 ^ 63 - 1, NumError "ParseInt" ds ErrRange))),
     ran w (getArgs c key ["--int"])).
Proof.
  intros Hd Hne Hrest Hgit.
  assert (Forall (fun s => countByte NUL s = 0%nat)
            ((if neg then String "-" ds else ds) :: rest)) as Hvs.
  { constructor; [|exact Hrest].
    destruct neg; [|now apply isDigits_no_NUL].
    simpl. now apply isDigits_no_NUL. }
  pose proof (get_gitOutput git c key ["--int"] w _ Hvs Hgit) as Hget.
  rewrite (GetInt64_of_get _ _ _ _ _ _ _ Hget). simpl.
  destruct (ParseInt_decimal ds Hd Hne) as (Hplain & _ & Hminus).
  destruct neg; [now rewrite Hminus | now rewrite Hplain].
Qed.

Lemma GetInt64_decimal_witness :
  GetInt64 gitTest Default "gc.auto" (worldWith testZero) =
    (Ret (if decimalValue "6700" <? 2 ^ 63
          then (decimalValue "6700", nil_error)
          else (2 ^ 63 - 1, NumError "ParseInt" "6700" ErrRange)),
     ran (worldWith testZero) (getArgs Default "gc.auto" ["--int"])).
Proof.
  apply (GetInt64_decimal gitTest Default "gc.auto" (worldWith testZero)
           false "6700" []).
  - reflexivity.
  - discriminate.
  - constructor.
  - reflexivity.
Defined.

(** ** [Config.Load]: fields whose query succeeds *)

Lemma store_field_insert (l : loc) (i : nat) (x : value) (w : World)
    (fields : list value) :
  heap w !! l = Some (VStruct fields) ->
  (i < length fields)%nat ->
  store l (setField i (fun _ => x)) w =
    (Ret tt,
     {| trace := trace w;
        heap := <[l := VStruct (<[i := x]> fields)]> (heap w) |}).
Proof.
  intros Hl Hi. unfold store.
  rewrite (alter_lookup_insert _ _ _ _ Hl). simpl.
  destruct (lookup_lt_is_Some_2 fields i Hi) as [old Hold].
  now rewrite (list_alter_lookup_insert _ _ _ _ Hold).
Qed.

(** X7. A settable, tagged field of kind string whose key has the
    values [vs] gets the last of them, as [GetString] does: the body of
    the loop of [Load] runs the one command, writes that value to the
    field and records no error. *)
Theorem Load_string_field_gets_last_value (git : Git) (c : Config)
    (l : loc) (i : nat) (ft : StructField) (errs : gmap string error)
    (w : World) (vs : list string) (v : string) (fields : list value) :
  managed ft = true ->
  kindOf (Type_ ft) = String_ ->
  Forall (fun s => countByte NUL s = 0%nat) vs ->
  last vs = Some v ->
  git (trace w) (getArgs c (keyOf ft) []) = Exit0 (gitOutput vs) ->
  heap w !! l = Some (VStruct fields) ->
  (i < length fields)%nat ->
  loadField git c l i ft errs w =
    (Ret errs,
     {| trace := trace w ++ [getArgs c (keyOf ft) []];
        heap := <[l := VStruct (<[i := VString v]> fields)]> (heap w) |}).
Proof.
  intros Hm Hk Hvs Hlast Hgit Hl Hi.
  destruct (managed_inv ft Hm) as (Hset & Htag & Hkey).
  pose proof (get_gitOutput git c (keyOf ft) [] w vs Hvs Hgit) as Hget0.
  pose proof (GetString_of_get _ _ _ _ _ _ _ Hget0) as Hget.
  simpl in Hget. rewrite Hlast in Hget.
  unfold loadField. rewrite Hset, Htag, Hkey, Hk. simpl.
  rewrite (bind_Ret _ _ _ _ _ Hget). simpl.
  unfold SetString. rewrite Hk.
  now rewrite (bind_Ret _ _ _ _ _
                 (store_field_insert l i (VString v)
                    (ran w (getArgs c (keyOf ft) [])) fields Hl Hi)).
Qed.

Lemma Load_string_field_gets_last_value_witness :
  loadField gitTest Default 0%nat 0%nat
    (mkStructField "UserEmail" "" TString (gitconfigTag "user.email"))
    ∅ (worldWith testZero) =
    (Ret ∅,
     {| trace := trace (worldWith testZero) ++
                 [getArgs Default "user.email" []];
        heap := <[0%nat := VStruct
                    (<[0%nat := VString "local@example.com"]>
                       [VString ""; VInt 0; VBool false; VSlice []])]>
                  (heap (worldWith testZero)) |}).
Proof.
  apply (Load_string_field_gets_last_value gitTest Default 0%nat 0%nat
           (mkStructField "UserEmail" "" TString (gitconfigTag "user.email"))
           ∅ (worldWith testZero)
           ["global@example.com"; "local@example.com"] "local@example.com"
           [VString ""; VInt 0; VBool false; VSlice []]).
  - reflexivity.
  - reflexivity.
  - repeat constructor.
  - reflexivity.
  - reflexivity.
  - reflexivity.
  - simpl. lia.
Defined.

Lemma wrapInt_range (bits x : Z) :
  0 < bits ->
  - 2 ^ (bits - 1) <= wrapInt bits x < 2 ^ (bits - 1).
Proof.
  intros Hb. unfold wrapInt.
  assert (2 ^ bits = 2 * 2 ^ (bits - 1)) as Hp.
  { replace bits with (Z.succ (bits - 1)) at 1 by lia.
    apply Z.pow_succ_r. lia. }
  assert (0 < 2 ^ (bits - 1)) as Hpos by (apply Z.pow_pos_nonneg; lia).
  pose proof (Z.mod_pos_bound (x + 2 ^ (bits - 1)) (2 ^ bits) ltac:(lia)).
  lia.
Qed.

Lemma wrapInt_small (bits x : Z) :
  0 < bits ->
  - 2 ^ (bits - 1) <= x < 2 ^ (bits - 1) -> wrapInt bits x = x.
Proof.
  intros Hb Hx. unfold wrapInt.
  assert (2 ^ bits = 2 * 2 ^ (bits - 1)) as Hp.
  { replace bits with (Z.succ (bits - 1)) at 1 by lia.
    apply Z.pow_succ_r. lia. }
  rewrite Z.mod_small by lia. lia.
Qed.

Lemma wrapInt_congruent (bits x : Z) :
  0 < bits -> (wrapInt bits x - x) mod 2 ^ bits = 0.
Proof.
  intros Hb. unfold wrapInt.
  assert (0 < 2 ^ bits) as Hpos by (apply Z.pow_pos_nonneg; lia).
  rewrite (Z.mod_eq (x + 2 ^ (bits - 1)) (2 ^ bits)) by lia.
  replace (x + 2 ^ (bits - 1) -
           2 ^ bits * ((x + 2 ^ (bits - 1)) / 2 ^ bits) -
           2 ^ (bits - 1) - x)
    with (- ((x + 2 ^ (bits - 1)) / 2 ^ bits) * 2 ^ bits) by ring.
  apply Z.mod_mul. lia.
Qed.

Lemma intBits_positive (k : Kind) (bits : Z) :
  intBits k = Some bits -> 0 < bits.
Proof. destruct k; simpl; intros H; inversion H; lia. Qed.

(** X8. A settable, tagged field of a signed integer kind of [bits] bits
    whose [GetInt64] succeeds with [n] gets [n] narrowed to [bits] bits
    and no error is recorded: the value stored lies in the range of the
    kind, differs from [n] by a multiple of [2^bits], and is [n] itself
    exactly when [n] is in that range; a value out of the range is cut
    silently. *)
Theorem Load_int_field_narrows (git : Git) (c : Config) (l : loc) (i : nat)
    (ft : StructField) (errs : gmap string error) (w w1 : World) (n : Z)
    (bits : Z) (fields : list value) :
  managed ft = true ->
  intBits (kindOf (Type_ ft)) = Some bits ->
  GetInt64 git c (keyOf ft) w = (Ret (n, nil_error), w1) ->
  heap w !! l = Some (VStruct fields) ->
  (i < length fields)%nat ->
  loadField git c l i ft errs w =
    (Ret errs,
     {| trace := trace w1;
        heap := <[l := VStruct (<[i := VInt (wrapInt bits n)]> fields)]>
                  (heap w) |}) /\
  - 2 ^ (bits - 1) <= wrapInt bits n < 2 ^ (bits - 1) /\
  (wrapInt bits n - n) mod 2 ^ bits = 0 /\
  (wrapInt bits n = n <-> - 2 ^ (bits - 1) <= n < 2 ^ (bits - 1)).
Proof.
  intros Hm Hbits Hget Hl Hi.
  pose proof (intBits_positive _ _ Hbits) as Hpos.
  destruct (managed_inv ft Hm) as (Hset & Htag & Hkey).
  pose proof (GetInt64_world git c (keyOf ft) w) as Hw.
  rewrite Hget in Hw. simpl in Hw. subst w1.
  split; [|split; [now apply wrapInt_range | split;
                   [now apply wrapInt_congruent|]]].
  - unfold loadField. rewrite Hset, Htag, Hkey. simpl.
    destruct (kindOf (Type_ ft)) eqn:Ek; simpl in Hbits; inversion Hbits;
      subst bits;
      rewrite (bind_Ret _ _ _ _ _ Hget); simpl;
      unfold SetInt; rewrite Ek;
      now rewrite (bind_Ret _ _ _ _ _
                     (store_field_insert l i _
                        (ran w (getArgs c (keyOf ft) ["--int"]))
                        fields Hl Hi)).
  - split; [|now apply wrapInt_small].
    intros <-. now apply wrapInt_range.
Qed.

Lemma Load_int_field_narrows_witness :
  loadField gitTest Default 0%nat 1%nat
    (mkStructField "GCAuto" "" TInt8 (gitconfigTag "gc.auto"))
    ∅ (worldWith testZero) =
    (Ret ∅,
     {| trace := trace (ran (worldWith testZero)
                          (getArgs Default "gc.auto" ["--int"]));
        heap := <[0%nat := VStruct
                    (<[1%nat := VInt (wrapInt 8 6700)]>
                       [VString ""; VInt 0; VBool false; VSlice []])]>
                  (heap (worldWith testZero)) |}) /\
  - 2 ^ (8 - 1) <= wrapInt 8 6700 < 2 ^ (8 - 1) /\
  (wrapInt 8 6700 - 6700) mod 2 ^ 8 = 0 /\
  (wrapInt 8 6700 = 6700 <-> - 2 ^ (8 - 1) <= 6700 < 2 ^ (8 - 1)).
Proof.
  apply (Load_int_field_narrows gitTest Default 0%nat 1%nat
           (mkStructField "GCAuto" "" TInt8 (gitconfigTag "gc.auto"))
           ∅ (worldWith testZero)
           (ran (worldWith testZero) (getArgs Default "gc.auto" ["--int"]))
           6700 8 [VString ""; VInt 0; VBool false; VSlice []]).
  - reflexivity.
  - reflexivity.
  - reflexivity.
  - reflexivity.
  - simpl. lia.
Defined.

(** X9. A settable, tagged field of kind bool whose key has the values
    [v :: rest] is set from the first of them, to true exactly when it
    is the literal [true], where a string field takes the last value. *)
Theorem Load_bool_field_first_value (git : Git) (c : Config) (l : loc)
    (i : nat) (ft : StructField) (errs : gmap string error) (w : World)
    (v : string) (rest : list string) (fields : list value) :
  managed ft = true ->
  kindOf (Type_ ft) = Bool ->
  Forall (fun s => countByte NUL s = 0%nat) (v :: rest) ->
  git (trace w) (getArgs c (keyOf ft) ["--bool"]) =
    Exit0 (gitOutput (v :: rest)) ->
  heap w !! l = Some (VStruct fields) ->
  (i < length fields)%nat ->
  loadField git c l i ft errs w =
    (Ret errs,
     {| trace := trace w ++ [getArgs c (keyOf ft) ["--bool"]];
        heap := <[l := VStruct (<[i := VBool (String.eqb v "true")]> fields)]>
                  (heap w) |}).
Proof.
  intros Hm Hk Hvs Hgit Hl Hi.
  destruct (managed_inv ft Hm) as (Hset & Htag & Hkey).
  pose proof (get_gitOutput git c (keyOf ft) ["--bool"] w _ Hvs Hgit) as Hget.
  pose proof (GetBool_of_get _ _ _ _ _ _ _ Hget) as HB. simpl in HB.
  unfold loadField. rewrite Hset, Htag, Hkey, Hk. simpl.
  rewrite (bind_Ret _ _ _ _ _ HB). simpl.
  unfold SetBool. rewrite Hk.
  now rewrite (bind_Ret _ _ _ _ _
                 (store_field_insert l i _
                    (ran w (getArgs c (keyOf ft) ["--bool"])) fields Hl Hi)).
Qed.

Lemma Load_bool_field_first_value_witness :
  loadField gitTest Default 0%nat 2%nat
    (mkStructField "PullRebase" "" TBool (gitconfigTag "pull.rebase"))
    ∅ (worldWith testZero) =
    (Ret ∅,
     {| trace := trace (worldWith testZero) ++
                 [getArgs Default "pull.rebase" ["--bool"]];
        heap := <[0%nat := VStruct
                    (<[2%nat := VBool (String.eqb "true" "true")]>
                       [VString ""; VInt 0; VBool false; VSlice []])]>
                  (heap (worldWith testZero)) |}).
Proof.
  apply (Load_bool_field_first_value gitTest Default 0%nat 2%nat
           (mkStructField "PullRebase" "" TBool (gitconfigTag "pull.rebase"))
           ∅ (worldWith testZero) "true" []
           [VString ""; VInt 0; VBool false; VSlice []]).
  - reflexivity.
  - reflexivity.
  - repeat constructor.
  - reflexivity.
  - reflexivity.
  - simpl. lia.
Defined.

Lemma kindOf_underlying (t : rtype) : kindOf (underlying t) = kindOf t.
Proof. induction t; simpl; auto. Qed.

(** X10. A settable, tagged field whose type is [[]string], or a defined
    type with that underlying type, and whose key has the values [vs],
    is set to the slice of exactly these values in their order; what the
    field held before is gone, and no error is recorded. *)
Theorem Load_slice_field_replaced (git : Git) (c : Config) (l : loc)
    (i : nat) (ft : StructField) (errs : gmap string error) (w : World)
    (vs : list string) (fields : list value) :
  managed ft = true ->
  underlying (Type_ ft) = TSlice TString ->
  Forall (fun s => countByte NUL s = 0%nat) vs ->
  git (trace w) (getArgs c (keyOf ft) []) = Exit0 (gitOutput vs) ->
  heap w !! l = Some (VStruct fields) ->
  (i < length fields)%nat ->
  loadField git c l i ft errs w =
    (Ret errs,
     {| trace := trace w ++ [getArgs c (keyOf ft) []];
        heap := <[l := VStruct (<[i := VSlice (VString <$> vs)]> fields)]>
                  (heap w) |}).
Proof.
  intros Hm Hu Hvs Hgit Hl Hi.
  destruct (managed_inv ft Hm) as (Hset & Htag & Hkey).
  assert (kindOf (Type_ ft) = Slice) as Hk
    by now rewrite <- kindOf_underlying, Hu.
  pose proof (get_gitOutput git c (keyOf ft) [] w _ Hvs Hgit) as Hget.
  unfold loadField. rewrite Hset, Htag, Hkey, Hk. simpl.
  unfold GetStrings. rewrite (bind_Ret _ _ _ _ _ Hget). simpl.
  unfold SetStrings. rewrite Hu.
  now rewrite (bind_Ret _ _ _ _ _
                 (store_field_insert l i _
                    (ran w (getArgs c (keyOf ft) [])) fields Hl Hi)).
Qed.

Lemma Load_slice_field_replaced_witness :
  loadField gitTest Default 0%nat 3%nat
    (mkStructField "GhqRoots" "" (TNamed "Roots" (TSlice TString))
       (gitconfigTag "ghq.root"))
    ∅ (worldWith (VStruct [VString ""; VInt 0; VBool false;
                           VSlice [VString "old"]])) =
    (Ret ∅,
     {| trace := [getArgs Default "ghq.root" []];
        heap := <[0%nat := VStruct
                    (<[3%nat := VSlice (VString <$> ["~/dev"; "~/go/src"])]>
                       [VString ""; VInt 0; VBool false;
                        VSlice [VString "old"]])]>
                  {[ 0%nat := VStruct [VString ""; VInt 0; VBool false;
                                       VSlice [VString "old"]] ]} |}).
Proof.
  apply (Load_slice_field_replaced gitTest Default 0%nat 3%nat
           (mkStructField "GhqRoots" "" (TNamed "Roots" (TSlice TString))
              (gitconfigTag "ghq.root"))
           ∅ (worldWith (VStruct [VString ""; VInt 0; VBool false;
                                  VSlice [VString "old"]]))
           ["~/dev"; "~/go/src"]
           [VString ""; VInt 0; VBool false; VSlice [VString "old"]]).
  - reflexivity.
  - reflexivity.
  - repeat constructor.
  - reflexivity.
  - reflexivity.
  - simpl. lia.
Defined.

(** X11. A settable, tagged field of kind slice whose type is not
    [[]string] (nor a defined type over it) makes [Load] fault as soon as
    its query succeeds: [fv.Set] panics, with the command run, nothing
    written and no error recorded. *)
Theorem Load_slice_of_other_type_panics (git : Git) (c : Config) (l : loc)
    (i : nat) (ft : StructField) (errs : gmap string error) (w w1 : World)
    (ss : list string) :
  managed ft = true ->
  kindOf (Type_ ft) = Slice ->
  underlying (Type_ ft) <> TSlice TString ->
  GetStrings git c (keyOf ft) w = (Ret (ss, nil_error), w1) ->
  loadField git c l i ft errs w =
    (Panic "reflect.Set: value of type []string is not assignable", w1) /\
  heap w1 = heap w /\
  trace w1 = trace w ++ [getArgs c (keyOf ft) []].
Proof.
  intros Hm Hk Hu Hget.
  destruct (managed_inv ft Hm) as (Hset & Htag & Hkey).
  pose proof (GetStrings_world git c (keyOf ft) w) as Hw.
  rewrite Hget in Hw. simpl in Hw. subst w1.
  split; [|split; reflexivity].
  unfold loadField. rewrite Hset, Htag, Hkey, Hk. simpl.
  rewrite (bind_Ret _ _ _ _ _ Hget). simpl.
  unfold SetStrings.
  destruct (underlying (Type_ ft)) eqn:Eu; try reflexivity.
  destruct r; try reflexivity. congruence.
Qed.

Lemma Load_slice_of_other_type_panics_witness :
  loadField gitTest Default 0%nat 0%nat
    (mkStructField "Counts" "" (TSlice TInt) (gitconfigTag "ghq.root"))
    ∅ (worldWith intsZero) =
    (Panic "reflect.Set: value of type []string is not assignable",
     ran (worldWith intsZero) (getArgs Default "ghq.root" [])) /\
  heap (ran (worldWith intsZero) (getArgs Default "ghq.root" [])) =
    heap (worldWith intsZero) /\
  trace (ran (worldWith intsZero) (getArgs Default "ghq.root" [])) =
    trace (worldWith intsZero) ++ [getArgs Default "ghq.root" []].
Proof.
  apply (Load_slice_of_other_type_panics gitTest Default 0%nat 0%nat
           (mkStructField "Counts" "" (TSlice TInt) (gitconfigTag "ghq.root"))
           ∅ (worldWith intsZero)
           (ran (worldWith intsZero) (getArgs Default "ghq.root" []))
           ["~/dev"; "~/go/src"]).
  - reflexivity.
  - reflexivity.
  - discriminate.
  - reflexivity.
Defined.

(** X12. A settable, tagged field that is an array of something else
    than strings, and whose query succeeds with [ss]: [Load] faults in
    [SetString] at the first slot when the array has a slot and [ss] a
    value; when the array has length 0 or [ss] is empty it returns with
    nothing written and, although the field cannot be populated, no
    error recorded. *)
Theorem Load_array_of_other_type (git : Git) (c : Config) (l : loc)
    (i : nat) (ft : StructField) (errs : gmap string error) (w w1 : World)
    (ss : list string) :
  managed ft = true ->
  kindOf (Type_ ft) = Array ->
  kindOf (Elem (Type_ ft)) <> String_ ->
  GetStrings git c (keyOf ft) w = (Ret (ss, nil_error), w1) ->
  loadField git c l i ft errs w =
    (if (0 <? Len (Type_ ft))%nat && negb (length ss =? 0)%nat
     then Panic
            "reflect: call of reflect.Value.SetString on non-string Value"
     else Ret errs,
     w1) /\
  heap w1 = heap w.
Proof.
  intros Hm Hk He Hget.
  destruct (managed_inv ft Hm) as (Hset & Htag & Hkey).
  pose proof (GetStrings_world git c (keyOf ft) w) as Hw.
  rewrite Hget in Hw. simpl in Hw. subst w1.
  split; [|reflexivity].
  unfold loadField. rewrite Hset, Htag, Hkey, Hk. simpl.
  rewrite (bind_Ret _ _ _ _ _ Hget). simpl.
  destruct ss as [|s ss]; simpl.
  - now rewrite andb_false_r.
  - destruct (0 <? Len (Type_ ft))%nat; simpl; [|reflexivity].
    unfold mbind at 1, M_bind at 1. unfold mbind at 1, M_bind at 1.
    unfold Index_SetString.
    destruct (kindOf (Elem (Type_ ft))); try reflexivity. congruence.
Qed.

Lemma Load_array_of_other_type_witness :
  loadField gitTest Default 0%nat 0%nat
    (mkStructField "Ports" "" (TArray 2 TInt) (gitconfigTag "ghq.root"))
    ∅ (worldWith (VStruct [VArray [VInt 0; VInt 0]])) =
    (if (0 <? Len (TArray 2 TInt))%nat &&
        negb (length ["~/dev"; "~/go/src"] =? 0)%nat
     then Panic
            "reflect: call of reflect.Value.SetString on non-string Value"
     else Ret ∅,
     ran (worldWith (VStruct [VArray [VInt 0; VInt 0]]))
       (getArgs Default "ghq.root" [])) /\
  heap (ran (worldWith (VStruct [VArray [VInt 0; VInt 0]]))
          (getArgs Default "ghq.root" [])) =
    heap (worldWith (VStruct [VArray [VInt 0; VInt 0]])).
Proof.
  apply (Load_array_of_other_type gitTest Default 0%nat 0%nat
           (mkStructField "Ports" "" (TArray 2 TInt) (gitconfigTag "ghq.root"))
           ∅ (worldWith (VStruct [VArray [VInt 0; VInt 0]]))
           (ran (worldWith (VStruct [VArray [VInt 0; VInt 0]]))
              (getArgs Default "ghq.root" []))
           ["~/dev"; "~/go/src"]).
  - reflexivity.
  - reflexivity.
  - discriminate.
  - reflexivity.
Defined.

(** ** The tag of a field *)

Lemma Split_no_sep (s : string) (sep : ascii) :
  countByte sep s = 0%nat -> Split s sep = [s].
Proof.
  induction s as [|c s IH]; simpl; [reflexivity|].
  destruct (Ascii.eqb c sep); [discriminate|].
  intros H. now rewrite IH.
Qed.

Lemma append_empty_inv (a b : string) : (a ++ b)%string = "" -> a = "".
Proof. destruct a; [reflexivity | discriminate]. Qed.

(** X13. Only what precedes the first comma of the tag counts: two
    fields that agree on name, package path and type, one tagged with a
    non-empty key without comma and the other with that key, a comma and
    anything after it, are treated by the body of the loop of [Load] in
    the same way, in every world. *)
Theorem Load_ignores_tag_options (git : Git) (c : Config) (l : loc)
    (i : nat) (ft ft' : StructField) (key opts : string)
    (errs : gmap string error) (w : World) :
  Name ft' = Name ft ->
  PkgPath ft' = PkgPath ft ->
  Type_ ft' = Type_ ft ->
  key <> "" ->
  countByte comma key = 0%nat ->
  Tag_Get (Tag ft) "gitconfig" = key ->
  Tag_Get (Tag ft') "gitconfig" = (key ++ String comma opts)%string ->
  loadField git c l i ft' errs w = loadField git c l i ft errs w.
Proof.
  intros Hn Hp Ht Hne Hc Htag Htag'.
  unfold loadField, CanSet. rewrite Hn, Hp, Ht, Htag, Htag'.
  destruct (String.eqb (PkgPath ft) ""); simpl; [|reflexivity].
  assert (String.eqb key "" = false) as ->
    by now apply String.eqb_neq.
  assert (String.eqb (key ++ String comma opts) "" = false) as ->.
  { apply String.eqb_neq. intros H. now apply append_empty_inv in H. }
  now rewrite (Split_app_sep key opts comma Hc), (Split_no_sep key comma Hc).
Qed.

Lemma Load_ignores_tag_options_witness :
  loadField gitTest Default 0%nat 0%nat
    (mkStructField "UserEmail" "" TString
       (gitconfigTag "user.email,omitempty"))
    ∅ (worldWith testZero) =
  loadField gitTest Default 0%nat 0%nat
    (mkStructField "UserEmail" "" TString (gitconfigTag "user.email"))
    ∅ (worldWith testZero).
Proof.
  apply (Load_ignores_tag_options gitTest Default 0%nat 0%nat
           (mkStructField "UserEmail" "" TString (gitconfigTag "user.email"))
           (mkStructField "UserEmail" "" TString
              (gitconfigTag "user.email,omitempty"))
           "user.email" "omitempty" ∅ (worldWith testZero)).
  - reflexivity.
  - reflexivity.
  - reflexivity.
  - discriminate.
  - reflexivity.
  - reflexivity.
  - reflexivity.
Defined.

(** ** The mapping [Load] returns *)

Lemma Any_cases (m : LoadError) :
  (LoadError_len m = 0%nat /\ Any m = NilMap) \/
  (LoadError_len m <> 0%nat /\ Any m = m).
Proof.
  unfold Any. destruct (LoadError_len m =? 0)%nat eqn:E.
  - left. now apply Nat.eqb_eq in E.
  - right. now apply Nat.eqb_neq in E.
Qed.

Lemma OfField_Any (m : LoadError) (name : string) :
  OfField (Any m) name = OfField m name.
Proof.
  destruct (Any_cases m) as [[Hlen ->] | [_ ->]]; [|reflexivity].
  destruct m as [|m]; [reflexivity|]. simpl in *.
  apply map_size_empty_iff in Hlen. subst m. now rewrite lookup_empty.
Qed.

(** X14. [Any] loses nothing and never gives an empty map that is not
    nil: looking a field up in [m.Any()] gives what it gives in [m],
    [m.Any()] has the length of [m], it is either the nil map or has an
    entry, and applying [Any] again changes nothing. *)
Theorem Any_keeps_entries (m : LoadError) (name : string) :
  OfField (Any m) name = OfField m name /\
  LoadError_len (Any m) = LoadError_len m /\
  (Any m = NilMap \/ (0 < LoadError_len (Any m))%nat) /\
  Any (Any m) = Any m.
Proof.
  split; [apply OfField_Any|].
  destruct (Any_cases m) as [[Hlen HA] | [Hlen HA]]; rewrite HA.
  - split; [now rewrite Hlen|]. split; [now left | reflexivity].
  - split; [reflexivity|]. split; [right; lia | exact HA].
Qed.

(** X15. The mapping [Load] returns names fields of the struct only:
    under a name that no settable, tagged field of the struct bears,
    [OfField] finds no error. *)
Theorem Load_reports_only_managed_fields (git : Git) (c : Config)
    (t : rtype) (l : loc) (w w' : World) (e : error) (name : string) :
  kindOf t = Ptr ->
  kindOf (Elem t) = Struct ->
  Load git c (Iface t (VPtr (Some l))) w = (Ret e, w') ->
  name ∉ Name <$> filter (fun f => managed f = true) (fieldsOf (Elem t)) ->
  exists m, e = LoadError_ m /\ OfField m name = nil_error.
Proof.
  intros Ht He HLoad Hname.
  rewrite (Load_struct_pointer git c t l Ht He) in HLoad.
  apply bind_inv in HLoad as [(errs & w1 & H1 & H2) | (msg & _ & H2)];
    [|discriminate].
  inversion H2; subst. eexists. split; [reflexivity|].
  rewrite OfField_Any. simpl.
  rewrite (loadFields_errs _ _ _ _ _ _ _ _ _ _ H1 Hname).
  now rewrite lookup_empty.
Qed.

Lemma Load_reports_only_managed_fields_witness :
  exists m,
    fst (Load gitTest Default (pointerTo mixedStruct)
           (worldWith mixedValue)) = Ret (LoadError_ m) /\
    OfField m "Plain" = nil_error.
Proof.
  destruct (Load_reports_only_managed_fields gitTest Default
              (TPtr mixedStruct) 0%nat (worldWith mixedValue)
              (snd (Load gitTest Default (pointerTo mixedStruct)
                      (worldWith mixedValue)))
              (LoadError_
                 (MkMap (<["Ratio" :=
                             fmtError "cannot populate field %q of type %s"
                               [ArgString "Ratio"; ArgTypeString TFloat64]]>
                           (<["Missing" := RunError "" (Some exit1)]> ∅))))
              "Plain" eq_refl eq_refl)
    as (m & Hm & Hof).
  - vm_compute. reflexivity.
  - vm_compute. intros H. repeat (inversion H as [|? ? ? H']; subst;
                                  clear H; rename H' into H).
  - exists m. split; [|exact Hof]. rewrite <- Hm. vm_compute. reflexivity.
Defined.

(** ** Keys that are absent *)

Lemma get_ExitNonZero (git : Git) (c : Config) (key : string)
    (hint : list string) (w : World) (e : ExitError) (out stderr : string) :
  git (trace w) (getArgs c key hint) = ExitNonZero e out stderr ->
  get git c key hint w =
    (Ret ([], RunError (TrimRight stderr newline) (Some e)),
     ran w (getArgs c key hint)).
Proof. intros H. now rewrite get_eq, H. Qed.

(** X16. When [git] exits with a status other than 0 on the command of
    an accessor, the accessor returns the zero value of its type and a
    [RunError] on which [IsInvalidKeyError] is true when the exit status
    is 1, the status of [git config] for a key that is absent, and false
    for every other status. *)
Theorem accessors_classify_exit_status (git : Git) (c : Config)
    (key : string) (hint : list string) (w : World) (e : ExitError)
    (out stderr : string) (ws : WaitStatus) :
  git (trace w) (getArgs c key hint) = ExitNonZero e out stderr ->
  Sys e = SysWaitStatus ws ->
  let err := RunError (TrimRight stderr newline) (Some e) in
  let w' := ran w (getArgs c key hint) in
  IsInvalidKeyError err = Ret (ExitStatus ws =? 1) /\
  (hint = [] ->
   GetString git c key w = (Ret ("", err), w') /\
   GetStrings git c key w = (Ret ([], err), w')) /\
  (hint = ["--path"] ->
   GetPath git c key w = (Ret ("", err), w') /\
   GetPaths git c key w = (Ret ([], err), w')) /\
  (hint = ["--bool"] -> GetBool git c key w = (Ret (false, err), w')) /\
  (hint = ["--int"] -> GetInt64 git c key w = (Ret (0, err), w')).
Proof.
  intros Hgit Hsys err w'.
  pose proof (get_ExitNonZero _ _ _ _ _ _ _ _ Hgit) as Hget.
  fold err in Hget. fold w' in Hget.
  split; [simpl; now rewrite Hsys|].
  split; [|split; [|split]]; intros ->.
  - split; [|exact Hget].
    now rewrite (GetString_of_get _ _ _ _ _ _ _ Hget).
  - split; [|exact Hget].
    now rewrite (GetPath_of_get _ _ _ _ _ _ _ Hget).
  - now rewrite (GetBool_of_get _ _ _ _ _ _ _ Hget).
  - now rewrite (GetInt64_of_get _ _ _ _ _ _ _ Hget).
Qed.

Lemma accessors_classify_exit_status_witness :
  IsInvalidKeyError (RunError (TrimRight "" newline) (Some exit1)) =
    Ret (ExitStatus 256 =? 1) /\
  GetBool gitTest Default "no.such" (worldWith testZero) =
    (Ret (false, RunError (TrimRight "" newline) (Some exit1)),
     ran (worldWith testZero) (getArgs Default "no.such" ["--bool"])).
Proof.
  destruct (accessors_classify_exit_status gitTest Default "no.such"
              ["--bool"] (worldWith testZero) exit1 "" "" 256
              eq_refl eq_refl)
    as (Hclass & _ & _ & Hbool & _).
  split; [exact Hclass | exact (Hbool eq_refl)].
Defined.

(** X17. When [git] exits with a status other than 0 on the command of
    a field, the body of the loop of [Load] records under the name of
    the field a [RunError] on which [IsInvalidKeyError] is true exactly
    when the exit status is 1, writes nothing, and returns: from the
    mapping, the caller can tell an absent key from another failure. *)
Theorem Load_records_classified_RunError (git : Git) (c : Config) (l : loc)
    (i : nat) (ft : StructField) (errs : gmap string error) (w : World)
    (q : list string) (e : ExitError) (out stderr : string)
    (ws : WaitStatus) :
  fieldQuery c ft = Some q ->
  git (trace w) q = ExitNonZero e out stderr ->
  Sys e = SysWaitStatus ws ->
  let err := RunError (TrimRight stderr newline) (Some e) in
  loadField git c l i ft errs w =
    (Ret (<[Name ft := err]> errs),
     {| trace := trace w ++ [q]; heap := heap w |}) /\
  IsInvalidKeyError err = Ret (ExitStatus ws =? 1).
Proof.
  intros Hq Hgit Hsys err.
  split; [|simpl; now rewrite Hsys].
  unfold fieldQuery in Hq. destruct (managed ft) eqn:Hm; [|discriminate].
  assert (fieldFails git c ft w err (ran w q)) as Hfail.
  { split; [exact Hm|].
    destruct (kindOf (Type_ ft)); simpl in Hq; inversion Hq; subst q;
      simpl;
      pose proof (get_ExitNonZero _ _ _ _ _ _ _ _ Hgit) as Hget;
      (split; [|reflexivity]).
    - now rewrite (bind_Ret _ _ _ _ _ (eq_trans (GetBool_of_get _ _ _ _ _ _ _ Hget) eq_refl)).
    - now rewrite (bind_Ret _ _ _ _ _ (eq_trans (GetInt64_of_get _ _ _ _ _ _ _ Hget) eq_refl)).
    - now rewrite (bind_Ret _ _ _ _ _ (eq_trans (GetInt64_of_get _ _ _ _ _ _ _ Hget) eq_refl)).
    - now rewrite (bind_Ret _ _ _ _ _ (eq_trans (GetInt64_of_get _ _ _ _ _ _ _ Hget) eq_refl)).
    - now rewrite (bind_Ret _ _ _ _ _ (eq_trans (GetInt64_of_get _ _ _ _ _ _ _ Hget) eq_refl)).
    - now rewrite (bind_Ret _ _ _ _ _ (eq_trans (GetInt64_of_get _ _ _ _ _ _ _ Hget) eq_refl)).
    - unfold GetStrings. now rewrite (bind_Ret _ _ _ _ _ Hget).
    - unfold GetStrings. now rewrite (bind_Ret _ _ _ _ _ Hget).
    - now rewrite (bind_Ret _ _ _ _ _ (eq_trans (GetString_of_get _ _ _ _ _ _ _ Hget) eq_refl)). }
  now destruct (loadField_fails git c l i ft errs w (ran w q) err Hfail)
    as (Hstep & _).
Qed.

Lemma Load_records_classified_RunError_witness :
  loadField gitTest Default 0%nat 0%nat missingField ∅
    (worldWith mixedValue) =
    (Ret (<["Missing" := RunError (TrimRight "" newline) (Some exit1)]> ∅),
     {| trace := trace (worldWith mixedValue) ++
                 [getArgs Default "no.such" []];
        heap := heap (worldWith mixedValue) |}) /\
  IsInvalidKeyError (RunError (TrimRight "" newline) (Some exit1)) =
    Ret (ExitStatus 256 =? 1).
Proof.
  apply (Load_records_classified_RunError gitTest Default 0%nat 0%nat
           missingField ∅ (worldWith mixedValue)
           (getArgs Default "no.such" []) exit1 "" "" 256);
    reflexivity.
Defined.

(** ** The commands [Load] runs *)

Lemma fieldQuery_shape (c : Config) (ft : StructField) (q : list string) :
  fieldQuery c ft = Some q ->
  managed ft = true /\
  exists hint, hint ∈ loadHints /\ q = getArgs c (keyOf ft) hint.
Proof.
  unfold fieldQuery, loadHints. destruct (managed ft); [|discriminate].
  intros H. split; [reflexivity|].
  destruct (kindOf (Type_ ft)); simpl in H; inversion H;
    eexists; (split; [|reflexivity]); set_solver.
Qed.

Lemma omap_fieldQuery_length (c : Config) (fts : list StructField) :
  (length (omap (fieldQuery c) fts) <=
   length (filter (fun f => managed f = true) fts))%nat.
Proof.
  induction fts as [|ft fts IH]; [reflexivity|].
  destruct (decide (managed ft = true)) as [Hm|Hm].
  - rewrite filter_cons_True by exact Hm.
    unfold omap in *. simpl.
    destruct (fieldQuery c ft); simpl; lia.
  - rewrite filter_cons_False by exact Hm.
    apply not_true_is_false in Hm.
    unfold omap in *. simpl. unfold fieldQuery at 1.
    rewrite Hm. exact IH.
Qed.

(** X18. Whether [Load] on a pointer to a struct returns or faults,
    each command it has run is the query of a settable, tagged field of
    the struct for its key, with no hint, with [--int] or with [--bool],
    never with [--path], so that no value is expanded as a path; and it
    has run at most one command per settable, tagged field. *)
Theorem Load_commands (git : Git) (c : Config) (t : rtype) (l : loc)
    (w w' : World) (r : Res error) :
  kindOf t = Ptr ->
  kindOf (Elem t) = Struct ->
  Load git c (Iface t (VPtr (Some l))) w = (r, w') ->
  exists cmds,
    trace w' = trace w ++ cmds /\
    (length cmds <=
     length (filter (fun f => managed f = true) (fieldsOf (Elem t))))%nat /\
    Forall (fun q =>
              exists ft hint,
                ft ∈ fieldsOf (Elem t) /\ managed ft = true /\
                hint ∈ loadHints /\ q = getArgs c (keyOf ft) hint) cmds.
Proof.
  intros Ht He HLoad. rewrite (Load_struct_pointer git c t l Ht He) in HLoad.
  assert (exists r0,
            loadFields git c l 0 (fieldsOf (Elem t)) ∅ w = (r0, w')) as
    (r0 & Hloop).
  { apply bind_inv in HLoad as [(errs' & w2 & H1 & H2) | (msg & H1 & _)].
    - inversion H2; subst. eauto.
    - eauto. }
  destruct (loadFields_world _ _ _ _ _ _ _ _ _ Hloop)
    as (_ & _ & _ & (k & Hk & T & _)).
  exists (omap (fieldQuery c) (take k (fieldsOf (Elem t)))).
  split; [exact T|]. split.
  - pose proof (omap_fieldQuery_length c (fieldsOf (Elem t))) as Hlen.
    assert (omap (fieldQuery c) (fieldsOf (Elem t)) =
            omap (fieldQuery c) (take k (fieldsOf (Elem t))) ++
            omap (fieldQuery c) (drop k (fieldsOf (Elem t)))) as Hsplit
      by now rewrite <- omap_app, take_drop.
    rewrite Hsplit, length_app in Hlen. lia.
  - apply Forall_forall. intros q Hq.
    apply list_elem_of_omap in Hq as (ft & Hft & Hquery).
    destruct (fieldQuery_shape c ft q Hquery) as (Hm & hint & Hh & ->).
    exists ft, hint. repeat split; try assumption.
    rewrite <- (take_drop k (fieldsOf (Elem t))).
    apply elem_of_app. now left.
Qed.

Lemma Load_commands_witness :
  exists cmds,
    trace (snd (Load gitTest Default (pointerTo mixedStruct)
                  (worldWith mixedValue))) =
      trace (worldWith mixedValue) ++ cmds /\
    (length cmds <=
     length (filter (fun f => managed f = true)
               (fieldsOf (Elem (TPtr mixedStruct)))))%nat /\
    Forall (fun q =>
              exists ft hint,
                ft ∈ fieldsOf (Elem (TPtr mixedStruct)) /\
                managed ft = true /\
                hint ∈ loadHints /\
                q = getArgs Default (keyOf ft) hint) cmds.
Proof.
  apply (Load_commands gitTest Default (TPtr mixedStruct) 0%nat
           (worldWith mixedValue)
           (snd (Load gitTest Default (pointerTo mixedStruct)
                   (worldWith mixedValue)))
           (fst (Load gitTest Default (pointerTo mixedStruct)
                   (worldWith mixedValue)))
           eq_refl eq_refl (surjective_pairing _)).
Defined.

(** ** Errors that can be classified *)

Lemma get_error_classifiable (git : Git) (c : Config) (key : string)
    (hint : list string) (w w' : World) (vs : list string) (err : error) :
  get git c key hint w = (Ret (vs, err), w') ->
  exists b, IsInvalidKeyError err = Ret b.
Proof.
  rewrite get_eq. intros H. inversion H as [[H1 H2]]. clear H.
  destruct (git (trace w) (getArgs c key hint)) as [out|e out stderr|descr];
    inversion H1; subst; simpl; eauto.
  destruct (Sys e); eauto.
Qed.

Lemma ParseInt_error_classifiable (s : string) :
  exists b, IsInvalidKeyError (snd (ParseInt s)) = Ret b.
Proof.
  unfold ParseInt. destruct s as [|ch s]; simpl; [eauto|].
  destruct (if Ascii.eqb ch "+" then (false, s)
            else if Ascii.eqb ch "-" then (true, s)
                 else (false, String ch s)) as [neg s'].
  destruct (ParseUint s') as [un [[]|]];
    simpl; eauto;
    destruct (negb neg && (2 ^ 63 <=? un)); simpl; eauto;
    destruct (neg && (2 ^ 63 <? un)); simpl; eauto.
Qed.

Lemma accessor_errors_classifiable (git : Git) (c : Config) (key : string)
    (w : World) :
  (forall s err w', GetString git c key w = (Ret (s, err), w') ->
                    exists b, IsInvalidKeyError err = Ret b) /\
  (forall vs err w', GetStrings git c key w = (Ret (vs, err), w') ->
                     exists b, IsInvalidKeyError err = Ret b) /\
  (forall s err w', GetPath git c key w = (Ret (s, err), w') ->
                    exists b, IsInvalidKeyError err = Ret b) /\
  (forall vs err w', GetPaths git c key w = (Ret (vs, err), w') ->
                     exists b, IsInvalidKeyError err = Ret b) /\
  (forall b0 err w', GetBool git c key w = (Ret (b0, err), w') ->
                     exists b, IsInvalidKeyError err = Ret b) /\
  (forall n err w', GetInt64 git c key w = (Ret (n, err), w') ->
                    exists b, IsInvalidKeyError err = Ret b).
Proof.
  assert (forall hint values err0,
            get git c key hint w =
              (Ret (values, err0), ran w (getArgs c key hint)) ->
            is_nil err0 = false ->
            exists b, IsInvalidKeyError err0 = Ret b) as Hfail
    by (intros; eapply get_error_classifiable; eassumption).
  split; [|split; [|split; [|split; [|split]]]].
  - intros s err w'. destruct (get_total git c key [] w) as (vs & e0 & H0).
    rewrite (GetString_of_get _ _ _ _ _ _ _ H0).
    destruct (is_nil e0) eqn:E; simpl.
    + destruct (last vs); intros H; inversion H; subst. simpl. eauto.
    + intros H. inversion H; subst. eauto.
  - intros vs err w' H. eapply get_error_classifiable. exact H.
  - intros s err w'.
    destruct (get_total git c key ["--path"] w) as (vs & e0 & H0).
    rewrite (GetPath_of_get _ _ _ _ _ _ _ H0).
    destruct (is_nil e0) eqn:E; simpl.
    + destruct (last vs); intros H; inversion H; subst. simpl. eauto.
    + intros H. inversion H; subst. eauto.
  - intros vs err w' H. eapply get_error_classifiable. exact H.
  - intros b0 err w'.
    destruct (get_total git c key ["--bool"] w) as (vs & e0 & H0).
    rewrite (GetBool_of_get _ _ _ _ _ _ _ H0).
    destruct (is_nil e0) eqn:E; simpl.
    + destruct (vs !! 0%nat); intros H; inversion H; subst. simpl. eauto.
    + intros H. inversion H; subst. eauto.
  - intros n err w'.
    destruct (get_total git c key ["--int"] w) as (vs & e0 & H0).
    rewrite (GetInt64_of_get _ _ _ _ _ _ _ H0).
    destruct (is_nil e0) eqn:E; simpl.
    + destruct (vs !! 0%nat) as [s|]; intros H; inversion H as [[H1 H2]].
      pose proof (ParseInt_error_classifiable s) as Hp.
      now rewrite H1 in Hp.
    + intros H. inversion H; subst. eauto.
Qed.

Lemma loadField_entry_classifiable (git : Git) (c : Config) (l : loc)
    (i : nat) (ft : StructField) (errs errs' : gmap string error)
    (w w' : World) :
  loadField git c l i ft errs w = (Ret errs', w') ->
  errs' = errs \/
  exists e b, errs' = <[Name ft := e]> errs /\ IsInvalidKeyError e = Ret b.
Proof.
  intros H1. destruct (managed ft) eqn:Hm.
  - destruct (managed_inv ft Hm) as (Hset & Htag & Hkey).
    destruct (accessor_errors_classifiable git c (keyOf ft) w)
      as (HS & HSs & _ & _ & HB & HI).
    unfold loadField in H1. rewrite Hset, Htag, Hkey in H1. simpl in H1.
    destruct (kindOf (Type_ ft)) eqn:Ek;
      try solve [inversion H1; subst; right; eexists _, false;
                 split; reflexivity];
      switch_cases H1 Ek;
      (destruct C as [(a & e & Hacc & _ & D & _) | [(? & _ & D & _) |
                      (? & ? & [|] & _ & _ & D)]];
       inversion D; subst; [right | left; reflexivity]).
    + destruct (HB _ _ _ Hacc) as [b Hb]. eauto.
    + destruct (HI _ _ _ Hacc) as [b Hb]. eauto.
    + destruct (HI _ _ _ Hacc) as [b Hb]. eauto.
    + destruct (HI _ _ _ Hacc) as [b Hb]. eauto.
    + destruct (HI _ _ _ Hacc) as [b Hb]. eauto.
    + destruct (HI _ _ _ Hacc) as [b Hb]. eauto.
    + destruct (HSs _ _ _ Hacc) as [b Hb]. eauto.
    + destruct (HSs _ _ _ Hacc) as [b Hb]. eauto.
    + destruct (HS _ _ _ Hacc) as [b Hb]. eauto.
  - rewrite (loadField_unmanaged _ _ _ _ _ _ _ Hm) in H1.
    inversion H1; subst. now left.
Qed.

Lemma loadFields_entries_classifiable (git : Git) (c : Config) (l : loc)
    (fts : list StructField) :
  forall (i : nat) (errs errs' : gmap string error) (w w' : World),
    loadFields git c l i fts errs w = (Ret errs', w') ->
    (forall name e, errs !! name = Some e ->
                    exists b, IsInvalidKeyError e = Ret b) ->
    forall name e, errs' !! name = Some e ->
                   exists b, IsInvalidKeyError e = Ret b.
Proof.
  induction fts as [|ft fts IH]; simpl; intros i errs errs' w w' H Hall.
  - now inversion H; subst.
  - apply bind_inv in H as [(errs1 & w1 & H1 & H2) | (msg & _ & H)];
      [|discriminate].
    eapply IH; [exact H2|].
    destruct (loadField_entry_classifiable _ _ _ _ _ _ _ _ _ H1)
      as [-> | (e0 & b & -> & Hb)]; [exact Hall|].
    intros name e. destruct (decide (name = Name ft)) as [->|Hne].
    + rewrite lookup_insert_eq. intros He. inversion He; subst. eauto.
    + rewrite lookup_insert_ne by congruence. apply Hall.
Qed.

(** X19. [IsInvalidKeyError] never faults on an error of this package:
    on the error any of the six accessors returns, and on whatever
    [OfField] finds in the mapping that [Load] returns, it returns true
    or false; the [RunError]s made here always hold their exit error. *)
Theorem errors_can_be_classified (git : Git) (c : Config) (key : string)
    (w : World) :
  ((forall s err w', GetString git c key w = (Ret (s, err), w') ->
                     exists b, IsInvalidKeyError err = Ret b) /\
   (forall vs err w', GetStrings git c key w = (Ret (vs, err), w') ->
                      exists b, IsInvalidKeyError err = Ret b) /\
   (forall s err w', GetPath git c key w = (Ret (s, err), w') ->
                     exists b, IsInvalidKeyError err = Ret b) /\
   (forall vs err w', GetPaths git c key w = (Ret (vs, err), w') ->
                      exists b, IsInvalidKeyError err = Ret b) /\
   (forall b0 err w', GetBool git c key w = (Ret (b0, err), w') ->
                      exists b, IsInvalidKeyError err = Ret b) /\
   (forall n err w', GetInt64 git c key w = (Ret (n, err), w') ->
                     exists b, IsInvalidKeyError err = Ret b)) /\
  (forall t l e w' name,
     kindOf t = Ptr -> kindOf (Elem t) = Struct ->
     Load git c (Iface t (VPtr (Some l))) w = (Ret e, w') ->
     exists m b,
       e = LoadError_ m /\ IsInvalidKeyError (OfField m name) = Ret b).
Proof.
  split; [apply accessor_errors_classifiable|].
  intros t l e w' name Ht He HLoad.
  rewrite (Load_struct_pointer git c t l Ht He) in HLoad.
  apply bind_inv in HLoad as [(errs & w1 & H1 & H2) | (msg & _ & H2)];
    [|discriminate].
  inversion H2; subst.
  assert (exists b, IsInvalidKeyError (OfField (Any (MkMap errs)) name)
                    = Ret b) as [b Hb].
  { rewrite OfField_Any. simpl.
    destruct (errs !! name) as [e0|] eqn:E; simpl; [|eauto].
    eapply (loadFields_entries_classifiable _ _ _ _ _ _ _ _ _ H1);
      [|exact E].
    intros n0 e1 Hn. rewrite lookup_empty in Hn. discriminate. }
  eauto.
Qed.

Lemma errors_can_be_classified_witness :
  exists b,
    IsInvalidKeyError (RunError "" (Some exit128)) = Ret b.
Proof.
  destruct (errors_can_be_classified
              (fun _ _ => ExitNonZero exit128 "" "")
              Default "user.name" (worldWith testZero))
    as ((HS & _) & _).
  apply (HS "" (RunError "" (Some exit128))
            (ran (worldWith testZero) (getArgs Default "user.name" []))).
  reflexivity.
Defined.

(** ** What a value returned without error is *)

(** X20. Soundness of the string accessors: when [GetStrings] returns
    values without an error, [git] has exited with status 0 and its
    output is these values, each followed by a NUL byte, and then a rest
    without NUL byte, and no value holds a NUL byte: the values are the
    entries of the output that a NUL byte ends. When [GetString] returns
    a value without an error, that value is the last of these entries:
    the output is some values and then this one, each followed by a NUL
    byte and none holding one, and then a rest without NUL byte. *)
Theorem string_accessors_sound (git : Git) (c : Config) (key : string)
    (w w' : World) :
  (forall vs,
     GetStrings git c key w = (Ret (vs, nil_error), w') ->
     exists out tail,
       git (trace w) (getArgs c key []) = Exit0 out /\
       out = (gitOutput vs ++ tail)%string /\
       Forall (fun v => countByte NUL v = 0%nat) vs /\
       countByte NUL tail = 0%nat) /\
  (forall s,
     GetString git c key w = (Ret (s, nil_error), w') ->
     exists out vs tail,
       git (trace w) (getArgs c key []) = Exit0 out /\
       out = (gitOutput (vs ++ [s]) ++ tail)%string /\
       Forall (fun v => countByte NUL v = 0%nat) (vs ++ [s]) /\
       countByte NUL tail = 0%nat).
Proof.
  assert (forall vs,
            get git c key [] w = (Ret (vs, nil_error), w') ->
            exists out tail,
              git (trace w) (getArgs c key []) = Exit0 out /\
              out = (gitOutput vs ++ tail)%string /\
              Forall (fun v => countByte NUL v = 0%nat) vs /\
              countByte NUL tail = 0%nat) as Hget.
  { intros vs H.
    destruct (git (trace w) (getArgs c key [])) as [out|e out err|d] eqn:Eg.
    - destruct (get_returns_terminated_entries_aux out)
        as (vs' & tail & Hs & Ho & Hvs & Ht).
      rewrite get_eq, Eg, Hs in H.
      rewrite length_app in H. simpl in H.
      replace (length vs' + 1 - 1)%nat with (length vs') in H by lia.
      rewrite take_app_length in H. inversion H; subst.
      eexists. exists tail. split; [reflexivity|]. auto.
    - rewrite get_eq, Eg in H. inversion H.
    - rewrite get_eq, Eg in H. inversion H. }
  split; [exact Hget|].
  intros s. destruct (get_total git c key [] w) as (vs & e0 & H0).
  rewrite (GetString_of_get _ _ _ _ _ _ _ H0).
  destruct (is_nil e0) eqn:E; simpl.
  - destruct e0; try discriminate.
    destruct (last vs) as [s'|] eqn:El; intros H; inversion H; subst.
    apply last_Some in El as [vs' ->].
    destruct (Hget _ H0) as (out & tail & Hg & Ho & Hvs & Ht).
    exists out, vs', tail. auto.
  - intros H. inversion H; subst. discriminate.
Qed.

Lemma string_accessors_sound_witness :
  exists out vs tail,
    gitTest (trace (worldWith testZero)) (getArgs Default "user.email" []) =
      Exit0 out /\
    out = (gitOutput (vs ++ ["local@example.com"]) ++ tail)%string /\
    Forall (fun v => countByte NUL v = 0%nat)
      (vs ++ ["local@example.com"]) /\
    countByte NUL tail = 0%nat.
Proof.
  apply (proj2 (string_accessors_sound gitTest Default "user.email"
                  (worldWith testZero)
                  (ran (worldWith testZero)
                     (getArgs Default "user.email" [])))
           "local@example.com").
  reflexivity.
Defined.

(** * [package loadgitconfig] *)

Lemma lgc_get_eq (git : loadgitconfig.Git) (c : loadgitconfig.Config)
    (key : string) (extra : list string) (w : World) :
  loadgitconfig.get git c key extra w =
    (Ret match git (trace w) (loadgitconfig.getArgs c key extra) with
         | loadgitconfig.Exit0 out | loadgitconfig.Failed out _ =>
             (take (length (Split out NUL) - 1) (Split out NUL),
              loadgitconfig.nil_error)
         | loadgitconfig.ExitNonZero e _ =>
             ([],
              match Sys e with
              | SysWaitStatus ws =>
                  if ExitStatus ws =? 1 then loadgitconfig.ErrInvalidKey key
                  else loadgitconfig.exitError e
              | SysOther => loadgitconfig.exitError e
              end)
         end,
     ran w (loadgitconfig.getArgs c key extra)).
Proof.
  unfold loadgitconfig.get, loadgitconfig.Output, mbind, M_bind, ran.
  destruct (git (trace w) (loadgitconfig.getArgs c key extra))
    as [out|e out|out descr]; try reflexivity.
  destruct (Sys e) as [ws|]; [|reflexivity].
  destruct (ExitStatus ws =? 1); reflexivity.
Qed.

Lemma lgc_get_total (git : loadgitconfig.Git) (c : loadgitconfig.Config)
    (key : string) (extra : list string) (w : World) :
  exists values err,
    loadgitconfig.get git c key extra w =
      (Ret (values, err), ran w (loadgitconfig.getArgs c key extra)).
Proof.
  rewrite lgc_get_eq.
  destruct (git (trace w) (loadgitconfig.getArgs c key extra)); eauto.
Qed.

Lemma lgc_GetString_of_get (git : loadgitconfig.Git)
    (c : loadgitconfig.Config) (key : string) (w w' : World)
    (values : list string) (err : loadgitconfig.error) :
  loadgitconfig.get git c key [] w = (Ret (values, err), w') ->
  loadgitconfig.GetString git c key w =
    if negb (loadgitconfig.is_nil err) then (Ret ("", err), w')
    else match last values with
         | Some s => (Ret (s, loadgitconfig.nil_error), w')
         | None => (Panic "index out of range [-1]", w')
         end.
Proof.
  intros H. unfold loadgitconfig.GetString. rewrite (bind_Ret _ _ _ _ _ H).
  destruct (loadgitconfig.is_nil err); simpl; [|reflexivity].
  destruct (last values); reflexivity.
Qed.

Lemma lgc_GetBool_of_get (git : loadgitconfig.Git)
    (c : loadgitconfig.Config) (key : string) (w w' : World)
    (values : list string) (err : loadgitconfig.error) :
  loadgitconfig.get git c key ["--bool"] w = (Ret (values, err), w') ->
  loadgitconfig.GetBool git c key w =
    if negb (loadgitconfig.is_nil err) then (Ret (false, err), w')
    else match values !! 0%nat with
         | Some s =>
             (Ret (String.eqb s "true", loadgitconfig.nil_error), w')
         | None => (Panic "index out of range [0] with length 0", w')
         end.
Proof.
  intros H. unfold loadgitconfig.GetBool. rewrite (bind_Ret _ _ _ _ _ H).
  destruct (loadgitconfig.is_nil err); simpl; [|reflexivity].
  destruct (values !! 0%nat); reflexivity.
Qed.

Lemma lgc_GetInt64_of_get (git : loadgitconfig.Git)
    (c : loadgitconfig.Config) (key : string) (w w' : World)
    (values : list string) (err : loadgitconfig.error) :
  loadgitconfig.get git c key ["--int"] w = (Ret (values, err), w') ->
  loadgitconfig.GetInt64 git c key w =
    if negb (loadgitconfig.is_nil err) then (Ret (0, err), w')
    else match values !! 0%nat with
         | Some s =>
             (Ret (fst (ParseInt s),
                   match numErrorOf (snd (ParseInt s)) with
                   | Some (f, num, k) => loadgitconfig.NumError f num k
                   | None => loadgitconfig.nil_error
                   end), w')
         | None => (Panic "index out of range [0] with length 0", w')
         end.
Proof.
  intros H. unfold loadgitconfig.GetInt64. rewrite (bind_Ret _ _ _ _ _ H).
  destruct (loadgitconfig.is_nil err); simpl; [|reflexivity].
  destruct (values !! 0%nat); reflexivity.
Qed.

(** X21. In [loadgitconfig], when [git] exits with a status other than
    0, [get] returns no value, whatever [git] printed, and an error that
    is [ErrInvalidKey] of the key exactly when the exit status is 1, and
    the exit error itself otherwise. *)
Theorem lgc_get_classifies_exit_status (git : loadgitconfig.Git)
    (c : loadgitconfig.Config) (key : string) (extra : list string)
    (w : World) (e : ExitError) (out : string) :
  git (trace w) (loadgitconfig.getArgs c key extra) =
    loadgitconfig.ExitNonZero e out ->
  exists err,
    loadgitconfig.get git c key extra w =
      (Ret ([], err), ran w (loadgitconfig.getArgs c key extra)) /\
    (err = loadgitconfig.ErrInvalidKey key \/
     err = loadgitconfig.exitError e) /\
    (err = loadgitconfig.ErrInvalidKey key <->
     exists ws, Sys e = SysWaitStatus ws /\ ExitStatus ws = 1).
Proof.
  intros Hgit. rewrite lgc_get_eq, Hgit.
  destruct (Sys e) as [ws|] eqn:Hsys.
  - destruct (ExitStatus ws =? 1) eqn:E.
    + apply Z.eqb_eq in E. eexists. split; [reflexivity|].
      split; [now left|]. split; [eauto | reflexivity].
    + apply Z.eqb_neq in E. eexists. split; [reflexivity|].
      split; [now right|]. split; [discriminate|].
      intros (ws' & Hws & H1). inversion Hws; subst. contradiction.
  - eexists. split; [reflexivity|]. split; [now right|].
    split; [discriminate|]. intros (ws' & Hws & _). discriminate.
Qed.

Lemma lgc_get_classifies_exit_status_witness :
  exists err,
    loadgitconfig.get loadgitconfig.gitTest loadgitconfig.Default
      "no.such" [] (worldWith testZero) =
      (Ret ([], err),
       ran (worldWith testZero)
         (loadgitconfig.getArgs loadgitconfig.Default "no.such" [])) /\
    (err = loadgitconfig.ErrInvalidKey "no.such" \/
     err = loadgitconfig.exitError exit1) /\
    (err = loadgitconfig.ErrInvalidKey "no.such" <->
     exists ws, Sys exit1 = SysWaitStatus ws /\ ExitStatus ws = 1).
Proof.
  apply (lgc_get_classifies_exit_status loadgitconfig.gitTest
           loadgitconfig.Default "no.such" [] (worldWith testZero)
           exit1 "").
  reflexivity.
Defined.

(** X22. In [loadgitconfig], an error of [cmd.Output] that is not an
    exit error is lost: [get] returns a nil error and the entries of
    whatever was printed that a NUL byte ends, as many as there are NUL
    bytes: the output is the values returned, each followed by a NUL byte
    and none holding one, and then a rest without NUL byte. When nothing
    was printed, as when [git] cannot be started, [GetStrings] thus
    succeeds with no value, and [GetString], [GetBool] and [GetInt64]
    fault on the index. *)
Theorem lgc_get_loses_other_errors (git : loadgitconfig.Git)
    (c : loadgitconfig.Config) (key : string) (hint : list string)
    (w : World) (out descr : string) :
  git (trace w) (loadgitconfig.getArgs c key hint) =
    loadgitconfig.Failed out descr ->
  let w' := ran w (loadgitconfig.getArgs c key hint) in
  (exists vs tail,
     loadgitconfig.get git c key hint w =
       (Ret (vs, loadgitconfig.nil_error), w') /\
     out = (gitOutput vs ++ tail)%string /\
     Forall (fun v => countByte NUL v = 0%nat) vs /\
     countByte NUL tail = 0%nat /\
     length vs = countByte NUL out) /\
  (countByte NUL out = 0%nat ->
   (hint = [] ->
    loadgitconfig.GetStrings git c key w =
      (Ret ([], loadgitconfig.nil_error), w') /\
    loadgitconfig.GetString git c key w =
      (Panic "index out of range [-1]", w')) /\
   (hint = ["--bool"] ->
    loadgitconfig.GetBool git c key w =
      (Panic "index out of range [0] with length 0", w')) /\
   (hint = ["--int"] ->
    loadgitconfig.GetInt64 git c key w =
      (Panic "index out of range [0] with length 0", w'))).
Proof.
  intros Hgit w'.
  pose proof (lgc_get_eq git c key hint w) as Hget. rewrite Hgit in Hget.
  fold w' in Hget.
  pose proof (Split_length out NUL) as Hlen.
  split.
  - destruct (get_returns_terminated_entries_aux out)
      as (vs & tail & Hs & Ho & Hvs & Ht).
    exists vs, tail. rewrite Hs, length_app in Hlen. simpl in Hlen.
    split; [|split; [exact Ho | split; [exact Hvs | split; [exact Ht | lia]]]].
    rewrite Hget, Hs, length_app. simpl.
    replace (length vs + 1 - 1)%nat with (length vs) by lia.
    now rewrite take_app_length.
  - intros Hzero. rewrite Hlen, Hzero in Hget. simpl in Hget.
    rewrite take_0 in Hget.
    split; [|split]; intros ->.
    + split; [exact Hget|].
      now rewrite (lgc_GetString_of_get _ _ _ _ _ _ _ Hget).
    + now rewrite (lgc_GetBool_of_get _ _ _ _ _ _ _ Hget).
    + now rewrite (lgc_GetInt64_of_get _ _ _ _ _ _ _ Hget).
Qed.

Lemma lgc_get_loses_other_errors_witness :
  loadgitconfig.GetStrings loadgitconfig.gitMissing loadgitconfig.Default
    "user.name" (worldWith testZero) =
    (Ret ([], loadgitconfig.nil_error),
     ran (worldWith testZero)
       (loadgitconfig.getArgs loadgitconfig.Default "user.name" [])) /\
  loadgitconfig.GetString loadgitconfig.gitMissing loadgitconfig.Default
    "user.name" (worldWith testZero) =
    (Panic "index out of range [-1]",
     ran (worldWith testZero)
       (loadgitconfig.getArgs loadgitconfig.Default "user.name" [])).
Proof.
  destruct (lgc_get_loses_other_errors loadgitconfig.gitMissing
              loadgitconfig.Default "user.name" [] (worldWith testZero)
              "" "exec: git: executable file not found in $PATH" eq_refl)
    as (_ & Hempty).
  destruct (Hempty eq_refl) as (Hstrings & _).
  exact (Hstrings eq_refl).
Defined.

Lemma lgc_GetString_world (git : loadgitconfig.Git)
    (c : loadgitconfig.Config) (key : string) (w : World) :
  snd (loadgitconfig.GetString git c key w) =
    ran w (loadgitconfig.getArgs c key []).
Proof.
  destruct (lgc_get_total git c key [] w) as (values & err & H).
  rewrite (lgc_GetString_of_get _ _ _ _ _ _ _ H).
  destruct (negb (loadgitconfig.is_nil err)); [reflexivity|].
  destruct (last values); reflexivity.
Qed.

Lemma lgc_GetStrings_world (git : loadgitconfig.Git)
    (c : loadgitconfig.Config) (key : string) (w : World) :
  snd (loadgitconfig.GetStrings git c key w) =
    ran w (loadgitconfig.getArgs c key []).
Proof.
  destruct (lgc_get_total git c key [] w) as (values & err & H).
  unfold loadgitconfig.GetStrings. now rewrite H.
Qed.

Lemma lgc_GetBool_world (git : loadgitconfig.Git)
    (c : loadgitconfig.Config) (key : string) (w : World) :
  snd (loadgitconfig.GetBool git c key w) =
    ran w (loadgitconfig.getArgs c key ["--bool"]).
Proof.
  destruct (lgc_get_total git c key ["--bool"] w) as (values & err & H).
  rewrite (lgc_GetBool_of_get _ _ _ _ _ _ _ H).
  destruct (negb (loadgitconfig.is_nil err)); [reflexivity|].
  destruct (values !! 0%nat); reflexivity.
Qed.

Lemma lgc_GetInt64_world (git : loadgitconfig.Git)
    (c : loadgitconfig.Config) (key : string) (w : World) :
  snd (loadgitconfig.GetInt64 git c key w) =
    ran w (loadgitconfig.getArgs c key ["--int"]).
Proof.
  destruct (lgc_get_total git c key ["--int"] w) as (values & err & H).
  rewrite (lgc_GetInt64_of_get _ _ _ _ _ _ _ H).
  destruct (negb (loadgitconfig.is_nil err)); [reflexivity|].
  destruct (values !! 0%nat); reflexivity.
Qed.

(** One case of the switch of [loadgitconfig.Load]. *)
Lemma lgc_case {A : Type} (acc : M (A * loadgitconfig.error))
    (set : A -> M unit) (q : list string) (w w' : World)
    (r : Res loadgitconfig.error) :
  snd (acc w) = ran w q ->
  (forall a w1 w2 rs, set a w1 = (rs, w2) -> trace w2 = trace w1) ->
  ('(a, err) ← acc;
   if negb (loadgitconfig.is_nil err) then mret err
   else set a;; mret loadgitconfig.nil_error) w = (r, w') ->
  trace w' = trace w ++ [q] /\
  (forall e, r = Ret e -> loadgitconfig.is_nil e = false ->
             heap w' = heap w).
Proof.
  intros Hacc Hset H.
  apply bind_inv in H as [([a err] & w1 & H1 & H2) | (msg & H1 & ->)].
  - rewrite H1 in Hacc. simpl in Hacc. subst w1.
    destruct err; simpl in H2;
      try (inversion H2; subst; simpl; split; [reflexivity|];
           intros; reflexivity).
    apply bind_inv in H2 as [(u & w2 & H3 & H4) | (msg & H3 & ->)].
    + inversion H4; subst. split; [exact (Hset _ _ _ _ H3)|].
      intros e He. inversion He; subst. discriminate.
    + split; [exact (Hset _ _ _ _ H3)|]. intros e He. discriminate.
  - rewrite H1 in Hacc. simpl in Hacc. subst w'.
    split; [reflexivity|]. intros e He. discriminate.
Qed.

Lemma lgc_loadField_world (git : loadgitconfig.Git)
    (c : loadgitconfig.Config) (l : loc) (i : nat) (ft : StructField)
    (w w' : World) (r : Res loadgitconfig.error) :
  loadgitconfig.loadField git c l i ft w = (r, w') ->
  trace w' = trace w ++ option_list (loadgitconfig.fieldQuery c ft) /\
  (forall e, r = Ret e -> loadgitconfig.is_nil e = false ->
             heap w' = heap w /\
             exists q, loadgitconfig.fieldQuery c ft = Some q).
Proof.
  unfold loadgitconfig.loadField, loadgitconfig.fieldQuery.
  destruct (managed ft) eqn:Hm.
  - destruct (managed_inv ft Hm) as (Hset & Htag & Hkey).
    rewrite Hset, Htag, Hkey. simpl.
    destruct (kindOf (Type_ ft)) eqn:Ek; simpl; intros H;
      try solve [inversion H; subst; rewrite app_nil_r;
                 split; [reflexivity|]; intros e He; inversion He; subst;
                 discriminate].
    + eapply lgc_case in H as [T Hh];
        [ | apply lgc_GetBool_world
          | intros ? ? ? ? Hs; now apply SetBool_world in Hs ].
      split; [exact T|]. intros e He Hn. split; eauto.
    + eapply lgc_case in H as [T Hh];
        [ | apply lgc_GetInt64_world
          | intros ? ? ? ? Hs; now apply SetInt_world in Hs ].
      split; [exact T|]. intros e He Hn. split; eauto.
    + eapply lgc_case in H as [T Hh];
        [ | apply lgc_GetInt64_world
          | intros ? ? ? ? Hs; now apply SetInt_world in Hs ].
      split; [exact T|]. intros e He Hn. split; eauto.
    + eapply lgc_case in H as [T Hh];
        [ | apply lgc_GetInt64_world
          | intros ? ? ? ? Hs; now apply SetInt_world in Hs ].
      split; [exact T|]. intros e He Hn. split; eauto.
    + eapply lgc_case in H as [T Hh];
        [ | apply lgc_GetInt64_world
          | intros ? ? ? ? Hs; now apply SetInt_world in Hs ].
      split; [exact T|]. intros e He Hn. split; eauto.
    + eapply lgc_case in H as [T Hh];
        [ | apply lgc_GetInt64_world
          | intros ? ? ? ? Hs; now apply SetInt_world in Hs ].
      split; [exact T|]. intros e He Hn. split; eauto.
    + eapply lgc_case in H as [T Hh];
        [ | apply lgc_GetStrings_world
          | intros ? ? ? ? Hs; now apply fillArray_world in Hs ].
      split; [exact T|]. intros e He Hn. split; eauto.
    + eapply lgc_case in H as [T Hh];
        [ | apply lgc_GetStrings_world
          | intros ? ? ? ? Hs; now apply SetStrings_world in Hs ].
      split; [exact T|]. intros e He Hn. split; eauto.
    + eapply lgc_case in H as [T Hh];
        [ | apply lgc_GetString_world
          | intros ? ? ? ? Hs; now apply SetString_world in Hs ].
      split; [exact T|]. intros e He Hn. split; eauto.
  - unfold managed in Hm. intros H.
    assert (r = Ret loadgitconfig.nil_error /\ w' = w) as [-> ->].
    { destruct (CanSet ft); simpl in *.
      - apply negb_false_iff in Hm. rewrite Hm in H. now inversion H.
      - now inversion H. }
    simpl. rewrite app_nil_r. split; [reflexivity|].
    intros e He. inversion He; subst. discriminate.
Qed.

Lemma lgc_loadFields_app (git : loadgitconfig.Git)
    (c : loadgitconfig.Config) (l : loc) (xs ys : list StructField) :
  forall (i : nat) (w : World),
    loadgitconfig.loadFields git c l i (xs ++ ys) w =
    (err ← loadgitconfig.loadFields git c l i xs;
     if negb (loadgitconfig.is_nil err) then mret err
     else loadgitconfig.loadFields git c l (i + length xs) ys) w.
Proof.
  induction xs as [|x xs IH]; intros i w; simpl.
  - unfold mbind, M_bind, mret, M_ret. simpl. now rewrite Nat.add_0_r.
  - unfold mbind, M_bind.
    destruct (loadgitconfig.loadField git c l i x w) as [[err|msg] w1];
      [|reflexivity].
    destruct (loadgitconfig.is_nil err) eqn:E; simpl.
    + rewrite IH. unfold mbind, M_bind.
      now replace (S i + length xs)%nat with (i + S (length xs))%nat by lia.
    + unfold mret, M_ret. now rewrite E.
Qed.

Lemma lgc_loadFields_nil_trace (git : loadgitconfig.Git)
    (c : loadgitconfig.Config) (l : loc) (fts : list StructField) :
  forall (i : nat) (w w' : World) (e : loadgitconfig.error),
    loadgitconfig.loadFields git c l i fts w = (Ret e, w') ->
    loadgitconfig.is_nil e = true ->
    trace w' = trace w ++ omap (loadgitconfig.fieldQuery c) fts.
Proof.
  induction fts as [|ft fts IH]; simpl; intros i w w' e H He.
  - inversion H; subst. now rewrite app_nil_r.
  - apply bind_inv in H as [(err & w1 & H1 & H2) | (msg & _ & H)];
      [|discriminate].
    apply lgc_loadField_world in H1 as [T _].
    destruct (loadgitconfig.is_nil err) eqn:E; simpl in H2.
    + rewrite (IH _ _ _ _ H2 He), T.
      simpl. rewrite <- app_assoc. f_equal.
      destruct (loadgitconfig.fieldQuery c ft); reflexivity.
    + inversion H2; subst. congruence.
Qed.

(** X23. [loadgitconfig.Load] stops at the first field that fails: when
    the loop has gone through the fields [pre] without error and the body
    of the loop returns the error [err] for the next field, [Load]
    returns [err] in the world that this field left. The field had a
    command, the commands run are those of [pre] and this one, the
    failing field wrote nothing, and the fields after it are neither
    queried nor written. *)
Theorem lgc_Load_stops_at_first_error (git : loadgitconfig.Git)
    (c : loadgitconfig.Config) (t : rtype) (l : loc)
    (pre : list StructField) (ft : StructField) (rest : list StructField)
    (w0 w w1 : World) (err : loadgitconfig.error) :
  kindOf t = Ptr ->
  kindOf (Elem t) = Struct ->
  fieldsOf (Elem t) = pre ++ ft :: rest ->
  loadgitconfig.loadFields git c l 0 pre w0 =
    (Ret loadgitconfig.nil_error, w) ->
  loadgitconfig.loadField git c l (length pre) ft w = (Ret err, w1) ->
  loadgitconfig.is_nil err = false ->
  loadgitconfig.Load git c (Iface t (VPtr (Some l))) w0 = (Ret err, w1) /\
  heap w1 = heap w /\
  exists q,
    loadgitconfig.fieldQuery c ft = Some q /\
    trace w1 =
      trace w0 ++ omap (loadgitconfig.fieldQuery c) pre ++ [q].
Proof.
  intros Ht He Hfields Hpre Hft Herr.
  split.
  - unfold loadgitconfig.Load. rewrite Ht, He, Hfields.
    rewrite lgc_loadFields_app, (bind_Ret _ _ _ _ _ Hpre). simpl.
    rewrite (bind_Ret _ _ _ _ _ Hft). now rewrite Herr.
  - destruct (lgc_loadField_world _ _ _ _ _ _ _ _ Hft) as [T Hh].
    destruct (Hh err eq_refl Herr) as (Hheap & q & Hq).
    split; [exact Hheap|]. exists q. split; [exact Hq|].
    rewrite T, Hq, (lgc_loadFields_nil_trace _ _ _ _ _ _ _ _ Hpre eq_refl).
    simpl. now rewrite <- app_assoc.
Qed.

Lemma lgc_Load_stops_at_first_error_witness :
  loadgitconfig.Load loadgitconfig.gitTest loadgitconfig.Default
    (pointerTo mixedStruct) (worldWith mixedValue) =
    (Ret (loadgitconfig.ErrInvalidKey "no.such"),
     ran (worldWith mixedValue)
       (loadgitconfig.getArgs loadgitconfig.Default "no.such" [])).
Proof.
  apply (lgc_Load_stops_at_first_error loadgitconfig.gitTest
           loadgitconfig.Default (TPtr mixedStruct) 0%nat [] missingField
           (ratioField :: mixedRest) (worldWith mixedValue)
           (worldWith mixedValue)
           (ran (worldWith mixedValue)
              (loadgitconfig.getArgs loadgitconfig.Default "no.such" []))
           (loadgitconfig.ErrInvalidKey "no.such"));
    reflexivity.
Defined.

(** X24. When [loadgitconfig.Load] on a pointer to a struct returns the
    nil error, the loop went through every field: the commands run are
    those of all the settable, tagged fields of a kind it populates, in
    the order of the fields. A settable, tagged field of another kind
    has no command and is passed over without an error, the switch
    having no default case. *)
Theorem lgc_Load_nil_after_all_fields (git : loadgitconfig.Git)
    (c : loadgitconfig.Config) (t : rtype) (l : loc) (w w' : World)
    (e : loadgitconfig.error) :
  kindOf t = Ptr ->
  kindOf (Elem t) = Struct ->
  loadgitconfig.Load git c (Iface t (VPtr (Some l))) w = (Ret e, w') ->
  loadgitconfig.is_nil e = true ->
  trace w' =
    trace w ++ omap (loadgitconfig.fieldQuery c) (fieldsOf (Elem t)) /\
  (forall i ft w1,
     loadgitconfig.fieldQuery c ft = None ->
     loadgitconfig.loadField git c l i ft w1 =
       (Ret loadgitconfig.nil_error, w1)).
Proof.
  intros Ht He HLoad Hnil. split.
  - unfold loadgitconfig.Load in HLoad. rewrite Ht, He in HLoad.
    exact (lgc_loadFields_nil_trace _ _ _ _ _ _ _ _ HLoad Hnil).
  - intros i ft w1 Hq.
    unfold loadgitconfig.fieldQuery in Hq.
    unfold loadgitconfig.loadField.
    destruct (managed ft) eqn:Hm.
    + destruct (managed_inv ft Hm) as (Hset & Htag & Hkey).
      rewrite Hset, Htag, Hkey. simpl.
      destruct (kindOf (Type_ ft)); try discriminate; reflexivity.
    + unfold managed in Hm. destruct (CanSet ft); simpl in *;
        [|reflexivity].
      apply negb_false_iff in Hm. now rewrite Hm.
Qed.

Lemma lgc_Load_nil_after_all_fields_witness :
  trace (snd (loadgitconfig.Load loadgitconfig.gitTest
                loadgitconfig.Default (pointerTo testStruct)
                (worldWith testZero))) =
    trace (worldWith testZero) ++
    omap (loadgitconfig.fieldQuery loadgitconfig.Default)
      (fieldsOf (Elem (TPtr testStruct))).
Proof.
  apply (lgc_Load_nil_after_all_fields loadgitconfig.gitTest
           loadgitconfig.Default (TPtr testStruct) 0%nat
           (worldWith testZero)
           (snd (loadgitconfig.Load loadgitconfig.gitTest
                   loadgitconfig.Default (pointerTo testStruct)
                   (worldWith testZero)))
           loadgitconfig.nil_error eq_refl eq_refl).
  - vm_compute. reflexivity.
  - reflexivity.
Defined.

(** * [package gitconfig], continued *)

(** ** Every entry is a failure *)

Lemma loadField_entry_is_failure (git : Git) (c : Config) (l : loc)
    (i : nat) (ft : StructField) (errs errs' : gmap string error)
    (w w' : World) :
  loadField git c l i ft errs w = (Ret errs', w') ->
  errs' = errs \/
  exists err, errs' = <[Name ft := err]> errs /\ fieldFails git c ft w err w'.
Proof.
  intros H1. destruct (managed ft) eqn:Hm.
  - destruct (managed_inv ft Hm) as (Hset & Htag & Hkey).
    unfold loadField in H1. rewrite Hset, Htag, Hkey in H1. simpl in H1.
    unfold fieldFails. rewrite Hm.
    destruct (kindOf (Type_ ft)) eqn:Ek;
      try solve [inversion H1; subst; right; eexists;
                 split; [reflexivity|]; split; [reflexivity|];
                 split; reflexivity];
      switch_cases H1 Ek;
      (destruct C as [(a & e & Hacc & Hnil & D & _) | [(? & _ & D & _) |
                      (? & ? & [|] & _ & _ & D)]];
       inversion D; subst; [right | left; reflexivity]);
      exists e; (split; [reflexivity|]); (split; [reflexivity|]);
      simpl; (split; [|exact Hnil]);
      now rewrite (bind_Ret _ _ _ _ _ Hacc).
  - rewrite (loadField_unmanaged _ _ _ _ _ _ _ Hm) in H1.
    inversion H1; subst. now left.
Qed.

Lemma loadFields_entries_are_failures (git : Git) (c : Config) (l : loc)
    (fts : list StructField) :
  forall (i : nat) (errs errs' : gmap string error) (w w' : World)
         (name : string) (err : error),
    loadFields git c l i fts errs w = (Ret errs', w') ->
    errs' !! name = Some err ->
    errs !! name = Some err \/
    exists k ft errsk wk w1,
      fts !! k = Some ft /\ Name ft = name /\
      loadFields git c l i (take k fts) errs w = (Ret errsk, wk) /\
      fieldFails git c ft wk err w1.
Proof.
  induction fts as [|ft fts IH]; simpl; intros i errs errs' w w' name err H He.
  - inversion H; subst. now left.
  - apply bind_inv in H as [(errs1 & w1 & H1 & H2) | (msg & _ & H)];
      [|discriminate].
    destruct (IH _ _ _ _ _ _ _ H2 He)
      as [Hin | (k & ft' & errsk & wk & w2 & Hk & Hn & Hreach & Hfail)].
    + destruct (loadField_entry_is_failure _ _ _ _ _ _ _ _ _ H1)
        as [-> | (e0 & -> & Hfail)]; [now left|].
      destruct (decide (name = Name ft)) as [->|Hne].
      * rewrite lookup_insert_eq in Hin. inversion Hin; subst.
        right. exists 0%nat, ft, errs, w, w1. simpl. auto.
      * rewrite lookup_insert_ne in Hin by congruence. now left.
    + right. exists (S k), ft', errsk, wk, w2. simpl.
      rewrite (bind_Ret _ _ _ _ _ H1). auto.
Qed.

(** X25. Every entry of the mapping [Load] returns is a failure that
    happened: if [OfField] finds an error under a name, the struct has a
    settable, tagged field of that name that [Load] reached in a world in
    which it failed with this very error, from its accessor or for its
    kind. *)
Theorem Load_entries_are_failures (git : Git) (c : Config) (t : rtype)
    (l : loc) (w w' : World) (m : LoadError) (name : string) :
  kindOf t = Ptr ->
  kindOf (Elem t) = Struct ->
  Load git c (Iface t (VPtr (Some l))) w = (Ret (LoadError_ m), w') ->
  is_nil (OfField m name) = false ->
  exists j ft errsj wj w1,
    fieldsOf (Elem t) !! j = Some ft /\
    Name ft = name /\
    loadFields git c l 0 (take j (fieldsOf (Elem t))) ∅ w =
      (Ret errsj, wj) /\
    fieldFails git c ft wj (OfField m name) w1.
Proof.
  intros Ht He HLoad Hnil.
  rewrite (Load_struct_pointer git c t l Ht He) in HLoad.
  apply bind_inv in HLoad as [(errs & w1 & H1 & H2) | (msg & _ & H2)];
    [|discriminate].
  inversion H2; subst. rewrite OfField_Any in *. simpl in *.
  destruct (errs !! name) as [err|] eqn:E; simpl in *; [|discriminate].
  destruct (loadFields_entries_are_failures _ _ _ _ _ _ _ _ _ _ _ H1 E)
    as [Hin | (k & ft & errsk & wk & w2 & Hk & Hn & Hreach & Hfail)].
  - rewrite lookup_empty in Hin. discriminate.
  - exists k, ft, errsk, wk, w2. auto.
Qed.

Lemma Load_entries_are_failures_witness :
  exists j ft errsj wj w1,
    fieldsOf (Elem (TPtr mixedStruct)) !! j = Some ft /\
    Name ft = "Missing" /\
    loadFields gitTest Default 0%nat 0%nat
      (take j (fieldsOf (Elem (TPtr mixedStruct)))) ∅
      (worldWith mixedValue) = (Ret errsj, wj) /\
    fieldFails gitTest Default ft wj
      (OfField
         (MkMap (<["Ratio" :=
                     fmtError "cannot populate field %q of type %s"
                       [ArgString "Ratio"; ArgTypeString TFloat64]]>
                   (<["Missing" := RunError "" (Some exit1)]> ∅)))
         "Missing") w1.
Proof.
  apply (Load_entries_are_failures gitTest Default (TPtr mixedStruct)
           0%nat (worldWith mixedValue)
           (snd (Load gitTest Default (pointerTo mixedStruct)
                   (worldWith mixedValue)))
           (MkMap (<["Ratio" :=
                       fmtError "cannot populate field %q of type %s"
                         [ArgString "Ratio"; ArgTypeString TFloat64]]>
                     (<["Missing" := RunError "" (Some exit1)]> ∅)))
           "Missing" eq_refl eq_refl).
  - vm_compute. reflexivity.
  - vm_compute. reflexivity.
Defined.

(** ** When [Load] does not fault *)

Lemma get_prints_an_entry (git : Git) (c : Config) (key : string)
    (hint : list string) (w : World) :
  printsAnEntry git ->
  exists values err,
    get git c key hint w =
      (Ret (values, err), ran w (getArgs c key hint)) /\
    (is_nil err = true -> exists v vs, values = v :: vs).
Proof.
  intros Hgit. rewrite get_eq.
  destruct (git (trace w) (getArgs c key hint)) as [out|e out se|d] eqn:Eg.
  - eexists _, _. split; [reflexivity|]. intros _.
    apply Hgit in Eg.
    pose proof (Split_length out NUL) as Hlen.
    destruct (take (length (Split out NUL) - 1) (Split out NUL))
      as [|v vs] eqn:Et; [|eauto].
    apply (f_equal length) in Et. rewrite length_take in Et.
    simpl in Et. lia.
  - eexists _, _. split; [reflexivity|]. discriminate.
  - eexists _, _. split; [reflexivity|]. discriminate.
Qed.

Lemma fillArray_returns (l : loc) (i : nat) (t : rtype) (ss : list string) :
  kindOf (Elem t) = String_ ->
  forall (j : nat) (w : World),
    exists w', fillArray l i t j ss w = (Ret tt, w').
Proof.
  intros Hk. induction ss as [|s ss IH]; intros j w; simpl; [eauto|].
  destruct (j <? Len t)%nat; [|eauto].
  unfold mbind, M_bind. unfold Index_SetString. rewrite Hk.
  unfold store. apply IH.
Qed.

Lemma accessors_return (git : Git) (c : Config) (key : string) (w : World) :
  printsAnEntry git ->
  (exists s err w', GetString git c key w = (Ret (s, err), w')) /\
  (exists vs err w', GetStrings git c key w = (Ret (vs, err), w')) /\
  (exists b err w', GetBool git c key w = (Ret (b, err), w')) /\
  (exists n err w', GetInt64 git c key w = (Ret (n, err), w')).
Proof.
  intros Hgit. split; [|split; [|split]].
  - destruct (get_prints_an_entry git c key [] w Hgit)
      as (vs & err & Hget & Hne).
    rewrite (GetString_of_get _ _ _ _ _ _ _ Hget).
    destruct (is_nil err) eqn:E; simpl; [|eauto].
    destruct (Hne eq_refl) as (v & vs' & ->).
    destruct (last (v :: vs')) as [s|] eqn:El;
      [eauto | apply last_None in El; discriminate].
  - destruct (get_prints_an_entry git c key [] w Hgit)
      as (vs & err & Hget & _).
    unfold GetStrings. eauto.
  - destruct (get_prints_an_entry git c key ["--bool"] w Hgit)
      as (vs & err & Hget & Hne).
    rewrite (GetBool_of_get _ _ _ _ _ _ _ Hget).
    destruct (is_nil err) eqn:E; simpl; [|eauto].
    destruct (Hne eq_refl) as (v & vs' & ->). simpl. eauto.
  - destruct (get_prints_an_entry git c key ["--int"] w Hgit)
      as (vs & err & Hget & Hne).
    rewrite (GetInt64_of_get _ _ _ _ _ _ _ Hget).
    destruct (is_nil err) eqn:E; simpl; [|eauto].
    destruct (Hne eq_refl) as (v & vs' & ->). simpl.
    destruct (ParseInt v) as [n e1]. eauto.
Qed.

Lemma loadField_returns (git : Git) (c : Config) (l : loc) (i : nat)
    (ft : StructField) (errs : gmap string error) (w : World) :
  printsAnEntry git ->
  stringTyped ft ->
  exists errs' w', loadField git c l i ft errs w = (Ret errs', w').
Proof.
  intros Hgit Hty. destruct (managed ft) eqn:Hm.
  - destruct (managed_inv ft Hm) as (Hset & Htag & Hkey).
    destruct (accessors_return git c (keyOf ft) w Hgit)
      as ((s & e1 & w1 & HS) & (ss & e2 & w2 & HSs) &
          (b & e3 & w3 & HB) & (n & e4 & w4 & HI)).
    unfold loadField. rewrite Hset, Htag, Hkey. simpl.
    unfold stringTyped in Hty.
    destruct (kindOf (Type_ ft)) eqn:Ek; try (eexists _, _; reflexivity).
    + rewrite (bind_Ret _ _ _ _ _ HB). simpl.
      destruct (is_nil e3); simpl; [|eexists _, _; reflexivity].
      unfold SetBool. rewrite Ek. eexists _, _. reflexivity.
    + rewrite (bind_Ret _ _ _ _ _ HI). simpl.
      destruct (is_nil e4); simpl; [|eexists _, _; reflexivity].
      unfold SetInt. rewrite Ek. eexists _, _. reflexivity.
    + rewrite (bind_Ret _ _ _ _ _ HI). simpl.
      destruct (is_nil e4); simpl; [|eexists _, _; reflexivity].
      unfold SetInt. rewrite Ek. eexists _, _. reflexivity.
    + rewrite (bind_Ret _ _ _ _ _ HI). simpl.
      destruct (is_nil e4); simpl; [|eexists _, _; reflexivity].
      unfold SetInt. rewrite Ek. eexists _, _. reflexivity.
    + rewrite (bind_Ret _ _ _ _ _ HI). simpl.
      destruct (is_nil e4); simpl; [|eexists _, _; reflexivity].
      unfold SetInt. rewrite Ek. eexists _, _. reflexivity.
    + rewrite (bind_Ret _ _ _ _ _ HI). simpl.
      destruct (is_nil e4); simpl; [|eexists _, _; reflexivity].
      unfold SetInt. rewrite Ek. eexists _, _. reflexivity.
    + rewrite (bind_Ret _ _ _ _ _ HSs). simpl.
      destruct (is_nil e2); simpl; [|eexists _, _; reflexivity].
      destruct (fillArray_returns l i (Type_ ft) ss Hty 0%nat w2)
        as [w' Hfill].
      rewrite (bind_Ret _ _ _ _ _ Hfill). eexists _, _. reflexivity.
    + rewrite (bind_Ret _ _ _ _ _ HSs). simpl.
      destruct (is_nil e2); simpl; [|eexists _, _; reflexivity].
      unfold SetStrings. rewrite Hty. eexists _, _. reflexivity.
    + rewrite (bind_Ret _ _ _ _ _ HS). simpl.
      destruct (is_nil e1); simpl; [|eexists _, _; reflexivity].
      unfold SetString. rewrite Ek. eexists _, _. reflexivity.
  - rewrite (loadField_unmanaged _ _ _ _ _ _ _ Hm). eauto.
Qed.

(** X26. [Load] on a pointer to a struct returns, without a fault,
    whenever [git] prints at least one entry each time it exits with
    status 0, as [git config --get-all] does, and the fields of the
    struct that are slices or arrays are slices or arrays of strings:
    whatever else goes wrong becomes an entry of the mapping. *)
Theorem Load_returns (git : Git) (c : Config) (t : rtype) (l : loc)
    (w : World) :
  kindOf t = Ptr ->
  kindOf (Elem t) = Struct ->
  printsAnEntry git ->
  Forall stringTyped (fieldsOf (Elem t)) ->
  exists m w', Load git c (Iface t (VPtr (Some l))) w = (Ret (LoadError_ m), w').
Proof.
  intros Ht He Hgit Hty.
  rewrite (Load_struct_pointer git c t l Ht He).
  assert (forall fts, Forall stringTyped fts ->
            forall i errs w0,
              exists errs' w', loadFields git c l i fts errs w0
                               = (Ret errs', w')) as Hloop.
  { induction 1 as [|ft fts Hft _ IH]; intros i errs w0; simpl; [eauto|].
    destruct (loadField_returns git c l i ft errs w0 Hgit Hft)
      as (errs1 & w1 & H1).
    rewrite (bind_Ret _ _ _ _ _ H1). apply IH. }
  destruct (Hloop _ Hty 0%nat ∅ w) as (errs' & w' & H).
  rewrite (bind_Ret _ _ _ _ _ H). eexists _, _. reflexivity.
Qed.

Lemma Load_returns_witness :
  exists m w',
    Load gitHuge Default (pointerTo testStruct) (worldWith testZero) =
      (Ret (LoadError_ m), w').
Proof.
  apply (Load_returns gitHuge Default (TPtr testStruct) 0%nat
           (worldWith testZero)).
  - reflexivity.
  - reflexivity.
  - intros history args out H. inversion H. vm_compute. lia.
  - repeat constructor.
Defined.

(** ** [Config.Load]: a field that fails and the fields after it *)

(** C1, as stated, fails: on the struct [blockedStruct] the field
    [Missing] fails, its key being absent, and yet [Load] returns no
    mapping and does not run the command of the last field. *)
Lemma Load_later_field_can_block :
  ~ (forall (git : Git) (c : Config) (t : rtype) (l : loc)
       (pre : list StructField) (ft : StructField) (rest : list StructField)
       (w0 w w1 : World) (errs : gmap string error) (err : error),
       kindOf t = Ptr ->
       kindOf (Elem t) = Struct ->
       fieldsOf (Elem t) = pre ++ ft :: rest ->
       loadFields git c l 0 pre ∅ w0 = (Ret errs, w) ->
       fieldFails git c ft w err w1 ->
       exists e w',
         Load git c (Iface t (VPtr (Some l))) w0 = (Ret e, w') /\
         trace w' = trace w1 ++ omap (fieldQuery c) rest).
Proof.
  intros H.
  destruct (H gitTest Default (TPtr blockedStruct) 0%nat [] missingField
              [countsField; emailField]
              (worldWith blockedValue) (worldWith blockedValue)
              (ran (worldWith blockedValue) (getArgs Default "no.such" []))
              ∅ (RunError "" (Some exit1))
              eq_refl eq_refl eq_refl eq_refl
              (conj eq_refl (conj eq_refl eq_refl)))
    as (e & w' & HL & _).
  vm_compute in HL. discriminate HL.
Qed.

(** On that struct [Load] faults in the field after the one that failed,
    a slice of integers whose key is present: the command of [UserEmail]
    is never run and the field keeps its value. *)
Lemma Load_blocked_by_slice_of_ints :
  fst (Load gitTest Default (pointerTo blockedStruct)
         (worldWith blockedValue)) =
    Panic "reflect.Set: value of type []string is not assignable" /\
  trace (snd (Load gitTest Default (pointerTo blockedStruct)
                (worldWith blockedValue))) =
    [getArgs Default "no.such" []; getArgs Default "ghq.root" []] /\
  fieldAt (heap (snd (Load gitTest Default (pointerTo blockedStruct)
                        (worldWith blockedValue)))) 0%nat 2%nat =
    Some (VString "u").
Proof. repeat split; vm_compute; reflexivity. Qed.

(** So it does when a later field is a string and [git] exits with
    status 0 without printing an entry. *)
Lemma Load_blocked_by_empty_success :
  fst (Load gitSilentButOne Default (pointerTo twoStrings)
         (worldWith twoStringsValue)) =
    Panic "index out of range [-1]" /\
  trace (snd (Load gitSilentButOne Default (pointerTo twoStrings)
                (worldWith twoStringsValue))) =
    [getArgs Default "no.such" []; getArgs Default "user.email" []] /\
  fieldAt (heap (snd (Load gitSilentButOne Default (pointerTo twoStrings)
                        (worldWith twoStringsValue)))) 0%nat 1%nat =
    Some (VString "u").
Proof. repeat split; vm_compute; reflexivity. Qed.

(** One case of the switch of [Load], when neither the accessor nor the
    setter faults: the field gets the value made of what the accessor
    returned without an error, and keeps its value otherwise. *)
Lemma load_case_outcome {A : Type} (acc : M (A * error)) (set : A -> M unit)
    (conv : A -> value) (l : loc) (i : nat) (name : string)
    (errs : gmap string error) (q : list string) (w : World)
    (vs : list value) (old : value) :
  (exists a e, acc w = (Ret (a, e), ran w q)) ->
  (forall a,
     set a (ran w q) =
       (Ret tt,
        {| trace := trace (ran w q);
           heap := <[l := VStruct (<[i := conv a]> vs)]> (heap w) |})) ->
  heap w !! l = Some (VStruct vs) ->
  vs !! i = Some old ->
  exists errs' w' v',
    ('(a, err) ← acc;
     if negb (is_nil err) then mret (<[name := err]> errs)
     else set a;; mret errs) w = (Ret errs', w') /\
    heap w' = <[l := VStruct (<[i := v']> vs)]> (heap w) /\
    (forall v,
       match acc w with
       | (Ret (a, nil_error), _) => Some (conv a)
       | _ => None
       end = Some v -> v' = v).
Proof.
  intros (a & e & Hacc) Hset Hl Hi.
  rewrite (bind_Ret _ _ _ _ _ Hacc), Hacc.
  assert (heap (ran w q) = <[l := VStruct (<[i := old]> vs)]> (heap w))
    as Hsame.
  { simpl. now rewrite (list_insert_id _ _ _ Hi), (insert_id _ _ _ Hl). }
  destruct e; cbn [is_nil negb];
    try (eexists _, _, old; split; [reflexivity|];
         split; [exact Hsame | discriminate]).
  rewrite (bind_Ret _ _ _ _ _ (Hset a)).
  eexists _, _, (conv a). split; [reflexivity|]. split; [reflexivity|].
  intros v Hv. now inversion Hv.
Qed.

Lemma accessors_return_in (git : Git) (c : Config) (key : string)
    (w : World) :
  printsAnEntry git ->
  (exists s err,
     GetString git c key w = (Ret (s, err), ran w (getArgs c key []))) /\
  (exists vs err,
     GetStrings git c key w = (Ret (vs, err), ran w (getArgs c key []))) /\
  (exists b err,
     GetBool git c key w = (Ret (b, err), ran w (getArgs c key ["--bool"]))) /\
  (exists n err,
     GetInt64 git c key w = (Ret (n, err), ran w (getArgs c key ["--int"]))).
Proof.
  intros Hgit.
  destruct (accessors_return git c key w Hgit)
    as ((s & e1 & w1 & HS) & (ss & e2 & w2 & HSs) &
        (b & e3 & w3 & HB) & (n & e4 & w4 & HI)).
  pose proof (GetString_world git c key w) as W1. rewrite HS in W1.
  pose proof (GetStrings_world git c key w) as W2. rewrite HSs in W2.
  pose proof (GetBool_world git c key w) as W3. rewrite HB in W3.
  pose proof (GetInt64_world git c key w) as W4. rewrite HI in W4.
  simpl in *. subst.
  split; [eauto|]. split; [eauto|]. split; eauto.
Qed.

(** The case of the switch of [Load] for a signed integer of [bits]
    bits. *)
Ltac int_case bits :=
  match goal with
  | HI : exists n err, GetInt64 ?git ?c ?key ?w = _,
    Hl : heap ?w !! ?l = Some (VStruct ?vs),
    Hi : ?vs !! ?i = Some ?old,
    Hlt : (?i < length ?vs)%nat,
    Ek : kindOf (Type_ ?ft) = _ |- context [SetInt ?l ?i _] =>
      let errs' := fresh "errs'" in
      let w' := fresh "w'" in
      let v' := fresh "v'" in
      let H1 := fresh "H1" in
      let H2 := fresh "H2" in
      let H3 := fresh "H3" in
      match goal with
      | |- context [<[Name ft := _]> ?errs] =>
          destruct (load_case_outcome (GetInt64 git c key)
                      (SetInt l i (Type_ ft))
                      (fun n => VInt (wrapInt bits n)) l i (Name ft) errs
                      (getArgs c key ["--int"]) w vs old HI)
            as (errs' & w' & v' & H1 & H2 & H3);
          [ intros n; unfold SetInt; rewrite Ek;
            exact (store_field_insert l i (VInt (wrapInt bits n)) (ran w _)
                     vs Hl Hlt)
          | exact Hl
          | exact Hi
          | exists errs', w', v'; split; [exact H1|]; split; [exact H2|];
            intros v _ Hv; apply H3; revert Hv; unfold loadedValue;
            rewrite Ek; cbn [intBits];
            destruct (GetInt64 git c key w) as [[[n e]|msg] w2];
            [destruct e|]; auto ]
      end
  end.

(** The body of the loop of [Load], when [git] prints an entry whenever
    it exits with status 0 and the field, if a slice or an array, is one
    of strings: it returns, and the field then holds the value made of
    what its accessor returned if that was without an error, and what it
    held before otherwise. *)
Lemma loadField_outcome (git : Git) (c : Config) (l : loc) (i : nat)
    (ft : StructField) (errs : gmap string error) (w : World)
    (vs : list value) (old : value) :
  printsAnEntry git ->
  stringTyped ft ->
  heap w !! l = Some (VStruct vs) ->
  vs !! i = Some old ->
  fitsField ft old ->
  exists errs' w' v',
    loadField git c l i ft errs w = (Ret errs', w') /\
    heap w' = <[l := VStruct (<[i := v']> vs)]> (heap w) /\
    (forall v,
       managed ft = true -> loadedValue git c ft w old = Some v -> v' = v).
Proof.
  intros Hgit Hty Hl Hi Hfit.
  assert (heap w = <[l := VStruct (<[i := old]> vs)]> (heap w)) as Hsame.
  { now rewrite (list_insert_id _ _ _ Hi), (insert_id _ _ _ Hl). }
  pose proof (lookup_lt_Some _ _ _ Hi) as Hlt.
  destruct (managed ft) eqn:Hm.
  - destruct (managed_inv ft Hm) as (Hset & Htag & Hkey).
    destruct (accessors_return_in git c (keyOf ft) w Hgit)
      as (HS & HSs & HB & HI).
    unfold stringTyped, fitsField in *.
    unfold loadField. rewrite Hset, Htag, Hkey. cbn [negb].
    destruct (kindOf (Type_ ft)) eqn:Ek;
      try (exists (<[Name ft :=
                       fmtError "cannot populate field %q of type %s"
                         [ArgString (Name ft); ArgTypeString (Type_ ft)]]>
                     errs), w, old;
           split; [reflexivity|]; split; [exact Hsame|];
           intros v _; unfold loadedValue; rewrite Ek; discriminate).
    + (* Bool *)
      destruct (load_case_outcome (GetBool git c (keyOf ft))
                  (SetBool l i (Type_ ft)) VBool l i (Name ft) errs
                  (getArgs c (keyOf ft) ["--bool"]) w vs old HB)
        as (errs' & w' & v' & H1 & H2 & H3); [|exact Hl|exact Hi|].
      { intros b. unfold SetBool. rewrite Ek.
        exact (store_field_insert l i (VBool b) (ran w _) vs Hl Hlt). }
      exists errs', w', v'. split; [exact H1|]. split; [exact H2|].
      intros v _ Hv. apply H3. revert Hv. unfold loadedValue. rewrite Ek.
      auto.
    + int_case 64.
    + int_case 8.
    + int_case 16.
    + int_case 32.
    + int_case 64.
    + (* Array *)
      destruct (Hfit eq_refl) as (es & -> & Hlen).
      destruct (load_case_outcome (GetStrings git c (keyOf ft))
                  (fillArray l i (Type_ ft) 0)
                  (fun ss => VArray (filled es 0 ss)) l i (Name ft) errs
                  (getArgs c (keyOf ft) []) w vs (VArray es) HSs)
        as (errs' & w' & v' & H1 & H2 & H3); [|exact Hl|exact Hi|].
      { intros ss.
        exact (fillArray_run l i (Type_ ft) ss 0%nat (ran w _) vs es
                 Hty Hl Hi Hlen). }
      exists errs', w', v'. split; [exact H1|]. split; [exact H2|].
      intros v _ Hv. apply H3. revert Hv. unfold loadedValue. rewrite Ek.
      destruct (GetStrings git c (keyOf ft) w) as [[[ss e]|msg] w2];
        [destruct e|]; auto.
    + (* Slice *)
      destruct (load_case_outcome (GetStrings git c (keyOf ft))
                  (fun ss => SetStrings l i (Type_ ft) (VString <$> ss))
                  (fun ss => VSlice (VString <$> ss)) l i (Name ft) errs
                  (getArgs c (keyOf ft) []) w vs old HSs)
        as (errs' & w' & v' & H1 & H2 & H3); [|exact Hl|exact Hi|].
      { intros ss. unfold SetStrings. rewrite Hty.
        exact (store_field_insert l i (VSlice (VString <$> ss)) (ran w _)
                 vs Hl Hlt). }
      exists errs', w', v'. split; [exact H1|]. split; [exact H2|].
      intros v _ Hv. apply H3. revert Hv. unfold loadedValue. rewrite Ek.
      auto.
    + (* String *)
      destruct (load_case_outcome (GetString git c (keyOf ft))
                  (SetString l i (Type_ ft)) VString l i (Name ft) errs
                  (getArgs c (keyOf ft) []) w vs old HS)
        as (errs' & w' & v' & H1 & H2 & H3); [|exact Hl|exact Hi|].
      { intros s. unfold SetString. rewrite Ek.
        exact (store_field_insert l i (VString s) (ran w _) vs Hl Hlt). }
      exists errs', w', v'. split; [exact H1|]. split; [exact H2|].
      intros v _ Hv. apply H3. revert Hv. unfold loadedValue. rewrite Ek.
      auto.
  - rewrite (loadField_unmanaged _ _ _ _ _ _ _ Hm).
    exists errs, w, old. split; [reflexivity|]. split; [exact Hsame|].
    discriminate.
Qed.

(** The loop of [Load] over the fields [fts], the first of which has
    index [i], under the same conditions: it returns, and every field of
    [fts] then holds the value made of what its accessor returned, in
    the world in which the loop reached it, if that was without an
    error. *)
Lemma loadFields_outcome (git : Git) (c : Config) (l : loc)
    (fts : list StructField) :
  printsAnEntry git ->
  Forall stringTyped fts ->
  forall (i : nat) (errs : gmap string error) (w : World) (vs : list value),
    heap w !! l = Some (VStruct vs) ->
    (forall k f, fts !! k = Some f ->
                 exists old, vs !! (i + k)%nat = Some old /\ fitsField f old) ->
    exists errs' w' vs',
      loadFields git c l i fts errs w = (Ret errs', w') /\
      heap w' = <[l := VStruct vs']> (heap w) /\
      (forall j, (j < i)%nat -> vs' !! j = vs !! j) /\
      (forall k f old,
         fts !! k = Some f -> vs !! (i + k)%nat = Some old ->
         exists errsk wk,
           loadFields git c l i (take k fts) errs w = (Ret errsk, wk) /\
           forall v,
             managed f = true -> loadedValue git c f wk old = Some v ->
             vs' !! (i + k)%nat = Some v).
Proof.
  intros Hgit Hty. induction Hty as [|ft fts Hft _ IH];
    intros i errs w vs Hl Hslots.
  - exists errs, w, vs. split; [reflexivity|].
    split; [now rewrite (insert_id _ _ _ Hl)|].
    split; [reflexivity|]. intros k f old Hk. inversion Hk.
  - destruct (Hslots 0%nat ft eq_refl) as (old0 & Hi & Hfit).
    rewrite Nat.add_0_r in Hi.
    pose proof (lookup_lt_Some _ _ _ Hi) as Hlt.
    destruct (loadField_outcome git c l i ft errs w vs old0
                Hgit Hft Hl Hi Hfit)
      as (errs1 & w1 & v1 & H1 & Hheap1 & Hv1).
    destruct (IH (S i) errs1 w1 (<[i := v1]> vs)) as
      (errs' & w' & vs' & HL & Hheap & Hframe & Hpop).
    { rewrite Hheap1. apply lookup_insert_eq. }
    { intros k f Hk. destruct (Hslots (S k) f Hk) as (old & Ho & Hf).
      exists old. split; [|exact Hf].
      rewrite list_lookup_insert_ne by lia.
      now replace (S i + k)%nat with (i + S k)%nat by lia. }
    exists errs', w', vs'. split; [|split; [|split]].
    + simpl. now rewrite (bind_Ret _ _ _ _ _ H1).
    + rewrite Hheap, Hheap1. apply insert_insert_eq.
    + intros j Hj. rewrite Hframe by lia.
      apply list_lookup_insert_ne. lia.
    + intros [|k] f old Hk Ho.
      * inversion Hk; subst f. rewrite Nat.add_0_r in Ho |- *.
        rewrite Hi in Ho. inversion Ho; subst old.
        exists errs, w. split; [reflexivity|].
        intros v Hm Hv. rewrite Hframe by lia.
        rewrite (Hv1 v Hm Hv). now apply list_lookup_insert_eq.
      * simpl in Hk.
        destruct (Hpop k f old Hk) as (errsk & wk & Hreach & Hval).
        { rewrite list_lookup_insert_ne by lia.
          now replace (S i + k)%nat with (i + S k)%nat by lia. }
        exists errsk, wk. split.
        -- simpl. now rewrite (bind_Ret _ _ _ _ _ H1).
        -- intros v Hm Hv.
           replace (i + S k)%nat with (S i + k)%nat by lia. auto.
Qed.

Lemma loadFields_returns (git : Git) (c : Config) (l : loc)
    (fts : list StructField) :
  printsAnEntry git ->
  Forall stringTyped fts ->
  forall (i : nat) (errs : gmap string error) (w : World),
    exists errs' w', loadFields git c l i fts errs w = (Ret errs', w').
Proof.
  intros Hgit. induction 1 as [|ft fts Hft _ IH]; intros i errs w; simpl;
    [eauto|].
  destruct (loadField_returns git c l i ft errs w Hgit Hft)
    as (errs1 & w1 & H1).
  rewrite (bind_Ret _ _ _ _ _ H1). apply IH.
Qed.

(** What [Load] does after a field has failed, the fields before it
    done. *)
Lemma Load_after_field_failure (git : Git) (c : Config)
    (t : rtype) (l : loc) (pre : list StructField) (ft : StructField)
    (rest : list StructField) (w0 w w1 : World)
    (errs : gmap string error) (err : error) (vs0 : list value) :
  kindOf t = Ptr ->
  kindOf (Elem t) = Struct ->
  fieldsOf (Elem t) = pre ++ ft :: rest ->
  heap w0 !! l = Some (VStruct vs0) ->
  Forall2 fitsField (pre ++ ft :: rest) vs0 ->
  Name ft ∉ Name <$> filter (fun f => managed f = true) rest ->
  printsAnEntry git ->
  Forall stringTyped rest ->
  loadFields git c l 0 pre ∅ w0 = (Ret errs, w) ->
  fieldFails git c ft w err w1 ->
  exists m w',
    Load git c (Iface t (VPtr (Some l))) w0 =
      (Ret (LoadError_ (MkMap m)), w') /\
    m !! Name ft = Some err /\
    heap w1 = heap w /\
    trace w' = trace w1 ++ omap (fieldQuery c) rest /\
    fieldAt (heap w') l (length pre) = fieldAt (heap w0) l (length pre) /\
    (forall k f old,
       rest !! k = Some f ->
       vs0 !! (S (length pre) + k)%nat = Some old ->
       exists errsk wk,
         loadFields git c l (S (length pre)) (take k rest)
           (<[Name ft := err]> errs) w1 = (Ret errsk, wk) /\
         forall v,
           managed f = true -> loadedValue git c f wk old = Some v ->
           fieldAt (heap w') l (S (length pre) + k) = Some v).
Proof.
  intros Ht He Hfields Hl0 Hfit Hname Hgit Hty Hpre Hfail.
  destruct (loadField_fails git c l (length pre) ft errs w w1 err Hfail)
    as (Hstep & Hheap & _).
  destruct (loadFields_world _ _ _ _ _ _ _ _ _ Hpre) as (_ & Bpre & _ & _).
  pose proof (Forall2_length _ _ _ Hfit) as Hlen.
  rewrite length_app in Hlen. simpl in Hlen.
  assert (forall j, (length pre <= j)%nat ->
                    fieldAt (heap w1) l j = vs0 !! j) as Hat.
  { intros j Hj. rewrite Hheap, Bpre by lia. unfold fieldAt. now rewrite Hl0. }
  assert (exists vs, heap w1 !! l = Some (VStruct vs)) as (vs & Hl).
  { destruct (lookup_lt_is_Some_2 vs0 (length pre) ltac:(lia)) as [x Hx].
    specialize (Hat (length pre) ltac:(lia)). rewrite Hx in Hat.
    unfold fieldAt in Hat.
    destruct (heap w1 !! l) as [[]|]; try discriminate. eauto. }
  assert (forall j, (length pre <= j)%nat -> vs !! j = vs0 !! j) as Hvs.
  { intros j Hj. rewrite <- (Hat j Hj). unfold fieldAt. now rewrite Hl. }
  destruct (loadFields_outcome git c l rest Hgit Hty (S (length pre))
              (<[Name ft := err]> errs) w1 vs Hl)
    as (errs' & w' & vs' & HL & Hheap' & Hframe & Hpop).
  { intros k f Hk.
    assert ((pre ++ ft :: rest) !! (S (length pre) + k)%nat = Some f) as Hf.
    { rewrite lookup_app_r by lia.
      now replace (S (length pre) + k - length pre)%nat with (S k) by lia. }
    destruct (Forall2_lookup_l _ _ _ _ _ Hfit Hf) as (old & Ho & Hfo).
    exists old. split; [|exact Hfo]. rewrite Hvs by lia. exact Ho. }
  assert (errs' !! Name ft = Some err) as Hentry.
  { rewrite (loadFields_errs _ _ _ _ _ _ _ _ _ _ HL Hname).
    apply lookup_insert_eq. }
  exists errs', w'.
  split; [|split; [exact Hentry|split; [exact Hheap|split; [|split]]]].
  - rewrite (Load_struct_pointer git c t l Ht He), Hfields.
    unfold mbind at 1, M_bind at 1. rewrite loadFields_app.
    rewrite (bind_Ret _ _ _ _ _ Hpre). simpl.
    rewrite (bind_Ret _ _ _ _ _ Hstep), HL.
    now rewrite (Any_of_entry _ _ _ Hentry).
  - destruct (loadFields_world _ _ _ _ _ _ _ _ _ HL)
      as (_ & _ & _ & (k & _ & Htrace & Hk)).
    now rewrite (Hk errs' eq_refl), firstn_all in Htrace.
  - unfold fieldAt at 1. rewrite Hheap', lookup_insert_eq.
    rewrite Hframe, Hvs by lia. unfold fieldAt. now rewrite Hl0.
  - intros k f old Hk Ho.
    destruct (Hpop k f old Hk) as (errsk & wk & Hreach & Hval).
    { rewrite Hvs by lia. exact Ho. }
    exists errsk, wk. split; [exact Hreach|].
    intros v Hm Hv. unfold fieldAt. rewrite Hheap', lookup_insert_eq. auto.
Qed.

Lemma countByte_app (ch : ascii) (a b : string) :
  countByte ch (a ++ b)%string = (countByte ch a + countByte ch b)%nat.
Proof.
  induction a as [|x a IH]; [reflexivity|].
  rewrite append_cons. simpl. rewrite IH. lia.
Qed.

Lemma gitTest_prints_an_entry : printsAnEntry gitTest.
Proof.
  intros history args out. unfold gitTest.
  destruct (last args) as [key|]; [|discriminate].
  destruct (testStore key) as [|v vs]; [discriminate|].
  intros H. inversion H. cbn [gitOutput].
  rewrite countByte_app. simpl. lia.
Qed.

(** C1, amended. Take a struct whose slice and array fields are slices
    and arrays of strings, the pointer passed to [Load] pointing to a
    value of it, and a [git] that prints at least one entry whenever it
    exits with status 0. Then [Load] reaches every field [ft] of the
    struct; and if [ft] is settable and tagged and fails there with
    [err], its accessor returning [err] or its kind being none the switch
    knows, then [Load] returns a mapping that holds [err] under the name
    of [ft] (no later managed field bears that name, as in every Go
    struct), [ft] holds what it held, the commands of all the fields
    after [ft] have been run, in order, and every field after [ft] whose
    accessor returned without an error, in the world in which [Load]
    reached it, holds the value made of what the accessor returned. *)
Theorem Load_field_failure_does_not_block (git : Git) (c : Config)
    (t : rtype) (l : loc) (pre : list StructField) (ft : StructField)
    (rest : list StructField) (w0 : World) (vs0 : list value) :
  kindOf t = Ptr ->
  kindOf (Elem t) = Struct ->
  fieldsOf (Elem t) = pre ++ ft :: rest ->
  heap w0 !! l = Some (VStruct vs0) ->
  Forall2 fitsField (fieldsOf (Elem t)) vs0 ->
  Name ft ∉ Name <$> filter (fun f => managed f = true) rest ->
  printsAnEntry git ->
  Forall stringTyped (fieldsOf (Elem t)) ->
  exists errs w,
    loadFields git c l 0 pre ∅ w0 = (Ret errs, w) /\
    forall err w1,
      fieldFails git c ft w err w1 ->
      exists m w',
        Load git c (Iface t (VPtr (Some l))) w0 =
          (Ret (LoadError_ (MkMap m)), w') /\
        m !! Name ft = Some err /\
        heap w1 = heap w /\
        trace w' = trace w1 ++ omap (fieldQuery c) rest /\
        fieldAt (heap w') l (length pre) = fieldAt (heap w0) l (length pre) /\
        (forall k f old,
           rest !! k = Some f ->
           vs0 !! (S (length pre) + k)%nat = Some old ->
           exists errsk wk,
             loadFields git c l (S (length pre)) (take k rest)
               (<[Name ft := err]> errs) w1 = (Ret errsk, wk) /\
             forall v,
               managed f = true -> loadedValue git c f wk old = Some v ->
               fieldAt (heap w') l (S (length pre) + k) = Some v).
Proof.
  intros Ht He Hfields Hl0 Hfit Hname Hgit Hty.
  rewrite Hfields in Hfit, Hty.
  apply Forall_app in Hty as [Hpre Hty]. inversion Hty as [|? ? _ Hrest]; subst.
  destruct (loadFields_returns git c l pre Hgit Hpre 0%nat ∅ w0)
    as (errs & w & Hreach).
  exists errs, w. split; [exact Hreach|].
  intros err w1 Hfail.
  exact (Load_after_field_failure git c t l pre ft rest w0 w w1 errs err vs0
           Ht He Hfields Hl0 Hfit Hname Hgit Hrest Hreach Hfail).
Qed.

Lemma Load_field_failure_does_not_block_witness :
  exists m w',
    Load gitTest Default (pointerTo mixedStruct) (worldWith mixedValue) =
      (Ret (LoadError_ (MkMap m)), w') /\
    m !! "Missing" = Some (RunError "" (Some exit1)) /\
    fieldAt (heap w') 0%nat 4%nat = Some (VString "local@example.com").
Proof.
  destruct (Load_field_failure_does_not_block gitTest Default
              (TPtr mixedStruct) 0%nat [] missingField
              (ratioField :: mixedRest) (worldWith mixedValue)
              [VString "m"; VOpaque; VString "h"; VString "p"; VString "u"])
    as (errs & w & Hreach & Hafter).
  - reflexivity.
  - reflexivity.
  - reflexivity.
  - reflexivity.
  - repeat constructor; discriminate.
  - vm_compute. intros H.
    repeat (apply elem_of_cons in H as [H|H]; [discriminate H|]).
    inversion H.
  - exact gitTest_prints_an_entry.
  - repeat constructor.
  - simpl in Hreach. inversion Hreach; subst errs w.
    destruct (Hafter (RunError "" (Some exit1))
                (ran (worldWith mixedValue) (getArgs Default "no.such" [])))
      as (m & w' & HLoad & Hentry & _ & _ & _ & Hlater).
    { split; [reflexivity|]. split; reflexivity. }
    exists m, w'. split; [exact HLoad|]. split; [exact Hentry|].
    destruct (Hlater 3%nat
                (mkStructField "UserEmail" "" TString
                   (gitconfigTag "user.email"))
                (VString "u") eq_refl eq_refl)
      as (errsk & wk & Hk & Hvalue).
    apply (f_equal snd) in Hk.
    change (snd (Ret errsk, wk)) with wk in Hk. subst wk.
    apply Hvalue; [reflexivity | vm_compute; reflexivity].
Defined.
